(** * dbro: connection registry, migration runner and SQL statement splitter

    A shallow embedding of the Go package [dbro] (migration.go, manager.go,
    flush.go and the drop operations) together with the properties of its
    specification.

    Go strings are modelled as sequences of Unicode code points: a valid
    UTF-8 string and the slice [[]rune(s)] determine each other, and every
    operation the package applies ([strings.Split] on an ASCII separator,
    [strings.TrimSpace], [strings.HasPrefix] on an ASCII prefix,
    [Builder.WriteRune], concatenation, map keys) acts on the code point
    sequence. *)

From Stdlib Require Import NArith Ascii Permutation.
From Stdlib Require String.
From stdpp Require Import base list strings gmap.

Local Open Scope N_scope.

(** ** Text *)

Definition rune := N.
Abbreviation text := (list rune).

(** An ASCII literal as a Go string. *)
Definition str (s : string) : text :=
  map N_of_ascii (String.list_ascii_of_string s).

Definition r_newline : rune := 10.
Definition r_dquote : rune := 34.
Definition r_hash : rune := 35.
Definition r_squote : rune := 39.
Definition r_star : rune := 42.
Definition r_dash : rune := 45.
Definition r_slash : rune := 47.
Definition r_semi : rune := 59.

(** [unicode.IsSpace]: the White_Space property. *)
Definition isSpace (r : rune) : bool :=
  existsb (N.eqb r)
    [9; 10; 11; 12; 13; 32; 133; 160; 5760; 8232; 8233; 8239; 8287; 12288]
  || ((8192 <=? r) && (r <=? 8202)).

Fixpoint TrimLeft (s : text) : text :=
  match s with
  | [] => []
  | c :: s' => if isSpace c then TrimLeft s' else s
  end.

Definition TrimRight (s : text) : text := rev (TrimLeft (rev s)).

(** [strings.TrimSpace] *)
Definition TrimSpace (s : text) : text := TrimRight (TrimLeft s).

(** [strings.HasPrefix] *)
Fixpoint HasPrefix (s p : text) : bool :=
  match p, s with
  | [], _ => true
  | _ :: _, [] => false
  | a :: p', b :: s' => (a =? b) && HasPrefix s' p'
  end.

(** [strings.Split] with a separator of one character: [n] separators give
    [n + 1] pieces, and the empty string gives one empty piece. *)
Fixpoint Split (sep : rune) (s : text) : list text :=
  match s with
  | [] => [[]]
  | c :: s' =>
      if c =? sep then [] :: Split sep s'
      else match Split sep s' with
           | p :: ps => (c :: p) :: ps
           | [] => [[c]]
           end
  end.

(** ** The statement splitter of migration.go *)

(** The local variables of [splitSQLStatements]. *)
Record splitter := {
  statements : list text;
  currentStatement : text;
  inQuotes : bool;
  quoteChar : rune;
}.

Definition WriteRune (c : rune) (s : splitter) : splitter :=
  {| statements := statements s;
     currentStatement := currentStatement s ++ [c];
     inQuotes := inQuotes s;
     quoteChar := quoteChar s |}.

Definition enterQuote (c : rune) (s : splitter) : splitter :=
  {| statements := statements s;
     currentStatement := currentStatement s ++ [c];
     inQuotes := true;
     quoteChar := c |}.

Definition leaveQuote (c : rune) (s : splitter) : splitter :=
  {| statements := statements s;
     currentStatement := currentStatement s ++ [c];
     inQuotes := false;
     quoteChar := quoteChar s |}.

(** The [case !inQuotes && char == ';'] branch: emit the trimmed
    accumulator when it is not empty, then [Reset]. *)
Definition endStatement (s : splitter) : splitter :=
  let statement := TrimSpace (currentStatement s) in
  {| statements :=
       match statement with
       | [] => statements s
       | _ :: _ => statements s ++ [statement]
       end;
     currentStatement := [];
     inQuotes := inQuotes s;
     quoteChar := quoteChar s |}.

(** The loop [for i := 0; i < len(runes); i++] over one line.  The [i++]
    of the doubled-quote branch is the recursion on the tail of the tail. *)
Fixpoint scanLine (runes : text) (s : splitter) : splitter :=
  match runes with
  | [] => s
  | char :: rest =>
      if negb (inQuotes s) && ((char =? r_squote) || (char =? r_dquote)) then
        scanLine rest (enterQuote char s)
      else if inQuotes s && (char =? quoteChar s) then
        match rest with
        | next :: rest' =>
            if next =? quoteChar s
            then scanLine rest' (WriteRune char (WriteRune char s))
            else scanLine rest (leaveQuote char s)
        | [] => scanLine rest (leaveQuote char s)
        end
      else if negb (inQuotes s) && (char =? r_semi) then
        scanLine rest (endStatement s)
      else
        scanLine rest (WriteRune char s)
  end.

Definition isCommentLine (line : text) : bool :=
  HasPrefix line (str "--") || HasPrefix line (str "#")
  || HasPrefix line (str "/*").

(** One iteration of [for _, line := range lines]. *)
Definition processLine (s : splitter) (line : text) : splitter :=
  let line := TrimSpace line in
  if isCommentLine line then s
  else match line with
       | [] => s
       | _ :: _ =>
           let s' := scanLine line s in
           match currentStatement s' with
           | [] => s'
           | _ :: _ => WriteRune r_newline s'
           end
       end.

Definition initSplitter : splitter :=
  {| statements := []; currentStatement := []; inQuotes := false;
     quoteChar := 0 |}.

(** The code after the loop: the last statement when it does not end with
    a semicolon. *)
Definition lastStatement (s : splitter) : list text :=
  match currentStatement s with
  | [] => statements s
  | _ :: _ =>
      match TrimSpace (currentStatement s) with
      | [] => statements s
      | statement => statements s ++ [statement]
      end
  end.

Definition splitSQLStatements (sqlContent : text) : list text :=
  lastStatement (fold_left processLine (Split r_newline sqlContent) initSplitter).

(** ** The earlier splitter: split on every semicolon *)

Module Legacy.

Definition keepPart (part : text) : bool :=
  match part with
  | [] => false
  | _ :: _ => negb (HasPrefix part (str "--") || HasPrefix part (str "#"))
  end.

Definition splitSQLStatements (sqlContent : text) : list text :=
  filter (fun part => keepPart part = true)
         (map TrimSpace (Split r_semi sqlContent)).

End Legacy.

(** ** Notions used by the properties *)

Definition blank (s : text) : Prop := Forall (fun c => isSpace c = true) s.

(** A text with a visible character at both ends (or no character at all):
    the fixed points of [TrimSpace]. *)
Definition tight (s : text) : Prop :=
  match s with
  | [] => True
  | c :: _ => isSpace c = false
  end /\
  match rev s with
  | [] => True
  | c :: _ => isSpace c = false
  end.

Definition isQuote (c : rune) : bool := (c =? r_squote) || (c =? r_dquote).

(** One loop iteration, with the doubled quote read as a quote that closes
    followed by a quote that opens. *)
Definition step (s : splitter) (c : rune) : splitter :=
  if negb (inQuotes s) && isQuote c then enterQuote c s
  else if inQuotes s && (c =? quoteChar s) then leaveQuote c s
  else if negb (inQuotes s) && (c =? r_semi) then endStatement s
  else WriteRune c s.

(** Inside a literal, [quoteChar] is the quote mark that opened it. *)
Definition quoteInv (s : splitter) : Prop :=
  inQuotes s = true -> isQuote (quoteChar s) = true.

(** The end of a line that was scanned. *)
Definition endLine (s : splitter) : splitter :=
  match currentStatement s with
  | [] => s
  | _ :: _ => WriteRune r_newline s
  end.

(** The automaton over the whole text: a newline ends a line. *)
Definition flatStep (s : splitter) (c : rune) : splitter :=
  if c =? r_newline then endLine s else step s c.

Definition keptLine (line : text) : bool :=
  negb (isCommentLine line) && match line with [] => false | _ :: _ => true end.

(** The lines the scanner reads: trimmed, without the comment lines and
    the empty lines. *)
Definition scannedLines (sqlContent : text) : list text :=
  filter (fun l => keptLine l = true) (map TrimSpace (Split r_newline sqlContent)).

Fixpoint joinLines (ls : list text) : text :=
  match ls with
  | [] => []
  | [l] => l
  | l :: ls' => l ++ r_newline :: joinLines ls'
  end.

(** The text the scanner reads. *)
Definition scannedText (sqlContent : text) : text :=
  joinLines (scannedLines sqlContent).

Definition noRune (c : rune) (s : text) : Prop := Forall (fun x => x <> c) s.

Definition scanKept (s : splitter) (line : text) : splitter :=
  endLine (scanLine line s).

(** The quote state as the specification words it: outside any literal, or
    inside a literal opened by a given quote mark. *)
Definition quoteStep (q : option rune) (c : rune) : option rune :=
  match q with
  | None => if isQuote c then Some c else None
  | Some k => if c =? k then None else Some k
  end.

Definition quoteAfter (q : option rune) (s : text) : option rune :=
  fold_left quoteStep s q.

(** Every literal opened in [s] is closed in [s]. *)
Definition balanced (s : text) : Prop := quoteAfter None s = None.

Definition quoteState (s : splitter) : option rune :=
  if inQuotes s then Some (quoteChar s) else None.

(** What the accumulator keeps of a character: a line end is dropped while
    the accumulator is empty. *)
Definition keepRune (cur : text) (c : rune) : text :=
  if c =? r_newline then
    match cur with [] => [] | _ :: _ => cur ++ [c] end
  else cur ++ [c].

Definition accumulate (cur seg : text) : text := fold_left keepRune seg cur.

(** A statement as the ordering property takes it: no semicolon, every
    literal closed, and some visible character. *)
Definition plainStatement (x : text) : Prop :=
  noRune r_semi x /\ balanced x /\ TrimSpace x <> [].

(** The statements of a text, each followed by its semicolon. *)
Definition terminated (stmts : list text) : text :=
  concat (map (fun x => x ++ [r_semi]) stmts).

(** What [lastStatement] adds for trailing text. *)
Definition trailing (rest : text) : list text :=
  match TrimSpace rest with
  | [] => []
  | statement => [statement]
  end.

(** Every statement that is returned is trimmed and not empty. *)
Definition emitted (x : text) : Prop := x <> [] /\ TrimSpace x = x.

(** * The connection manager of manager.go *)

(** ** Errors

    [fmt.Errorf] is kept symbolic: the format and its arguments.  An error
    that comes from outside the package (a factory, the SQL driver, the file
    system) is [ExternalError]. *)
Inductive error :=
  | ExternalError (code : N)
  | Errorf (format : string) (args : list fmtArg)
with fmtArg :=
  | AStr (s : text)
  | AInt (n : nat)
  | AErr (e : error).

Inductive result (A : Type) :=
  | Ok (a : A)
  | Err (e : error).
Arguments Ok {A} a.
Arguments Err {A} e.

(** ** The world outside the package

    A client ([*gorm.DB]) that is not nil is a [handle]; a possibly nil
    client is an [option handle].  Every call that leaves the package is
    recorded as an [event]; what the call returns is decided by the
    environment from the events so far. *)
Definition handle := N.

Inductive event :=
  | EvOpen (driverName dsn : text)
  | EvDB (h : handle)
  | EvClose (h : handle)
  | EvReadFile (filePath : text)
  | EvBegin (h : handle)
  | EvTxExec (h : handle) (sql : text)
  | EvCommit (h : handle)
  | EvRollback (h : handle)
  | EvExec (h : handle) (sql : text)
  | EvQuery (h : handle) (sql : text).

Record environment := {
  env_DB : list event -> handle -> option error;
  env_Close : list event -> handle -> option error;
  env_ReadFile : list event -> text -> result text;
  env_Begin : list event -> handle -> option error;
  env_TxExec : list event -> handle -> text -> option error;
  env_Commit : list event -> handle -> option error;
  env_Exec : list event -> handle -> text -> option error;
  env_Query : list event -> handle -> text -> result (list text);
}.

(** The type [connectionFn]: from a DSN to a client or an error. *)
Definition connectionFn := text -> list event -> result (option handle).

(** Calls into the world: a state monad over the events. *)
Definition IO (A : Type) : Type := list event -> A * list event.

Definition ioret {A : Type} (a : A) : IO A := fun tr => (a, tr).

Definition iobind {A B : Type} (c : IO A) (k : A -> IO B) : IO B :=
  fun tr => let (a, tr') := c tr in k a tr'.

Notation "x <~ c ;; k" := (iobind c (fun x => k))
  (at level 100, c at next level, right associativity).

(** A call: the environment answers from the events so far, and the call
    is recorded. *)
Definition call {A : Type} (answer : list event -> A) (ev : event) : IO A :=
  fun tr => (answer tr, tr ++ [ev]).

(** ** Dialect table operations (flush.go and the drop operations)

    The six functions have one shape and differ in their SQL and in their
    messages. *)
Record dialect := {
  disableSQL : text;
  disableMsg : string;
  listSQL : text;
  tableSQL : text -> text;
  tableMsg : string;
  enableSQL : text;
  enableMsg : string;
}.

Section Package.

Variable env : environment.

(** [for _, table := range tables] with its [db.Exec] *)
Fixpoint eachTable (d : dialect) (db : handle) (tables : list text)
  : IO (option error) :=
  match tables with
  | [] => ioret None
  | table :: rest =>
      r <~ call (fun tr => env_Exec env tr db (tableSQL d table))
                (EvExec db (tableSQL d table)) ;;
      match r with
      | Some err => ioret (Some (Errorf (tableMsg d) [AStr table; AErr err]))
      | None => eachTable d db rest
      end
  end.

Definition tableOperation (d : dialect) (db : handle) : IO (option error) :=
  r <~ call (fun tr => env_Exec env tr db (disableSQL d))
            (EvExec db (disableSQL d)) ;;
  match r with
  | Some err => ioret (Some (Errorf (disableMsg d) [AErr err]))
  | None =>
      q <~ call (fun tr => env_Query env tr db (listSQL d))
                (EvQuery db (listSQL d)) ;;
      match q with
      | Err err => ioret (Some (Errorf "failed to get table names: %w" [AErr err]))
      | Ok tables =>
          r <~ eachTable d db tables ;;
          match r with
          | Some err => ioret (Some err)
          | None =>
              r <~ call (fun tr => env_Exec env tr db (enableSQL d))
                        (EvExec db (enableSQL d)) ;;
              match r with
              | Some err => ioret (Some (Errorf (enableMsg d) [AErr err]))
              | None => ioret None
              end
          end
      end
  end.

Definition sqliteTables : text :=
  str "SELECT name FROM sqlite_master WHERE type='table' AND name NOT LIKE 'sqlite_%'".

Definition postgresTables : text :=
  str "SELECT tablename FROM pg_tables WHERE schemaname = 'public'".

Definition flushSQLite : dialect :=
  {| disableSQL := str "PRAGMA foreign_keys = OFF";
     disableMsg := "failed to disable foreign keys: %w";
     listSQL := sqliteTables;
     tableSQL := fun table => str "DELETE FROM " ++ table;
     tableMsg := "failed to flush table %s: %w";
     enableSQL := str "PRAGMA foreign_keys = ON";
     enableMsg := "failed to re-enable foreign keys: %w" |}.

Definition flushMySQL : dialect :=
  {| disableSQL := str "SET FOREIGN_KEY_CHECKS = 0";
     disableMsg := "failed to disable foreign key checks: %w";
     listSQL := str "SHOW TABLES";
     tableSQL := fun table => str "TRUNCATE TABLE " ++ table;
     tableMsg := "failed to flush table %s: %w";
     enableSQL := str "SET FOREIGN_KEY_CHECKS = 1";
     enableMsg := "failed to re-enable foreign key checks: %w" |}.

Definition flushPostgres : dialect :=
  {| disableSQL := str "SET session_replication_role = 'replica'";
     disableMsg := "failed to disable triggers: %w";
     listSQL := postgresTables;
     tableSQL := fun table => str "TRUNCATE TABLE " ++ table ++ str " CASCADE";
     tableMsg := "failed to flush table %s: %w";
     enableSQL := str "SET session_replication_role = 'origin'";
     enableMsg := "failed to re-enable triggers: %w" |}.

Definition dropSQLite : dialect :=
  {| disableSQL := str "PRAGMA foreign_keys = OFF";
     disableMsg := "failed to disable foreign keys: %w";
     listSQL := sqliteTables;
     tableSQL := fun table => str "DROP TABLE IF EXISTS " ++ table;
     tableMsg := "failed to drop table %s: %w";
     enableSQL := str "PRAGMA foreign_keys = ON";
     enableMsg := "failed to re-enable foreign keys: %w" |}.

Definition dropMySQL : dialect :=
  {| disableSQL := str "SET FOREIGN_KEY_CHECKS = 0";
     disableMsg := "failed to disable foreign key checks: %w";
     listSQL := str "SHOW TABLES";
     tableSQL := fun table => str "DROP TABLE IF EXISTS " ++ table;
     tableMsg := "failed to drop table %s: %w";
     enableSQL := str "SET FOREIGN_KEY_CHECKS = 1";
     enableMsg := "failed to re-enable foreign key checks: %w" |}.

Definition dropPostgres : dialect :=
  {| disableSQL := str "SET session_replication_role = 'replica'";
     disableMsg := "failed to disable triggers: %w";
     listSQL := postgresTables;
     tableSQL := fun table => str "DROP TABLE IF EXISTS " ++ table ++ str " CASCADE";
     tableMsg := "failed to drop table %s: %w";
     enableSQL := str "SET session_replication_role = 'origin'";
     enableMsg := "failed to re-enable triggers: %w" |}.

Definition FlushSQLiteTables : handle -> IO (option error) := tableOperation flushSQLite.
Definition FlushMySQLTables : handle -> IO (option error) := tableOperation flushMySQL.
Definition FlushPostgresTables : handle -> IO (option error) := tableOperation flushPostgres.
Definition DropSQLiteTables : handle -> IO (option error) := tableOperation dropSQLite.
Definition DropMySQLTables : handle -> IO (option error) := tableOperation dropMySQL.
Definition DropPostgresTables : handle -> IO (option error) := tableOperation dropPostgres.

End Package.

(** ** The manager *)

Definition DbMySQL : text := str "mysql".
Definition DbPostgres : text := str "postgres".
Definition DbSqlite : text := str "sqlite".
Definition DbLibSQL : text := str "libsql".

Record connDsn := {
  DriverName : text;
  Dsn : text;
}.

(** The fields of [ConnectionManager]; the two mutexes have no state of
    their own in a run of one caller. *)
Record ConnectionManager := {
  connConfigs : gmap text connDsn;
  connectionFns : gmap text connectionFn;
  connections : gmap text (option handle);
  executedMigrations : gset text;
}.

Definition NewConnectionManager : ConnectionManager :=
  {| connConfigs := ∅; connectionFns := ∅; connections := ∅;
     executedMigrations := ∅ |}.

(** A method either returns or panics (a method called on a nil client). *)
Inductive outcome (A : Type) :=
  | Returns (a : A)
  | Panics.
Arguments Returns {A} a.
Arguments Panics {A}.

(** Methods of the manager: they read and write the manager and call into
    the world. *)
Definition M (A : Type) : Type :=
  ConnectionManager -> list event -> outcome A * ConnectionManager * list event.

Definition ret {A : Type} (a : A) : M A := fun m tr => (Returns a, m, tr).

Definition bind {A B : Type} (c : M A) (k : A -> M B) : M B :=
  fun m tr =>
    match c m tr with
    | (Returns a, m', tr') => k a m' tr'
    | (Panics, m', tr') => (Panics, m', tr')
    end.

Notation "x <- c ;; k" := (bind c (fun x => k))
  (at level 100, c at next level, right associativity).

Definition panic {A : Type} : M A := fun m tr => (Panics, m, tr).

Definition liftIO {A : Type} (c : IO A) : M A :=
  fun m tr => let (a, tr') := c tr in (Returns a, m, tr').

Definition getManager : M ConnectionManager := fun m tr => (Returns m, m, tr).

Definition withConnections (c : gmap text (option handle))
    (m : ConnectionManager) : ConnectionManager :=
  {| connConfigs := connConfigs m; connectionFns := connectionFns m;
     connections := c; executedMigrations := executedMigrations m |}.

Definition withExecutedMigrations (e : gset text)
    (m : ConnectionManager) : ConnectionManager :=
  {| connConfigs := connConfigs m; connectionFns := connectionFns m;
     connections := connections m; executedMigrations := e |}.

Definition setConnections (c : gmap text (option handle)) : M unit :=
  fun m tr => (Returns tt, withConnections c m, tr).

Definition setExecutedMigrations (e : gset text) : M unit :=
  fun m tr => (Returns tt, withExecutedMigrations e m, tr).

Definition AddConnectionFunc (driverName : text) (f : connectionFn) : M unit :=
  fun m tr =>
    (Returns tt,
     {| connConfigs := connConfigs m;
        connectionFns := <[driverName := f]> (connectionFns m);
        connections := connections m;
        executedMigrations := executedMigrations m |},
     tr).

Definition SetDsn (name driverName dsn : text) : M unit :=
  fun m tr =>
    (Returns tt,
     {| connConfigs :=
          <[name := {| DriverName := driverName; Dsn := dsn |}]> (connConfigs m);
        connectionFns := connectionFns m;
        connections := connections m;
        executedMigrations := executedMigrations m |},
     tr).

(** A method called on the client [db]: a nil client panics. *)
Definition onClient {A : Type} (db : option handle) (f : handle -> M A) : M A :=
  match db with
  | None => panic
  | Some h => f h
  end.

(** The format of the statement error of [RunMigration]. *)
Definition statementFormat : string :=
  String.append "failed to execute statement %d in file %s: %w"
    (String.String (Ascii.ascii_of_nat 10) "Statement: %s").

Section Manager.

Variable env : environment.

Definition GetConnection (name : text) : M (result (option handle)) :=
  m <- getManager ;;
  match connConfigs m !! name with
  | None =>
      ret (Err (Errorf "database connection config not found for %s" [AStr name]))
  | Some config =>
      match connectionFns m !! DriverName config with
      | None =>
          ret (Err (Errorf "database connection function not found for driver %s"
                           [AStr (DriverName config)]))
      | Some connFn =>
          match connections m !! name with
          | Some conn => ret (Ok conn)
          | None =>
              (* m.mu.Lock(), then the second look at the cache *)
              m <- getManager ;;
              match connections m !! name with
              | Some conn => ret (Ok conn)
              | None =>
                  r <- liftIO (call (connFn (Dsn config))
                                    (EvOpen (DriverName config) (Dsn config))) ;;
                  match r with
                  | Err err => ret (Err err)
                  | Ok conn =>
                      _ <- setConnections (<[name := conn]> (connections m)) ;;
                      ret (Ok conn)
                  end
              end
          end
      end
  end.

Definition Close (name : text) : M (option error) :=
  m <- getManager ;;
  match connections m !! name with
  | None => ret (Some (Errorf "connection %s not found" [AStr name]))
  | Some None => ret (Some (Errorf "connection was not established" []))
  | Some (Some conn) =>
      r <- liftIO (call (fun tr => env_DB env tr conn) (EvDB conn)) ;;
      match r with
      | Some err => ret (Some err)
      | None =>
          r <- liftIO (call (fun tr => env_Close env tr conn) (EvClose conn)) ;;
          match r with
          | Some err => ret (Some err)
          | None =>
              _ <- setConnections (delete name (connections m)) ;;
              ret None
          end
      end
  end.

(** The loop of [CloseAll] over the clients in the order of the run. *)
Fixpoint closeEach (conns : list (option handle)) : IO (option error) :=
  match conns with
  | [] => ioret None
  | None :: rest => closeEach rest
  | Some conn :: rest =>
      r <~ call (fun tr => env_DB env tr conn) (EvDB conn) ;;
      match r with
      | Some err => ioret (Some err)
      | None =>
          r <~ call (fun tr => env_Close env tr conn) (EvClose conn) ;;
          match r with
          | Some err => ioret (Some err)
          | None => closeEach rest
          end
      end
  end.

(** [CloseAll].  Go visits the entries of a map in an order that it does
    not specify: [order] is the order of this run, a permutation of
    [map_to_list (connections m)]. *)
Definition CloseAll (order : list (text * option handle)) : M (option error) :=
  r <- liftIO (closeEach (map snd order)) ;;
  match r with
  | Some err => ret (Some err)
  | None =>
      _ <- setConnections ∅ ;;
      ret None
  end.

Definition dispatch (driverName : text)
    (sqlite mysql postgres : handle -> IO (option error)) (db : option handle)
  : M (option error) :=
  if decide (driverName = DbSqlite \/ driverName = DbLibSQL) then
    onClient db (fun h => liftIO (sqlite h))
  else if decide (driverName = DbMySQL) then
    onClient db (fun h => liftIO (mysql h))
  else if decide (driverName = DbPostgres) then
    onClient db (fun h => liftIO (postgres h))
  else ret (Some (Errorf "unsupported database driver: %s" [AStr driverName])).

Definition FlushAllTables (name : text) : M (option error) :=
  r <- GetConnection name ;;
  match r with
  | Err err => ret (Some (Errorf "failed to get connection: %w" [AErr err]))
  | Ok db =>
      m <- getManager ;;
      match connConfigs m !! name with
      | None =>
          ret (Some (Errorf "database connection config not found for %s" [AStr name]))
      | Some config =>
          dispatch (DriverName config) (FlushSQLiteTables env)
                   (FlushMySQLTables env) (FlushPostgresTables env) db
      end
  end.

Definition DropAllTables (name : text) : M (option error) :=
  r <- GetConnection name ;;
  match r with
  | Err err => ret (Some (Errorf "failed to get connection: %w" [AErr err]))
  | Ok db =>
      m <- getManager ;;
      match connConfigs m !! name with
      | None =>
          ret (Some (Errorf "database connection config not found for %s" [AStr name]))
      | Some config =>
          dispatch (DriverName config) (DropSQLiteTables env)
                   (DropMySQLTables env) (DropPostgresTables env) db
      end
  end.

(** The body of the transaction of [RunMigration]: [i] is the index of the
    first statement of [statements]. *)
Fixpoint execStatements (tx : handle) (filePath : text) (i : nat)
    (statements : list text) : IO (option error) :=
  match statements with
  | [] => ioret None
  | statement :: rest =>
      match TrimSpace statement with
      | [] => execStatements tx filePath (S i) rest
      | statement =>
          r <~ call (fun tr => env_TxExec env tr tx statement)
                    (EvTxExec tx statement) ;;
          match r with
          | Some err =>
              ioret (Some (Errorf statementFormat
                             [AInt (i + 1); AStr filePath; AErr err; AStr statement]))
          | None => execStatements tx filePath (S i) rest
          end
      end
  end.

(** [db.Transaction] of gorm: begin, run the body, commit when the body
    returns nil and roll back when it returns an error. *)
Definition Transaction (db : handle) (fc : handle -> IO (option error))
  : IO (option error) :=
  b <~ call (fun tr => env_Begin env tr db) (EvBegin db) ;;
  match b with
  | Some err => ioret (Some err)
  | None =>
      r <~ fc db ;;
      match r with
      | None => call (fun tr => env_Commit env tr db) (EvCommit db)
      | Some err =>
          _ <~ call (fun _ => tt) (EvRollback db) ;;
          ioret (Some err)
      end
  end.

Definition RunMigration (name filePath : text) : M (option error) :=
  r <- GetConnection name ;;
  match r with
  | Err err => ret (Some (Errorf "failed to get connection: %w" [AErr err]))
  | Ok db =>
      f <- liftIO (call (fun tr => env_ReadFile env tr filePath) (EvReadFile filePath)) ;;
      match f with
      | Err err =>
          ret (Some (Errorf "failed to read SQL file %s: %w" [AStr filePath; AErr err]))
      | Ok sqlContent =>
          match TrimSpace sqlContent with
          | [] => ret (Some (Errorf "SQL file %s is empty" [AStr filePath]))
          | sqlString =>
              match splitSQLStatements sqlString with
              | [] =>
                  ret (Some (Errorf "no valid SQL statements found in file %s"
                                    [AStr filePath]))
              | statements =>
                  onClient db (fun h =>
                    liftIO (Transaction h (fun tx =>
                      execStatements tx filePath 0 statements)))
              end
          end
      end
  end.

Definition migrationKey (name filePath : text) : text :=
  name ++ str ":" ++ filePath.

Definition RunMigrationOnce (name filePath : text) : M (option error) :=
  m <- getManager ;;
  if decide (migrationKey name filePath ∈ executedMigrations m) then ret None
  else
    (* m.migrationMu.Lock(), then the second look at the marks *)
    m <- getManager ;;
    if decide (migrationKey name filePath ∈ executedMigrations m) then ret None
    else
      r <- RunMigration name filePath ;;
      match r with
      | Some err => ret (Some err)
      | None =>
          m <- getManager ;;
          _ <- setExecutedMigrations ({[migrationKey name filePath]} ∪ executedMigrations m) ;;
          ret None
      end.

End Manager.

(** ** Quoted literals *)

(** The characters between the quote marks of a literal opened by [q]:
    any character other than [q], or [q] doubled. *)
Inductive literalBody (q : rune) : text -> Prop :=
  | body_nil : literalBody q []
  | body_char (c : rune) (body : text) :
      c <> q -> literalBody q body -> literalBody q (c :: body)
  | body_escape (body : text) :
      literalBody q body -> literalBody q (q :: q :: body).

Definition literal (q : rune) (body : text) : text := q :: body ++ [q].

(** [lit] occurs in [x] as one piece. *)
Definition within (lit x : text) : Prop := exists a b, x = a ++ lit ++ b.

(** The literal is in the accumulator or in a statement already emitted. *)
Definition carries (lit : text) (s : splitter) : Prop :=
  within lit (currentStatement s) \/ Exists (within lit) (statements s).

Definition scenario : text :=
  str "INSERT INTO t VALUES ('a;b');
INSERT INTO t VALUES ('c');".

(** ** The ordering property as the specification states it *)

(** A statement of the source text: not blank, not a comment, and without
    a semicolon or a quote mark. *)
Definition sourceStatement (x : text) : Prop :=
  noRune r_semi x /\ noRune r_squote x /\ noRune r_dquote x /\
  TrimSpace x <> [] /\ isCommentLine (TrimSpace x) = false.

Definition blockCommentText : text :=
  str "SELECT 1
/* c */ + 2;
SELECT 3;".

Definition blockCommentStatements : list text :=
  [str "SELECT 1
/* c */ + 2"; str "
SELECT 3"].

Definition orderedText : text :=
  str "CREATE TABLE t (id INT);
-- seed
  INSERT INTO t
    VALUES (1);
SELECT id FROM t".

Definition orderedStatements : list text :=
  [str "CREATE TABLE t (id INT)"; str "
INSERT INTO t
VALUES (1)"].

(** ** Notions for the comparison of the two splitters *)

Definition visiblePart (part : text) : bool :=
  match part with [] => false | _ :: _ => true end.

(** The comment test of the earlier splitter. *)
Definition isLineComment (part : text) : bool :=
  HasPrefix part (str "--") || HasPrefix part (str "#").

(** The trimmed pieces between the semicolons of a text. *)
Definition parts (sqlContent : text) : list text :=
  map TrimSpace (Split r_semi sqlContent).

Definition plainLine : text := str "  DELETE FROM a; DELETE FROM b ;; UPDATE c SET x = 1  ".

(** ** Notions for the properties of the manager *)

(** The cache after [name] has been given the client [conn]. *)
Definition cached (name : text) (conn : option handle)
    (m : ConnectionManager) : ConnectionManager :=
  withConnections (<[name := conn]> (connections m)) m.

(** The marks after the key of [(name, filePath)] has been added. *)
Definition marked (name filePath : text) (m : ConnectionManager) : ConnectionManager :=
  withExecutedMigrations ({[migrationKey name filePath]} ∪ executedMigrations m) m.

(** The driver accepts the statements [stmts], issued one after the other
    in a transaction on [h], after the events [tr]. *)
Fixpoint accepted (env : environment) (h : handle) (tr : list event)
    (stmts : list text) : Prop :=
  match stmts with
  | [] => True
  | x :: rest =>
      env_TxExec env tr h x = None /\
      accepted env h (tr ++ [EvTxExec h x]) rest
  end.

(** An environment in which every call succeeds; every file holds the
    scenario of the specification and every database has two tables. *)
Definition quietEnv : environment :=
  {| env_DB := fun _ _ => None;
     env_Close := fun _ _ => None;
     env_ReadFile := fun _ _ => Ok scenario;
     env_Begin := fun _ _ => None;
     env_TxExec := fun _ _ _ => None;
     env_Commit := fun _ _ => None;
     env_Exec := fun _ _ _ => None;
     env_Query := fun _ _ _ => Ok [str "users"; str "orders"] |}.

(** A factory that opens the client [h]. *)
Definition opens (h : handle) : connectionFn := fun _ _ => Ok (Some h).

(** A factory that fails. *)
Definition refuses (code : N) : connectionFn := fun _ _ => Err (ExternalError code).

(** A manager with the configurations [primary] and [a:b] and [a] on the
    driver [mysql], and no client yet. *)
Definition sampleManager : ConnectionManager :=
  {| connConfigs :=
       <[str "primary" := {| DriverName := DbMySQL; Dsn := str "dsn" |}]>
       (<[str "a:b" := {| DriverName := DbMySQL; Dsn := str "dsn" |}]>
       (<[str "a" := {| DriverName := DbMySQL; Dsn := str "dsn" |}]> ∅));
     connectionFns := <[DbMySQL := opens 7]> ∅;
     connections := ∅;
     executedMigrations := ∅ |}.

(** A migration of three statements, and an environment in which the
    second of them is refused by the driver. *)
Definition threeStatements : text :=
  str "CREATE TABLE t (v TEXT);
INSERT INTO t VALUES ('a;b');
INSERT INTO t VALUES ('c');
".

Definition secondFails : environment :=
  {| env_DB := fun _ _ => None;
     env_Close := fun _ _ => None;
     env_ReadFile := fun _ _ => Ok threeStatements;
     env_Begin := fun _ _ => None;
     env_TxExec := fun _ _ sql =>
       if decide (sql = str "INSERT INTO t VALUES ('a;b')")
       then Some (ExternalError 1) else None;
     env_Commit := fun _ _ => None;
     env_Exec := fun _ _ _ => None;
     env_Query := fun _ _ _ => Ok [str "users"; str "orders"] |}.

Definition secondFailsError : error :=
  Errorf statementFormat
    [AInt 2; AStr (str "m.sql"); AErr (ExternalError 1);
     AStr (str "INSERT INTO t VALUES ('a;b')")].

Definition secondFailsEvents : list event :=
  [EvOpen DbMySQL (str "dsn"); EvReadFile (str "m.sql"); EvBegin 7;
   EvTxExec 7 (str "CREATE TABLE t (v TEXT)");
   EvTxExec 7 (str "INSERT INTO t VALUES ('a;b')");
   EvRollback 7].

(** The manager and the events after the migration [c] has run once on the
    connection [a:b] in [quietEnv]. *)
Definition afterFirstMigration : ConnectionManager :=
  marked (str "a:b") (str "c") (cached (str "a:b") (Some 7) sampleManager).

Definition firstMigrationEvents : list event :=
  [EvOpen DbMySQL (str "dsn"); EvReadFile (str "c"); EvBegin 7;
   EvTxExec 7 (str "INSERT INTO t VALUES ('a;b')");
   EvTxExec 7 (str "INSERT INTO t VALUES ('c')");
   EvCommit 7].

(** ** The six dialect operations *)

Inductive tableOp :=
  | OpFlushSQLite | OpFlushMySQL | OpFlushPostgres
  | OpDropSQLite | OpDropMySQL | OpDropPostgres.

Definition dialectOf (op : tableOp) : dialect :=
  match op with
  | OpFlushSQLite => flushSQLite
  | OpFlushMySQL => flushMySQL
  | OpFlushPostgres => flushPostgres
  | OpDropSQLite => dropSQLite
  | OpDropMySQL => dropMySQL
  | OpDropPostgres => dropPostgres
  end.

Definition runTableOp (env : environment) (op : tableOp)
  : handle -> IO (option error) :=
  match op with
  | OpFlushSQLite => FlushSQLiteTables env
  | OpFlushMySQL => FlushMySQLTables env
  | OpFlushPostgres => FlushPostgresTables env
  | OpDropSQLite => DropSQLiteTables env
  | OpDropMySQL => DropMySQLTables env
  | OpDropPostgres => DropPostgresTables env
  end.

(** The statements sent for the tables [tables]. *)
Definition tableEvents (d : dialect) (db : handle) (tables : list text) : list event :=
  map (fun table => EvExec db (tableSQL d table)) tables.

(** The driver accepts the statement of every table of [tables], sent one
    after the other after the events [tr]. *)
Fixpoint tablesAccepted (env : environment) (d : dialect) (db : handle)
    (tr : list event) (tables : list text) : Prop :=
  match tables with
  | [] => True
  | table :: rest =>
      env_Exec env tr db (tableSQL d table) = None /\
      tablesAccepted env d db (tr ++ [EvExec db (tableSQL d table)]) rest
  end.

(** ** Closing *)

(** The events of closing the clients [conns] one after the other. *)
Fixpoint closeEvents (conns : list (option handle)) : list event :=
  match conns with
  | [] => []
  | None :: rest => closeEvents rest
  | Some conn :: rest => EvDB conn :: EvClose conn :: closeEvents rest
  end.

(** Every client of [conns] is closed without error, after the events
    [tr]. *)
Fixpoint closesAccepted (env : environment) (tr : list event)
    (conns : list (option handle)) : Prop :=
  match conns with
  | [] => True
  | None :: rest => closesAccepted env tr rest
  | Some conn :: rest =>
      env_DB env tr conn = None /\
      env_Close env (tr ++ [EvDB conn]) conn = None /\
      closesAccepted env (tr ++ [EvDB conn; EvClose conn]) rest
  end.

(** An environment in which the client 2 cannot be closed, and a manager
    that holds the clients 1 and 2. *)
Definition closeFails : environment :=
  {| env_DB := fun _ _ => None;
     env_Close := fun _ h => if h =? 2 then Some (ExternalError 1) else None;
     env_ReadFile := fun _ _ => Ok scenario;
     env_Begin := fun _ _ => None;
     env_TxExec := fun _ _ _ => None;
     env_Commit := fun _ _ => None;
     env_Exec := fun _ _ _ => None;
     env_Query := fun _ _ _ => Ok [] |}.

Definition twoClients : ConnectionManager :=
  {| connConfigs := ∅;
     connectionFns := ∅;
     connections := <[str "a" := Some 1]> (<[str "b" := Some 2]> ∅);
     executedMigrations := ∅ |}.

Definition closeOrder : list (text * option handle) :=
  [(str "a", Some 1); (str "b", Some 2)].

Definition failedCloseAllEvents : list event :=
  [EvDB 1; EvClose 1; EvDB 2; EvClose 2].

(** ** Fixtures for the further properties *)

(** [sampleManager] once the client of [primary] is open. *)
Definition connectedManager : ConnectionManager :=
  cached (str "primary") (Some 7) sampleManager.

Definition r_colon : rune := 58.

(** [connectedManager] once the client of [primary] is closed. *)
Definition closedManager : ConnectionManager :=
  withConnections (delete (str "primary") (connections connectedManager))
    connectedManager.

(** An environment in which the table query fails. *)
Definition queryFails : environment :=
  {| env_DB := fun _ _ => None;
     env_Close := fun _ _ => None;
     env_ReadFile := fun _ _ => Ok scenario;
     env_Begin := fun _ _ => Some (ExternalError 8);
     env_TxExec := fun _ _ _ => None;
     env_Commit := fun _ _ => None;
     env_Exec := fun _ _ _ => None;
     env_Query := fun _ _ _ => Err (ExternalError 9) |}.

(** ** Notions for the further properties of the splitters *)

(** [x] holds a semicolon outside every quoted literal, read from the quote
    state [q]. *)
Fixpoint openSemi (q : option rune) (x : text) : bool :=
  match x with
  | [] => false
  | c :: x' =>
      match q with
      | None => (c =? r_semi) || openSemi (quoteStep None c) x'
      | Some _ => openSemi (quoteStep q c) x'
      end
  end.

(** What the scanner has read so far is consistent: the quote state is the
    one reached by the accumulator, and neither the accumulator nor a
    statement already emitted holds a semicolon outside a literal. *)
Definition cutAtSemis (s : splitter) : Prop :=
  quoteInv s /\
  quoteAfter None (currentStatement s) = quoteState s /\
  openSemi None (currentStatement s) = false /\
  Forall (fun x => openSemi None x = false) (statements s).

Definition commentedText : text :=
  str "CREATE TABLE t (id INT);
-- seed the table
INSERT INTO t VALUES (1);".

(** ** Notions for the occurrence of a literal *)

(** Two runs of the scanner that read the same text, the first with the
    accumulator [P] and the statements [sts] at the start, the second with
    the accumulator [[X]] and no statement: either both still accumulate
    the same text [x] after their start, or the first statement of each has
    been emitted, [A ++ b] in the first run and [X :: b] in the second, and
    from there on they agree. *)
Definition follows (P A : text) (X : rune) (sts : list text)
    (s r : splitter) : Prop :=
  inQuotes s = inQuotes r /\ quoteChar s = quoteChar r /\
  ((exists x,
       statements s = sts /\ currentStatement s = P ++ x /\
       statements r = [] /\ currentStatement r = X :: x) \/
   (exists b more,
       statements s = sts ++ (A ++ b) :: more /\
       statements r = (X :: b) :: more /\
       currentStatement s = currentStatement r)).

(** The scanner just after a one-character literal mark [q], outside any
    literal: the reference run for what follows a literal. *)
Definition afterMark (q : rune) : splitter :=
  {| statements := []; currentStatement := [q]; inQuotes := false;
     quoteChar := q |}.

(** A literal whose first line is dropped as a block comment, and a literal
    that follows a literal closed on a line dropped as a comment. *)
Definition droppedOpeningText : text :=
  str "/* v2 */ INSERT INTO t VALUES ('a
b;c');".

Definition droppedClosingText : text :=
  str "SELECT 'a
# x' ;
SELECT 'b;c' ;".

(** ** Notions for the ordering property on the input *)

(** [y] is [x] with some white space removed. *)
Inductive squeezed : text -> text -> Prop :=
  | squeezed_nil : squeezed [] []
  | squeezed_keep (c : rune) (x y : text) :
      squeezed x y -> squeezed (c :: x) (c :: y)
  | squeezed_drop (c : rune) (x y : text) :
      isSpace c = true -> squeezed x y -> squeezed (c :: x) y.

(** No line of the text begins, after trimming, with a comment marker. *)
Definition noCommentLine (sqlContent : text) : Prop :=
  Forall (fun line => isCommentLine (TrimSpace line) = false)
         (Split r_newline sqlContent).

Definition indentedText : text :=
  str "CREATE TABLE t (id INT);

  INSERT INTO t
    VALUES (1);
SELECT id FROM t".

Definition indentedStatements : list text :=
  [str "CREATE TABLE t (id INT)"; str "

  INSERT INTO t
    VALUES (1)"].

(** A text of several lines with literals that the two splitters read in
    the same way. *)
Definition agreedText : text :=
  str "  INSERT INTO t VALUES ('a');
DELETE FROM u
WHERE id = 1;;
SELECT 'it''s' FROM v  ".

(** * Concurrent callers

    The goroutines that call the manager at the same time.  [GetConnection],
    [RunMigration] and [RunMigrationOnce] reach the maps of the manager only
    under one of its two mutexes, so a run is an interleaving of the steps
    below: the four operations of a [sync.RWMutex], the reads and the writes
    of the maps, and the calls into the world.  The reads that a method
    makes under one hold of a mutex are one step, since no write can come
    between them.  A goroutine waits at [RLock] while the mutex is held for
    writing, and at [Lock] while it is held at all; that a [sync.RWMutex]
    also makes new readers wait behind a waiting writer is left out, so the
    model has the runs of the code and more. *)

Inductive mutex := mu | migrationMu.

(** A [sync.RWMutex]: the goroutine that holds it for writing, and the
    goroutines that hold it for reading. *)
Record rwlock := {
  writer : option nat;
  readers : list nat;
}.

Definition unlocked : rwlock := {| writer := None; readers := [] |}.

(** What the goroutines share. *)
Record world := {
  muLock : rwlock;
  migrationLock : rwlock;
  manager : ConnectionManager;
  events : list event;
}.

Definition lockOf (l : mutex) (w : world) : rwlock :=
  match l with
  | mu => muLock w
  | migrationMu => migrationLock w
  end.

Definition withLock (l : mutex) (x : rwlock) (w : world) : world :=
  match l with
  | mu =>
      {| muLock := x; migrationLock := migrationLock w;
         manager := manager w; events := events w |}
  | migrationMu =>
      {| muLock := muLock w; migrationLock := x;
         manager := manager w; events := events w |}
  end.

Definition withManager (m : ConnectionManager) (w : world) : world :=
  {| muLock := muLock w; migrationLock := migrationLock w;
     manager := m; events := events w |}.

Definition withEvents (tr : list event) (w : world) : world :=
  {| muLock := muLock w; migrationLock := migrationLock w;
     manager := manager w; events := tr |}.

(** The world of a manager that nobody is using. *)
Definition quiet (m : ConnectionManager) (tr : list event) : world :=
  {| muLock := unlocked; migrationLock := unlocked; manager := m; events := tr |}.

(** What is left to do of a method call: it has returned or panicked, or
    its next step is an operation of a mutex, a read of the manager, a write
    of the manager, or a call into the world. *)
Inductive prog (A : Type) : Type :=
  | Done (r : outcome A)
  | RLock (l : mutex) (k : prog A)
  | RUnlock (l : mutex) (k : prog A)
  | Lock (l : mutex) (k : prog A)
  | Unlock (l : mutex) (k : prog A)
  | Read (k : ConnectionManager -> prog A)
  | Update (f : ConnectionManager -> ConnectionManager) (k : prog A)
  | Call {B : Type} (answer : list event -> B) (ev : event) (k : B -> prog A).
Arguments Done {A} r.
Arguments RLock {A} l k.
Arguments RUnlock {A} l k.
Arguments Lock {A} l k.
Arguments Unlock {A} l k.
Arguments Read {A} k.
Arguments Update {A} f k.
Arguments Call {A B} answer ev k.

Definition pret {A : Type} (a : A) : prog A := Done (Returns a).

Fixpoint pbind {A B : Type} (p : prog A) (f : A -> prog B) : prog B :=
  match p with
  | Done (Returns a) => f a
  | Done Panics => Done Panics
  | RLock l k => RLock l (pbind k f)
  | RUnlock l k => RUnlock l (pbind k f)
  | Lock l k => Lock l (pbind k f)
  | Unlock l k => Unlock l (pbind k f)
  | Read k => Read (fun m => pbind (k m) f)
  | Update g k => Update g (pbind k f)
  | Call answer ev k => Call answer ev (fun b => pbind (k b) f)
  end.

Notation "x <! c ;; k" := (pbind c (fun x => k))
  (at level 100, c at next level, right associativity).

(** [defer mutex.Unlock()]: the mutex is released when the method returns
    and when it panics. *)
Fixpoint deferUnlock {A : Type} (l : mutex) (p : prog A) : prog A :=
  match p with
  | Done r => Unlock l (Done r)
  | RLock l' k => RLock l' (deferUnlock l k)
  | RUnlock l' k => RUnlock l' (deferUnlock l k)
  | Lock l' k => Lock l' (deferUnlock l k)
  | Unlock l' k => Unlock l' (deferUnlock l k)
  | Read k => Read (fun m => deferUnlock l (k m))
  | Update g k => Update g (deferUnlock l k)
  | Call answer ev k => Call answer ev (fun b => deferUnlock l (k b))
  end.

Section Goroutines.

Variable env : environment.

(** [GetConnection] with its lock operations. *)
Definition GetConnectionC (name : text) : prog (result (option handle)) :=
  RLock mu (
  Read (fun m =>
  match connConfigs m !! name with
  | None =>
      RUnlock mu (
      pret (Err (Errorf "database connection config not found for %s" [AStr name])))
  | Some config =>
      match connectionFns m !! DriverName config with
      | None =>
          RUnlock mu (
          pret (Err (Errorf "database connection function not found for driver %s"
                            [AStr (DriverName config)])))
      | Some connFn =>
          RUnlock mu (
          match connections m !! name with
          | Some conn => pret (Ok conn)
          | None =>
              Lock mu (
              Read (fun m =>
              match connections m !! name with
              | Some conn => Unlock mu (pret (Ok conn))
              | None =>
                  Call (connFn (Dsn config))
                       (EvOpen (DriverName config) (Dsn config)) (fun r =>
                  match r with
                  | Err err => Unlock mu (pret (Err err))
                  | Ok conn =>
                      Update (fun m => withConnections (<[name := conn]> (connections m)) m) (
                      Unlock mu (pret (Ok conn)))
                  end)
              end))
          end)
      end
  end)).

Fixpoint execStatementsC (tx : handle) (filePath : text) (i : nat)
    (statements : list text) : prog (option error) :=
  match statements with
  | [] => pret None
  | statement :: rest =>
      match TrimSpace statement with
      | [] => execStatementsC tx filePath (S i) rest
      | statement =>
          Call (fun tr => env_TxExec env tr tx statement)
               (EvTxExec tx statement) (fun r =>
          match r with
          | Some err =>
              pret (Some (Errorf statementFormat
                            [AInt (i + 1); AStr filePath; AErr err; AStr statement]))
          | None => execStatementsC tx filePath (S i) rest
          end)
      end
  end.

Definition TransactionC (db : handle) (fc : handle -> prog (option error))
  : prog (option error) :=
  Call (fun tr => env_Begin env tr db) (EvBegin db) (fun b =>
  match b with
  | Some err => pret (Some err)
  | None =>
      r <! fc db ;;
      match r with
      | None => Call (fun tr => env_Commit env tr db) (EvCommit db) pret
      | Some err => Call (fun _ => tt) (EvRollback db) (fun _ => pret (Some err))
      end
  end).

Definition RunMigrationC (name filePath : text) : prog (option error) :=
  r <! GetConnectionC name ;;
  match r with
  | Err err => pret (Some (Errorf "failed to get connection: %w" [AErr err]))
  | Ok db =>
      Call (fun tr => env_ReadFile env tr filePath) (EvReadFile filePath) (fun f =>
      match f with
      | Err err =>
          pret (Some (Errorf "failed to read SQL file %s: %w" [AStr filePath; AErr err]))
      | Ok sqlContent =>
          match TrimSpace sqlContent with
          | [] => pret (Some (Errorf "SQL file %s is empty" [AStr filePath]))
          | sqlString =>
              match splitSQLStatements sqlString with
              | [] =>
                  pret (Some (Errorf "no valid SQL statements found in file %s"
                                     [AStr filePath]))
              | statements =>
                  match db with
                  | None => Done Panics
                  | Some h =>
                      TransactionC h (fun tx =>
                        execStatementsC tx filePath 0 statements)
                  end
              end
          end
      end)
  end.

(** The end of [RunMigrationOnce]: the key is marked when [RunMigration]
    has returned nil. *)
Definition markExecuted (name filePath : text) (r : option error)
  : prog (option error) :=
  match r with
  | Some err => pret (Some err)
  | None => Update (marked name filePath) (pret None)
  end.

(** The part of [RunMigrationOnce] under [m.migrationMu.Lock()]. *)
Definition runUnmarked (name filePath : text) : prog (option error) :=
  Read (fun m =>
  if decide (migrationKey name filePath ∈ executedMigrations m) then pret None
  else
    r <! RunMigrationC name filePath ;;
    markExecuted name filePath r).

Definition RunMigrationOnceC (name filePath : text) : prog (option error) :=
  RLock migrationMu (
  Read (fun m =>
  RUnlock migrationMu (
  if decide (migrationKey name filePath ∈ executedMigrations m) then pret None
  else
    Lock migrationMu (deferUnlock migrationMu (runUnmarked name filePath))))).

End Goroutines.

(** ** Runs *)

Definition removeOne (i : nat) (l : list nat) : list nat :=
  match list_find (fun j => j = i) l with
  | Some (n, _) => delete n l
  | None => l
  end.

(** One step of the goroutine [i]: [None] when it has finished or when it
    waits for a mutex.  [RLock] waits while a goroutine holds the mutex for
    writing; [Lock] waits while a goroutine holds it for writing or for
    reading. *)
Definition stepThread {A : Type} (i : nat) (p : prog A) (w : world)
  : option (prog A * world) :=
  match p with
  | Done _ => None
  | RLock l k =>
      match writer (lockOf l w) with
      | None =>
          Some (k, withLock l {| writer := None; readers := i :: readers (lockOf l w) |} w)
      | Some _ => None
      end
  | RUnlock l k =>
      Some (k, withLock l {| writer := writer (lockOf l w);
                             readers := removeOne i (readers (lockOf l w)) |} w)
  | Lock l k =>
      match writer (lockOf l w), readers (lockOf l w) with
      | None, [] => Some (k, withLock l {| writer := Some i; readers := [] |} w)
      | _, _ => None
      end
  | Unlock l k =>
      Some (k, withLock l {| writer := None; readers := readers (lockOf l w) |} w)
  | Read k => Some (k (manager w), w)
  | Update f k => Some (k, withManager (f (manager w)) w)
  | Call answer ev k =>
      Some (k (answer (events w)), withEvents (events w ++ [ev]) w)
  end.

(** The goroutines of a run, and the run in which the goroutines named by
    [schedule] take one step each, in this order; a goroutine that cannot
    take a step is passed over. *)
Definition runStep {A : Type} (st : list (prog A) * world) (i : nat)
  : list (prog A) * world :=
  match st.1 !! i with
  | Some p =>
      match stepThread i p st.2 with
      | Some (p', w') => (<[i := p']> st.1, w')
      | None => st
      end
  | None => st
  end.

Definition run {A : Type} (schedule : list nat) (st : list (prog A) * world)
  : list (prog A) * world :=
  fold_left runStep schedule st.

(** The goroutine [i] alone, to the end: [None] when it waits for a mutex
    that nobody will release. *)
Fixpoint exec {A : Type} (i : nat) (p : prog A) (w : world)
  : option (outcome A * world) :=
  match p with
  | Done r => Some (r, w)
  | RLock l k =>
      match stepThread i (RLock l k) w with
      | Some (_, w') => exec i k w'
      | None => None
      end
  | RUnlock l k =>
      match stepThread i (RUnlock l k) w with
      | Some (_, w') => exec i k w'
      | None => None
      end
  | Lock l k =>
      match stepThread i (Lock l k) w with
      | Some (_, w') => exec i k w'
      | None => None
      end
  | Unlock l k =>
      match stepThread i (Unlock l k) w with
      | Some (_, w') => exec i k w'
      | None => None
      end
  | Read k => exec i (k (manager w)) w
  | Update f k => exec i k (withManager (f (manager w)) w)
  | Call answer ev k =>
      exec i (k (answer (events w))) (withEvents (events w ++ [ev]) w)
  end.

(** What a method of the sequential model leaves in a world. *)
Definition returned {A : Type} (w : world)
    (x : outcome A * ConnectionManager * list event) : outcome A * world :=
  (x.1.1, withEvents x.2 (withManager x.1.2 w)).

(** ** The points of [GetConnection] where a goroutine can be *)

Section GetConnectionStages.

Variables (name : text) (config : connDsn) (connFn : connectionFn).
Variables (conn : option handle) (tr : list event).









End GetConnectionStages.

(** ** The points of [RunMigrationOnce] where a goroutine can be *)






Section RunMigrationOnceStages.

Variable env : environment.
Variables name filePath : text.




End RunMigrationOnceStages.

(** ** Runs used as examples *)






(* ================================================================= *)
(** * Part II: properties *)

(** * Properties of the text primitives *)

Lemma TrimLeft_blank_app (l m : text) :
  blank l -> TrimLeft (l ++ m) = TrimLeft m.
Proof.
  induction 1 as [|c l Hc _ IH]; simpl; [done|]. by rewrite Hc.
Qed.

Lemma TrimLeft_blank (l : text) : blank l -> TrimLeft l = [].
Proof.
  intros H. rewrite <- (app_nil_r l). by rewrite TrimLeft_blank_app.
Qed.

Lemma TrimLeft_split (s : text) :
  exists l, blank l /\ s = l ++ TrimLeft s.
Proof.
  induction s as [|c s [l [Hl Hs]]]; simpl.
  - exists []. split; [constructor|done].
  - destruct (isSpace c) eqn:Hc.
    + exists (c :: l). split; [by constructor|]. simpl. by rewrite <- Hs.
    + exists []. split; [constructor|done].
Qed.

Lemma TrimLeft_head (s : text) :
  match TrimLeft s with [] => True | c :: _ => isSpace c = false end.
Proof.
  induction s as [|c s IH]; simpl; [done|].
  destruct (isSpace c) eqn:Hc; [done|]. by simpl.
Qed.

Lemma TrimLeft_visible (c : rune) (s : text) :
  isSpace c = false -> TrimLeft (c :: s) = c :: s.
Proof. intros H. simpl. by rewrite H. Qed.

Lemma TrimLeft_keeps_last (s : text) (c : rune) :
  isSpace c = false -> TrimLeft (s ++ [c]) = TrimLeft s ++ [c].
Proof.
  intros Hc. induction s as [|d s IH]; simpl.
  - by rewrite Hc.
  - destruct (isSpace d); [done|]. done.
Qed.

Lemma blank_rev (l : text) : blank l -> blank (rev l).
Proof. unfold blank. rewrite !Forall_forall. intros H x Hx. apply H.
  apply list_elem_of_In. apply in_rev. by apply list_elem_of_In. Qed.

Lemma TrimRight_app_blank (m r : text) :
  blank r -> TrimRight (m ++ r) = TrimRight m.
Proof.
  intros Hr. unfold TrimRight. rewrite rev_app_distr.
  rewrite TrimLeft_blank_app; [done|]. by apply blank_rev.
Qed.

Lemma TrimRight_visible (s : text) (c : rune) :
  isSpace c = false -> TrimRight (s ++ [c]) = s ++ [c].
Proof.
  intros Hc. unfold TrimRight. rewrite rev_app_distr. simpl.
  rewrite Hc. simpl. by rewrite rev_involutive.
Qed.

Lemma TrimRight_nil : TrimRight [] = [].
Proof. done. Qed.

Lemma TrimRight_split (s : text) :
  exists r, blank r /\ s = TrimRight s ++ r.
Proof.
  destruct (TrimLeft_split (rev s)) as [l [Hl Hs]].
  exists (rev l). split; [by apply blank_rev|].
  unfold TrimRight. rewrite <- rev_app_distr, <- Hs. by rewrite rev_involutive.
Qed.

Lemma TrimRight_last (s : text) :
  match rev (TrimRight s) with [] => True | c :: _ => isSpace c = false end.
Proof.
  unfold TrimRight. rewrite rev_involutive. apply TrimLeft_head.
Qed.

Lemma TrimRight_cons_visible (c : rune) (s : text) :
  isSpace c = false -> TrimRight (c :: s) = c :: TrimRight s.
Proof.
  intros Hc. unfold TrimRight. simpl.
  rewrite TrimLeft_keeps_last by done. by rewrite rev_app_distr.
Qed.

Lemma TrimSpace_tight (s : text) : tight (TrimSpace s).
Proof.
  unfold TrimSpace. split; [|apply TrimRight_last].
  pose proof (TrimLeft_head s) as H.
  destruct (TrimLeft s) as [|c m]; [done|].
  rewrite TrimRight_cons_visible by done. done.
Qed.

Lemma tight_TrimSpace (m : text) : tight m -> TrimSpace m = m.
Proof.
  intros [Hh Hl]. unfold TrimSpace.
  destruct m as [|c m]; [done|].
  rewrite TrimLeft_visible by done.
  destruct (rev (c :: m)) as [|d k] eqn:Hr.
  - apply (f_equal (@rev _)) in Hr. rewrite rev_involutive in Hr. done.
  - apply (f_equal (@rev _)) in Hr. rewrite rev_involutive in Hr. simpl in Hr.
    rewrite Hr. by apply TrimRight_visible.
Qed.

Lemma TrimSpace_idem (s : text) : TrimSpace (TrimSpace s) = TrimSpace s.
Proof. apply tight_TrimSpace, TrimSpace_tight. Qed.

Lemma TrimSpace_blank (s : text) : blank s -> TrimSpace s = [].
Proof. intros H. unfold TrimSpace. by rewrite TrimLeft_blank. Qed.

(** Blank margins do not change what [TrimSpace] returns. *)
Lemma TrimSpace_margins (l m r : text) :
  blank l -> blank r -> TrimSpace (l ++ m ++ r) = TrimSpace m.
Proof.
  intros Hl Hr. unfold TrimSpace. rewrite TrimLeft_blank_app by done.
  destruct (TrimLeft_split m) as [l' [Hl' Hm]].
  pose proof (TrimLeft_head m) as Hh.
  destruct (TrimLeft m) as [|c k] eqn:Hk.
  - rewrite app_nil_r in Hm. subst m.
    rewrite TrimLeft_blank; [done|].
    unfold blank. apply Forall_app. done.
  - rewrite Hm at 1. rewrite <- app_assoc.
    rewrite TrimLeft_blank_app by done. simpl. rewrite Hh.
    change (c :: k ++ r) with ((c :: k) ++ r).
    by rewrite TrimRight_app_blank.
Qed.

Lemma TrimSpace_split (s : text) :
  exists l r, blank l /\ blank r /\ s = l ++ TrimSpace s ++ r.
Proof.
  destruct (TrimLeft_split s) as [l [Hl Hs]].
  destruct (TrimRight_split (TrimLeft s)) as [r [Hr Hm]].
  exists l, r. split; [done|]. split; [done|].
  unfold TrimSpace. by rewrite <- Hm.
Qed.

Lemma TrimSpace_nil_blank (s : text) : TrimSpace s = [] -> blank s.
Proof.
  intros H. destruct (TrimSpace_split s) as [l [r [Hl [Hr Hs]]]].
  rewrite H in Hs. simpl in Hs. subst s. by apply Forall_app.
Qed.

(** * The splitter as a character automaton *)

Lemma quoteInv_init : quoteInv initSplitter.
Proof. intros H. discriminate H. Qed.

Lemma quoteInv_step (s : splitter) (c : rune) : quoteInv s -> quoteInv (step s c).
Proof.
  unfold quoteInv, step. intros H.
  destruct (inQuotes s) eqn:Hq; simpl.
  - destruct (c =? quoteChar s); simpl; [intros Hf; discriminate Hf|].
    rewrite Hq. done.
  - destruct (isQuote c) eqn:Hc; simpl; [done|].
    destruct (c =? r_semi); simpl; rewrite Hq; intros Hf; discriminate Hf.
Qed.

Lemma quoteInv_endLine (s : splitter) : quoteInv s -> quoteInv (endLine s).
Proof. unfold endLine. by destruct (currentStatement s). Qed.

Lemma quoteInv_flatStep (s : splitter) (c : rune) :
  quoteInv s -> quoteInv (flatStep s c).
Proof.
  unfold flatStep. destruct (c =? r_newline);
    auto using quoteInv_step, quoteInv_endLine.
Qed.

Lemma quoteInv_fold_step (l : text) (s : splitter) :
  quoteInv s -> quoteInv (fold_left step l s).
Proof.
  revert s. induction l as [|c l IH]; simpl; intros s H; [done|].
  apply IH. by apply quoteInv_step.
Qed.

Lemma quoteInv_fold_flatStep (l : text) (s : splitter) :
  quoteInv s -> quoteInv (fold_left flatStep l s).
Proof.
  revert s. induction l as [|c l IH]; simpl; intros s H; [done|].
  apply IH. by apply quoteInv_flatStep.
Qed.

(** The lookahead of the doubled-quote branch changes nothing: scanning a
    line is iterating [step]. *)
Lemma scanLine_fold_bounded (n : nat) :
  forall (runes : text) (s : splitter),
    (length runes <= n)%nat -> quoteInv s ->
    scanLine runes s = fold_left step runes s.
Proof.
  induction n as [|n IH]; intros runes s Hn Hs.
  - destruct runes; [done|]. simpl in Hn. lia.
  - destruct runes as [|c rest]; [done|].
    simpl in Hn. simpl. unfold step at 2.
    destruct (negb (inQuotes s) && ((c =? r_squote) || (c =? r_dquote))) eqn:H1.
    + unfold isQuote. rewrite H1. apply IH; [lia|].
      intros _. simpl. unfold isQuote.
      apply andb_prop in H1. tauto.
    + unfold isQuote. rewrite H1.
      destruct (inQuotes s && (c =? quoteChar s)) eqn:H2.
      * apply andb_prop in H2 as [Hq Hc]. apply N.eqb_eq in Hc. subst c.
        assert (Hl : quoteInv (leaveQuote (quoteChar s) s))
          by (intros Hf; discriminate Hf).
        destruct rest as [|next rest']; [done|].
        destruct (next =? quoteChar s) eqn:H3.
        -- apply N.eqb_eq in H3. subst next. simpl.
           unfold step at 2. simpl. rewrite (Hs Hq). simpl.
           rewrite IH; [|simpl in Hn; lia|].
           ++ f_equal. destruct s as [st cu iq qc]. simpl in *. subst iq.
              unfold WriteRune, enterQuote, leaveQuote. simpl. done.
           ++ intros _. simpl. by apply Hs.
        -- apply IH; [simpl in *; lia|done].
      * destruct (negb (inQuotes s) && (c =? r_semi)) eqn:H4.
        -- apply IH; [lia|]. intros Hq. apply Hs. done.
        -- apply IH; [lia|]. intros Hq. apply Hs. done.
Qed.

Lemma scanLine_fold (runes : text) (s : splitter) :
  quoteInv s -> scanLine runes s = fold_left step runes s.
Proof. by apply (scanLine_fold_bounded (length runes)). Qed.

Lemma fold_flatStep_line (l : text) (s : splitter) :
  noRune r_newline l -> fold_left flatStep l s = fold_left step l s.
Proof.
  intros H. revert s. induction H as [|c l Hc _ IH]; intros s; simpl; [done|].
  unfold flatStep at 2. apply N.eqb_neq in Hc. rewrite Hc. apply IH.
Qed.

(** ** From the lines of the source to the text that is scanned *)

Lemma processLine_kept (s : splitter) (line : text) :
  processLine s line =
  if keptLine (TrimSpace line) then scanKept s (TrimSpace line) else s.
Proof.
  unfold processLine, keptLine, scanKept, endLine.
  destruct (isCommentLine (TrimSpace line)); simpl; [done|].
  destruct (TrimSpace line); done.
Qed.

Lemma fold_processLine (ls : list text) (s : splitter) :
  fold_left processLine ls s =
  fold_left scanKept (filter (fun l => keptLine l = true) (map TrimSpace ls)) s.
Proof.
  revert s. induction ls as [|l ls IH]; intros s; [done|].
  simpl. rewrite processLine_kept, IH.
  rewrite filter_cons. destruct (decide (keptLine (TrimSpace l) = true)) as [H|H].
  - rewrite H. done.
  - apply not_true_is_false in H. rewrite H. done.
Qed.

Lemma quoteInv_scanKept (s : splitter) (l : text) :
  quoteInv s -> quoteInv (scanKept s l).
Proof.
  intros H. unfold scanKept. apply quoteInv_endLine.
  rewrite scanLine_fold by done. by apply quoteInv_fold_step.
Qed.

Lemma scanKept_flat (s : splitter) (l : text) :
  quoteInv s -> noRune r_newline l ->
  scanKept s l = fold_left flatStep (l ++ [r_newline]) s.
Proof.
  intros Hs Hl. rewrite fold_left_app. simpl.
  unfold flatStep at 1. simpl. rewrite fold_flatStep_line by done.
  unfold scanKept. by rewrite scanLine_fold.
Qed.

Lemma fold_scanKept_flat (ls : list text) (s : splitter) :
  quoteInv s -> Forall (noRune r_newline) ls -> ls <> [] ->
  fold_left scanKept ls s = endLine (fold_left flatStep (joinLines ls) s).
Proof.
  intros Hs Hls. revert s Hs. induction Hls as [|l ls Hl Hls IH]; intros s Hs Hne; [done|].
  destruct ls as [|l2 ls].
  - simpl. unfold scanKept. rewrite scanLine_fold by done.
    by rewrite fold_flatStep_line.
  - change (joinLines (l :: l2 :: ls)) with (l ++ r_newline :: joinLines (l2 :: ls)).
    change (fold_left scanKept (l :: l2 :: ls) s)
      with (fold_left scanKept (l2 :: ls) (scanKept s l)).
    rewrite IH; [|by apply quoteInv_scanKept|done].
    rewrite (scanKept_flat s l) by done.
    rewrite fold_left_app. rewrite fold_left_app. simpl. done.
Qed.

Lemma Split_not_nil (sep : rune) (s : text) : Split sep s <> [].
Proof.
  destruct s as [|c s]; simpl; [done|].
  destruct (c =? sep); [done|]. by destruct (Split sep s).
Qed.

Lemma Split_noRune (sep : rune) (s : text) : Forall (noRune sep) (Split sep s).
Proof.
  induction s as [|c s IH]; simpl.
  - repeat constructor.
  - destruct (c =? sep) eqn:Hc.
    + constructor; [constructor|done].
    + apply N.eqb_neq in Hc.
      destruct (Split sep s) as [|p ps]; [repeat constructor; done|].
      inversion IH; subst. constructor; [|done]. by constructor.
Qed.

Lemma TrimLeft_noRune (c : rune) (s : text) : noRune c s -> noRune c (TrimLeft s).
Proof.
  induction 1 as [|d s Hd Hs IH]; simpl; [constructor|].
  destruct (isSpace d); [done|]. by constructor.
Qed.

Lemma noRune_rev (c : rune) (s : text) : noRune c s -> noRune c (rev s).
Proof.
  unfold noRune. rewrite !Forall_forall. intros H x Hx. apply H.
  apply list_elem_of_In, in_rev. by apply list_elem_of_In.
Qed.

Lemma TrimSpace_noRune (c : rune) (s : text) : noRune c s -> noRune c (TrimSpace s).
Proof.
  intros H. unfold TrimSpace, TrimRight.
  by apply noRune_rev, TrimLeft_noRune, noRune_rev, TrimLeft_noRune.
Qed.

Lemma scannedLines_noRune (t : text) : Forall (noRune r_newline) (scannedLines t).
Proof.
  unfold scannedLines. apply Forall_forall. intros l Hl.
  apply list_elem_of_filter in Hl as [_ Hl].
  apply list_elem_of_In, in_map_iff in Hl as [l0 [<- Hl0]].
  apply TrimSpace_noRune.
  pose proof (Split_noRune r_newline t) as H.
  rewrite Forall_forall in H. apply H. by apply list_elem_of_In.
Qed.

Lemma TrimSpace_snoc_blank (s : text) (c : rune) :
  isSpace c = true -> TrimSpace (s ++ [c]) = TrimSpace s.
Proof.
  intros Hc. rewrite <- (TrimSpace_margins [] s [c]); [done|constructor|].
  by repeat constructor.
Qed.

Lemma lastStatement_endLine (s : splitter) :
  lastStatement (endLine s) = lastStatement s.
Proof.
  destruct s as [st cu iq qc]. unfold endLine, lastStatement. simpl.
  destruct cu as [|c k]; [done|]. simpl currentStatement.
  change (c :: k ++ [r_newline]) with ((c :: k) ++ [r_newline]).
  rewrite TrimSpace_snoc_blank by done. simpl. done.
Qed.

(** The splitter is the character automaton run on the scanned text. *)
Lemma splitSQLStatements_flat (sqlContent : text) :
  splitSQLStatements sqlContent =
  lastStatement (fold_left flatStep (scannedText sqlContent) initSplitter).
Proof.
  unfold splitSQLStatements, scannedText. rewrite fold_processLine.
  fold (scannedLines sqlContent).
  destruct (scannedLines sqlContent) as [|l ls] eqn:Hl; [done|].
  rewrite fold_scanKept_flat; [|apply quoteInv_init| |done].
  - apply lastStatement_endLine.
  - rewrite <- Hl. apply scannedLines_noRune.
Qed.

(** ** Quote tracking and accumulation, read off the automaton *)

Lemma isQuote_not_newline (k : rune) : isQuote k = true -> (r_newline =? k) = false.
Proof.
  unfold isQuote. intros H. apply orb_prop in H as [H|H];
    apply N.eqb_eq in H; by subst k.
Qed.

Lemma flatStep_quoteState (s : splitter) (c : rune) :
  quoteInv s -> quoteState (flatStep s c) = quoteStep (quoteState s) c.
Proof.
  intros Hs. unfold flatStep, quoteState.
  destruct (c =? r_newline) eqn:Hn.
  - apply N.eqb_eq in Hn. subst c. unfold endLine.
    assert (Hq : quoteState
      (match currentStatement s with [] => s | _ :: _ => WriteRune r_newline s end)
      = quoteState s) by (by destruct (currentStatement s)).
    unfold quoteState in Hq. rewrite Hq.
    destruct (inQuotes s) eqn:Hi; [|done].
    unfold quoteStep. by rewrite (isQuote_not_newline _ (Hs Hi)).
  - unfold step. destruct (inQuotes s) eqn:Hi; simpl.
    + destruct (c =? quoteChar s); simpl; [done|]. by rewrite Hi.
    + destruct (isQuote c) eqn:Hc; simpl; [done|].
      destruct (c =? r_semi); simpl; by rewrite Hi.
Qed.

Lemma fold_flatStep_quoteState (seg : text) (s : splitter) :
  quoteInv s ->
  quoteState (fold_left flatStep seg s) = quoteAfter (quoteState s) seg.
Proof.
  revert s. induction seg as [|c seg IH]; intros s Hs; [done|].
  simpl. rewrite IH by (by apply quoteInv_flatStep).
  by rewrite flatStep_quoteState.
Qed.

(** A character that does not end a statement only reaches the accumulator. *)
Lemma flatStep_keeps (s : splitter) (c : rune) :
  (c <> r_semi \/ inQuotes s = true) ->
  statements (flatStep s c) = statements s /\
  currentStatement (flatStep s c) = keepRune (currentStatement s) c.
Proof.
  intros Hc. unfold flatStep, keepRune.
  destruct (c =? r_newline) eqn:Hn.
  - apply N.eqb_eq in Hn. subst c. destruct s as [st cu iq qc].
    unfold endLine. simpl. by destruct cu.
  - unfold step. destruct (inQuotes s) eqn:Hi; simpl.
    + by destruct (c =? quoteChar s).
    + destruct (isQuote c); simpl; [done|].
      destruct (c =? r_semi) eqn:Hsemi; simpl; [|done].
      apply N.eqb_eq in Hsemi. destruct Hc as [Hc|Hc]; done.
Qed.

Lemma flat_segment (seg : text) (s : splitter) :
  noRune r_semi seg ->
  statements (fold_left flatStep seg s) = statements s /\
  currentStatement (fold_left flatStep seg s) = accumulate (currentStatement s) seg.
Proof.
  intros H. revert s. induction H as [|c seg Hc _ IH]; intros s; [done|].
  simpl. destruct (IH (flatStep s c)) as [H1 H2].
  destruct (flatStep_keeps s c) as [H3 H4]; [by left|].
  rewrite H1, H2, H3, H4. done.
Qed.

Lemma accumulate_from_visible (cur seg : text) :
  cur <> [] -> accumulate cur seg = cur ++ seg.
Proof.
  revert cur. induction seg as [|c seg IH]; intros cur Hcur; simpl.
  - by rewrite app_nil_r.
  - unfold accumulate in *. simpl.
    assert (Hk : keepRune cur c = cur ++ [c]).
    { unfold keepRune. destruct (c =? r_newline); [|done]. by destruct cur. }
    rewrite Hk. rewrite IH; [|by destruct cur].
    by rewrite <- app_assoc.
Qed.

Lemma accumulate_from_nil (seg : text) :
  exists l, blank l /\ seg = l ++ accumulate [] seg.
Proof.
  induction seg as [|c seg [l [Hl Hseg]]].
  - exists []. split; [constructor|done].
  - unfold accumulate. simpl. unfold keepRune at 2.
    destruct (c =? r_newline) eqn:Hn.
    + apply N.eqb_eq in Hn. subst c. exists (r_newline :: l).
      split; [by constructor|]. simpl. f_equal. exact Hseg.
    + exists []. split; [constructor|]. simpl.
      fold (accumulate [c] seg). by rewrite accumulate_from_visible.
Qed.

Lemma TrimSpace_accumulate (seg : text) :
  TrimSpace (accumulate [] seg) = TrimSpace seg.
Proof.
  destruct (accumulate_from_nil seg) as [l [Hl Hseg]].
  rewrite Hseg at 2.
  rewrite <- (app_nil_r (accumulate [] seg)) at 2.
  rewrite TrimSpace_margins; [done|done|constructor].
Qed.

(** ** Statements separated by semicolons *)

Lemma quoteState_None (s : splitter) : quoteState s = None -> inQuotes s = false.
Proof. unfold quoteState. by destruct (inQuotes s). Qed.

Lemma quoteState_outside (s : splitter) : inQuotes s = false -> quoteState s = None.
Proof. unfold quoteState. by intros ->. Qed.

Lemma flatStep_semi_outside (s : splitter) :
  inQuotes s = false -> flatStep s r_semi = endStatement s.
Proof.
  intros H. unfold flatStep, step. rewrite H. done.
Qed.

Lemma flat_one_statement (x : text) (s : splitter) :
  quoteInv s -> inQuotes s = false -> currentStatement s = [] ->
  plainStatement x ->
  let s' := fold_left flatStep (x ++ [r_semi]) s in
  statements s' = statements s ++ [TrimSpace x] /\
  currentStatement s' = [] /\ inQuotes s' = false /\ quoteInv s'.
Proof.
  intros Hs Hq Hcur (Hsemi & Hbal & Hvis). simpl.
  rewrite fold_left_app. simpl.
  set (s1 := fold_left flatStep x s).
  assert (Hq1 : inQuotes s1 = false).
  { apply quoteState_None. unfold s1.
    rewrite fold_flatStep_quoteState by done.
    by rewrite quoteState_outside. }
  destruct (flat_segment x s Hsemi) as [Hst Hcu]. fold s1 in Hst, Hcu.
  rewrite flatStep_semi_outside by done.
  unfold endStatement. simpl.
  rewrite Hcu, Hcur, TrimSpace_accumulate, Hst.
  split; [|split; [done|split; [done|]]].
  - by destruct (TrimSpace x).
  - intros Hf. simpl in Hf. congruence.
Qed.

Lemma flat_statements (stmts : list text) :
  forall s : splitter,
    quoteInv s -> inQuotes s = false -> currentStatement s = [] ->
    Forall plainStatement stmts ->
    let s' := fold_left flatStep (terminated stmts) s in
    statements s' = statements s ++ map TrimSpace stmts /\
    currentStatement s' = [] /\ inQuotes s' = false /\ quoteInv s'.
Proof.
  induction stmts as [|x stmts IH]; intros s Hs Hq Hcur Hall; simpl.
  - by rewrite app_nil_r.
  - inversion Hall as [|? ? Hx Hrest]; subst.
    unfold terminated. simpl. rewrite fold_left_app.
    destruct (flat_one_statement x s Hs Hq Hcur Hx) as (H1 & H2 & H3 & H4).
    destruct (IH _ H4 H3 H2 Hrest) as (H5 & H6 & H7 & H8).
    unfold terminated in *. rewrite H5, H1, <- app_assoc. done.
Qed.

Lemma lastStatement_trailing (rest : text) (s : splitter) :
  currentStatement s = [] -> noRune r_semi rest ->
  lastStatement (fold_left flatStep rest s) = statements s ++ trailing rest.
Proof.
  intros Hcur Hrest. destruct (flat_segment rest s Hrest) as [Hst Hcu].
  unfold lastStatement, trailing. rewrite Hst, Hcu, Hcur.
  rewrite <- (TrimSpace_accumulate rest).
  destruct (accumulate [] rest) as [|c k]; [by rewrite app_nil_r|].
  destruct (TrimSpace (c :: k)); [by rewrite app_nil_r|done].
Qed.

Lemma emitted_TrimSpace (x : text) : TrimSpace x <> [] -> emitted (TrimSpace x).
Proof. intros H. split; [done|apply TrimSpace_idem]. Qed.

Lemma endStatement_emitted (s : splitter) :
  Forall emitted (statements s) -> Forall emitted (statements (endStatement s)).
Proof.
  intros H. unfold endStatement. simpl.
  destruct (TrimSpace (currentStatement s)) as [|c k] eqn:Hk; [done|].
  apply Forall_app. split; [done|]. constructor; [|constructor].
  rewrite <- Hk. apply emitted_TrimSpace. by rewrite Hk.
Qed.

Lemma flatStep_emitted (s : splitter) (c : rune) :
  Forall emitted (statements s) -> Forall emitted (statements (flatStep s c)).
Proof.
  intros H. unfold flatStep.
  destruct (c =? r_newline).
  - unfold endLine. by destruct (currentStatement s).
  - unfold step.
    destruct (negb (inQuotes s) && isQuote c); [done|].
    destruct (inQuotes s && (c =? quoteChar s)); [done|].
    destruct (negb (inQuotes s) && (c =? r_semi)); [|done].
    by apply endStatement_emitted.
Qed.

Lemma fold_flatStep_emitted (l : text) (s : splitter) :
  Forall emitted (statements s) ->
  Forall emitted (statements (fold_left flatStep l s)).
Proof.
  revert s. induction l as [|c l IH]; intros s H; [done|].
  simpl. apply IH. by apply flatStep_emitted.
Qed.

Lemma lastStatement_emitted (s : splitter) :
  Forall emitted (statements s) -> Forall emitted (lastStatement s).
Proof.
  intros H. unfold lastStatement.
  destruct (currentStatement s) as [|c k]; [done|].
  destruct (TrimSpace (c :: k)) as [|d m] eqn:Hk; [done|].
  apply Forall_app. split; [done|]. constructor; [|constructor].
  rewrite <- Hk. apply emitted_TrimSpace. by rewrite Hk.
Qed.

Lemma splitSQLStatements_emitted (sqlContent : text) :
  Forall emitted (splitSQLStatements sqlContent).
Proof.
  rewrite splitSQLStatements_flat.
  apply lastStatement_emitted, fold_flatStep_emitted. constructor.
Qed.

(** ** Quoted literals pass through the scanner *)

Lemma isQuote_not_space (q : rune) : isQuote q = true -> isSpace q = false.
Proof.
  unfold isQuote. intros H. apply orb_prop in H as [H|H];
    apply N.eqb_eq in H; by subst q.
Qed.

Lemma isQuote_not_semi (q : rune) : isQuote q = true -> (q =? r_semi) = false.
Proof.
  unfold isQuote. intros H. apply orb_prop in H as [H|H];
    apply N.eqb_eq in H; by subst q.
Qed.

Lemma isQuote_neq_newline (q : rune) : isQuote q = true -> (q =? r_newline) = false.
Proof.
  unfold isQuote. intros H. apply orb_prop in H as [H|H];
    apply N.eqb_eq in H; by subst q.
Qed.

Lemma step_inside_other (s : splitter) (c : rune) :
  inQuotes s = true -> c <> quoteChar s -> step s c = WriteRune c s.
Proof.
  intros Hq Hc. unfold step. rewrite Hq. simpl.
  apply N.eqb_neq in Hc. by rewrite Hc.
Qed.

Lemma step_inside_quote (s : splitter) :
  inQuotes s = true -> step s (quoteChar s) = leaveQuote (quoteChar s) s.
Proof.
  intros Hq. unfold step. rewrite Hq. simpl. by rewrite N.eqb_refl.
Qed.

Lemma step_outside_quote (s : splitter) (q : rune) :
  inQuotes s = false -> isQuote q = true -> step s q = enterQuote q s.
Proof. intros Hq Hc. unfold step. by rewrite Hq, Hc. Qed.

Section Literal.

(** The scanner of a line ([step]) and the scanner of the text ([flatStep])
    agree wherever a literal is read. *)
Variable f : splitter -> rune -> splitter.
Hypothesis f_visible : forall s c, c <> r_newline -> f s c = step s c.
Hypothesis f_newline :
  forall s, quoteInv s -> currentStatement s <> [] ->
            f s r_newline = WriteRune r_newline s.

Lemma f_inside_other (s : splitter) (c : rune) :
  inQuotes s = true -> isQuote (quoteChar s) = true ->
  c <> quoteChar s -> currentStatement s <> [] ->
  f s c = WriteRune c s.
Proof.
  intros Hq Hk Hc Hcur. destruct (decide (c = r_newline)) as [->|Hn].
  - apply f_newline; [|done]. by intros _.
  - rewrite f_visible by done. by apply step_inside_other.
Qed.

Lemma fold_literalBody (q : rune) (body : text) :
  literalBody q body -> isQuote q = true ->
  forall s : splitter,
    inQuotes s = true -> quoteChar s = q -> currentStatement s <> [] ->
    let s' := fold_left f body s in
    statements s' = statements s /\
    currentStatement s' = currentStatement s ++ body /\
    inQuotes s' = true /\ quoteChar s' = q.
Proof.
  intros Hbody Hquote.
  induction Hbody as [|c body Hc _ IH|body _ IH]; intros s Hq Hk Hcur; simpl.
  - by rewrite app_nil_r.
  - rewrite f_inside_other; [|done|by rewrite Hk|by rewrite Hk|done].
    destruct (IH (WriteRune c s)) as (H1 & H2 & H3 & H4); simpl; try done.
    + by destruct (currentStatement s).
    + rewrite H1, H2, H3, H4. simpl. by rewrite <- app_assoc.
  - assert (Hn : q <> r_newline).
    { apply N.eqb_neq. by apply isQuote_neq_newline. }
    rewrite !f_visible by done. subst q.
    rewrite step_inside_quote by done.
    rewrite step_outside_quote by done.
    destruct (IH (enterQuote (quoteChar s) (leaveQuote (quoteChar s) s)))
      as (H1 & H2 & H3 & H4); simpl; try done.
    + by destruct (currentStatement s).
    + rewrite H1, H2, H3, H4. simpl. by rewrite <- !app_assoc.
Qed.

Lemma fold_literal (q : rune) (body : text) (s : splitter) :
  literalBody q body -> isQuote q = true -> inQuotes s = false ->
  fold_left f (literal q body) s =
  {| statements := statements s;
     currentStatement := currentStatement s ++ literal q body;
     inQuotes := false;
     quoteChar := q |}.
Proof.
  intros Hbody Hquote Hq. unfold literal. simpl.
  assert (Hn : q <> r_newline).
  { apply N.eqb_neq. by apply isQuote_neq_newline. }
  rewrite f_visible by done. rewrite step_outside_quote by done.
  rewrite fold_left_app. simpl.
  destruct (fold_literalBody q body Hbody Hquote (enterQuote q s))
    as (H1 & H2 & H3 & H4); simpl; try done.
  { by destruct (currentStatement s). }
  set (s2 := fold_left f body (enterQuote q s)) in *.
  rewrite f_visible by done. rewrite <- H4 at 1.
  rewrite step_inside_quote by done.
  unfold leaveQuote. rewrite H1, H2, H4. simpl.
  f_equal. rewrite <- !app_assoc. done.
Qed.

End Literal.

Lemma flatStep_visible (s : splitter) (c : rune) :
  c <> r_newline -> flatStep s c = step s c.
Proof. intros H. unfold flatStep. apply N.eqb_neq in H. by rewrite H. Qed.

Lemma flatStep_newline (s : splitter) :
  quoteInv s -> currentStatement s <> [] ->
  flatStep s r_newline = WriteRune r_newline s.
Proof.
  intros _ H. unfold flatStep, endLine. simpl. by destruct (currentStatement s).
Qed.

Lemma step_newline (s : splitter) :
  quoteInv s -> step s r_newline = WriteRune r_newline s.
Proof.
  intros Hs. unfold step. destruct (inQuotes s) eqn:Hq; [|done].
  cbn [negb andb]. by rewrite (isQuote_not_newline _ (Hs Hq)).
Qed.

Ltac reassoc :=
  repeat (rewrite <- ?app_assoc; simpl); reflexivity.

Lemma TrimLeft_app_visible (a : text) (c : rune) (m : text) :
  isSpace c = false -> TrimLeft (a ++ c :: m) = TrimLeft a ++ c :: m.
Proof.
  intros Hc. induction a as [|d a IH]; simpl.
  - by rewrite Hc.
  - by destruct (isSpace d).
Qed.

Lemma TrimRight_app_visible (m : text) (d : rune) (b : text) :
  isSpace d = false -> TrimRight (m ++ d :: b) = m ++ d :: TrimRight b.
Proof.
  intros Hd. unfold TrimRight.
  rewrite rev_app_distr. simpl. rewrite <- app_assoc. simpl.
  rewrite TrimLeft_app_visible by done.
  rewrite rev_app_distr. simpl. rewrite rev_involutive, <- app_assoc. done.
Qed.

(** Trimming does not reach into a piece that has a visible character at
    both ends. *)
Lemma within_TrimSpace (c d : rune) (mid x : text) :
  isSpace c = false -> isSpace d = false ->
  within (c :: mid ++ [d]) x -> within (c :: mid ++ [d]) (TrimSpace x).
Proof.
  intros Hc Hd (a & b & ->). unfold TrimSpace.
  change (a ++ (c :: mid ++ [d]) ++ b) with (a ++ c :: ((mid ++ [d]) ++ b)).
  rewrite TrimLeft_app_visible by done.
  replace (TrimLeft a ++ c :: (mid ++ [d]) ++ b)
    with ((TrimLeft a ++ c :: mid) ++ d :: b)
    by reassoc.
  rewrite TrimRight_app_visible by done.
  exists (TrimLeft a), (TrimRight b). reassoc.
Qed.

Lemma within_app_r (lit x y : text) : within lit x -> within lit (x ++ y).
Proof.
  intros (a & b & ->). exists a, (b ++ y). by rewrite <- !app_assoc.
Qed.

Lemma within_not_nil (c : rune) (m x : text) : within (c :: m) x -> x <> [].
Proof. intros (a & b & ->). by destruct a. Qed.

Section Carried.

Variables (c d : rune) (mid : text).
Hypothesis c_visible : isSpace c = false.
Hypothesis d_visible : isSpace d = false.

Let lit : text := c :: mid ++ [d].

Lemma carries_endStatement (s : splitter) :
  carries lit s -> carries lit (endStatement s).
Proof.
  intros [H|H]; right; unfold endStatement; simpl.
  - apply within_TrimSpace in H; [|done|done].
    pose proof (within_not_nil _ _ _ H) as Hne.
    destruct (TrimSpace (currentStatement s)) as [|e k]; [done|].
    apply Exists_app. right. by constructor.
  - destruct (TrimSpace (currentStatement s)); [done|].
    apply Exists_app. by left.
Qed.

Lemma carries_append (s s' : splitter) (e : rune) :
  statements s' = statements s ->
  currentStatement s' = currentStatement s ++ [e] ->
  carries lit s -> carries lit s'.
Proof.
  intros Hst Hcu [H|H]; [left|right].
  - rewrite Hcu. by apply within_app_r.
  - by rewrite Hst.
Qed.

Lemma carries_flatStep (s : splitter) (e : rune) :
  carries lit s -> carries lit (flatStep s e).
Proof.
  intros H. unfold flatStep. destruct (e =? r_newline).
  - unfold endLine. destruct (currentStatement s) eqn:Hk; [done|].
    apply (carries_append s _ r_newline); [done|done|done].
  - unfold step.
    destruct (negb (inQuotes s) && isQuote e);
      [by apply (carries_append s _ e)|].
    destruct (inQuotes s && (e =? quoteChar s));
      [by apply (carries_append s _ e)|].
    destruct (negb (inQuotes s) && (e =? r_semi));
      [by apply carries_endStatement|by apply (carries_append s _ e)].
Qed.

Lemma carries_fold_flatStep (l : text) (s : splitter) :
  carries lit s -> carries lit (fold_left flatStep l s).
Proof.
  revert s. induction l as [|e l IH]; intros s H; [done|].
  simpl. by apply IH, carries_flatStep.
Qed.

Lemma carries_lastStatement (s : splitter) :
  carries lit s -> Exists (within lit) (lastStatement s).
Proof.
  intros [H|H]; unfold lastStatement.
  - pose proof (within_not_nil _ _ _ H) as Hne.
    apply within_TrimSpace in H; [|done|done].
    pose proof (within_not_nil _ _ _ H) as Hne'.
    destruct (currentStatement s) as [|e k]; [done|].
    destruct (TrimSpace (e :: k)) as [|e' k']; [done|].
    apply Exists_app. right. by constructor.
  - destruct (currentStatement s) as [|e k]; [done|].
    destruct (TrimSpace (e :: k)); [done|].
    apply Exists_app. by left.
Qed.

End Carried.

Lemma quoteInv_outside (s : splitter) : inQuotes s = false -> quoteInv s.
Proof. intros H Hf. congruence. Qed.

Lemma TrimSpace_cons_visible (X : rune) (x : text) :
  isSpace X = false -> TrimSpace (X :: x) = X :: TrimRight x.
Proof.
  intros HX. unfold TrimSpace. rewrite TrimLeft_visible by done.
  by rewrite TrimRight_cons_visible.
Qed.

Lemma TrimSpace_after_literal (c0 : text) (q : rune) (body x : text) :
  isQuote q = true ->
  TrimSpace ((c0 ++ literal q body) ++ x) =
  (TrimLeft c0 ++ literal q body) ++ TrimRight x.
Proof.
  intros Hq. apply isQuote_not_space in Hq. unfold TrimSpace, literal.
  replace ((c0 ++ q :: body ++ [q]) ++ x) with (c0 ++ q :: (body ++ [q] ++ x))
    by reassoc.
  rewrite TrimLeft_app_visible by done.
  replace (TrimLeft c0 ++ q :: body ++ [q] ++ x)
    with ((TrimLeft c0 ++ q :: body) ++ q :: x) by reassoc.
  rewrite TrimRight_app_visible by done. reassoc.
Qed.

Lemma keepRune_visible (cur : text) (c : rune) :
  cur <> [] -> keepRune cur c = cur ++ [c].
Proof.
  intros H. unfold keepRune. destruct (c =? r_newline); [|done].
  by destruct cur.
Qed.

(** The quote state after a character does not depend on the accumulator
    or on the statements. *)
Lemma flatStep_flags (s r : splitter) (c : rune) :
  inQuotes s = inQuotes r -> quoteChar s = quoteChar r ->
  inQuotes (flatStep s c) = inQuotes (flatStep r c) /\
  quoteChar (flatStep s c) = quoteChar (flatStep r c).
Proof.
  intros Hi Hk. unfold flatStep, endLine, step. rewrite Hi, Hk.
  destruct (c =? r_newline).
  - by destruct (currentStatement s), (currentStatement r).
  - destruct (negb (inQuotes r) && isQuote c); [done|].
    destruct (inQuotes r && (c =? quoteChar r)); [done|].
    destruct (negb (inQuotes r) && (c =? r_semi)); done.
Qed.

Section AfterLiteral.

Variables (P A : text) (X : rune) (sts : list text).
Hypothesis X_visible : isSpace X = false.
Hypothesis P_visible : P <> [].
Hypothesis A_visible : A <> [].
Hypothesis P_trimmed : forall x, TrimSpace (P ++ x) = A ++ TrimRight x.

Lemma follows_flatStep (s r : splitter) (c : rune) :
  follows P A X sts s r -> follows P A X sts (flatStep s c) (flatStep r c).
Proof.
  intros (Hi & Hk & Hphase).
  destruct (flatStep_flags s r c Hi Hk) as [Hi' Hk'].
  split; [done|]. split; [done|].
  destruct (decide (c = r_semi /\ inQuotes s = false)) as [[-> Hout]|Hkeep].
  - rewrite (flatStep_semi_outside s) by done.
    rewrite (flatStep_semi_outside r) by congruence.
    unfold endStatement. simpl. right.
    destruct Hphase as [(x & H1 & H2 & H3 & H4)|(b & more & H1 & H2 & H3)].
    + exists (TrimRight x), []. rewrite H1, H2, H3, H4, P_trimmed.
      rewrite TrimSpace_cons_visible by done.
      split; [|done]. destruct (A ++ TrimRight x) eqn:HA; [|done].
      apply app_eq_nil in HA as [HA _]. done.
    + rewrite H1, H2, H3.
      destruct (TrimSpace (currentStatement r)) as [|e k].
      * by exists b, more.
      * exists b, (more ++ [e :: k]). split; [|done].
        by rewrite <- app_assoc.
  - assert (Hc : c <> r_semi \/ inQuotes s = true).
    { destruct (decide (c = r_semi)) as [->|]; [|by left].
      right. destruct (inQuotes s); [done|]. exfalso. by apply Hkeep. }
    destruct (flatStep_keeps s c Hc) as [Hs1 Hs2].
    destruct (flatStep_keeps r c) as [Hr1 Hr2]; [by rewrite <- Hi|].
    rewrite Hs1, Hs2, Hr1, Hr2.
    destruct Hphase as [(x & H1 & H2 & H3 & H4)|(b & more & H1 & H2 & H3)].
    + left. exists (x ++ [c]). rewrite H2, H4.
      rewrite !keepRune_visible; [|done|by destruct P].
      split; [done|]. split; [by rewrite <- app_assoc|done].
    + right. exists b, more. by rewrite H3.
Qed.

Lemma follows_fold (l : text) :
  forall s r : splitter,
    follows P A X sts s r ->
    follows P A X sts (fold_left flatStep l s) (fold_left flatStep l r).
Proof.
  induction l as [|c l IH]; intros s r H; [done|].
  simpl. by apply IH, follows_flatStep.
Qed.

Lemma follows_lastStatement (s r : splitter) :
  follows P A X sts s r ->
  exists b after,
    lastStatement r = (X :: b) :: after /\
    lastStatement s = sts ++ (A ++ b) :: after.
Proof.
  intros (_ & _ & [(x & H1 & H2 & H3 & H4)|(b & more & H1 & H2 & H3)]);
    unfold lastStatement.
  - exists (TrimRight x), []. rewrite H1, H2, H3, H4.
    rewrite P_trimmed, TrimSpace_cons_visible by done.
    split; [done|].
    destruct (P ++ x) eqn:HP; [by apply app_eq_nil in HP as [? _]|].
    destruct (A ++ TrimRight x) eqn:HA; [by apply app_eq_nil in HA as [? _]|].
    done.
  - rewrite H1, H2, H3.
    destruct (currentStatement r) as [|e k]; [by exists b, more|].
    destruct (TrimSpace (e :: k)) as [|e' k']; [by exists b, more|].
    exists b, (more ++ [e' :: k']). split; [done|]. by rewrite <- app_assoc.
Qed.

End AfterLiteral.

(** C1, the claim as stated, fails.  In the first text the literal opens on
    a line that begins with a block comment: the line is dropped, its
    second line is read outside any literal and the semicolon between [b]
    and [c] ends a statement.  In the second text the literal ['b;c'] stands
    whole on a line that is read, but the quote that closes the literal
    before it stands on a line dropped as a comment, so the scanner is
    inside a literal when it reaches ['b;c'] and outside when it reaches its
    semicolon.  In both, no returned statement holds the literal. *)
Lemma quoted_semicolon_counterexample :
  (droppedOpeningText =
     str "/* v2 */ INSERT INTO t VALUES (" ++ literal r_squote (str "a
b;c") ++ str ");" /\
   balanced (str "/* v2 */ INSERT INTO t VALUES (") /\
   literalBody r_squote (str "a
b;c") /\
   splitSQLStatements droppedOpeningText = [str "b"; str "c');"] /\
   Forall (fun x => ~ within (literal r_squote (str "a
b;c")) x) (splitSQLStatements droppedOpeningText)) /\
  (droppedClosingText =
     str "SELECT 'a
# x' ;
SELECT " ++ literal r_squote (str "b;c") ++ str " ;" /\
   balanced (str "SELECT 'a
# x' ;
SELECT ") /\
   literalBody r_squote (str "b;c") /\
   splitSQLStatements droppedClosingText = [str "SELECT 'a
SELECT 'b"; str "c' ;"] /\
   Forall (fun x => ~ within (literal r_squote (str "b;c")) x)
          (splitSQLStatements droppedClosingText)).
Proof.
  assert (Hshort : forall lit x : text,
             (length x < length lit)%nat -> ~ within lit x).
  { intros lit x Hlen (a & b & ->). rewrite !length_app in Hlen. lia. }
  assert (Hsemi : forall body x : text,
             In r_semi body -> ~ In r_semi x ->
             ~ within (literal r_squote body) x).
  { intros body x Hbody Hx (a & b & ->). apply Hx.
    apply in_or_app. right. apply in_or_app. left.
    unfold literal. right. apply in_or_app. by left. }
  split.
  - split; [vm_compute; reflexivity|]. split; [vm_compute; reflexivity|].
    split; [repeat (first [apply body_nil | apply body_char; [discriminate|]])|].
    split; [vm_compute; reflexivity|].
    replace (splitSQLStatements droppedOpeningText) with [str "b"; str "c');"]
      by (vm_compute; reflexivity).
    repeat constructor; apply Hshort; vm_compute; lia.
  - split; [vm_compute; reflexivity|]. split; [vm_compute; reflexivity|].
    split; [repeat (first [apply body_nil | apply body_char; [discriminate|]])|].
    split; [vm_compute; reflexivity|].
    replace (splitSQLStatements droppedClosingText)
      with [str "SELECT 'a
SELECT 'b"; str "c' ;"] by (vm_compute; reflexivity).
    repeat constructor.
    + apply Hsemi; [vm_compute; tauto|].
      vm_compute. intros H. repeat (destruct H as [H|H]; [discriminate H|]). done.
    + apply Hshort. vm_compute. lia.
Qed.

(** C1, amended.  A quoted literal of the text that the scanner reads never
    ends a statement: (1) the loop over a line reads a whole literal,
    doubled quotes and semicolons included, into the accumulator without
    emitting a statement; (2) when the scanned text (each line trimmed, the
    empty lines and the lines that begin with a comment marker dropped) is
    [pre], a literal and [post], with every literal of [pre] closed, the
    result is the statements completed in [pre], then one statement that
    holds the literal whole between the text accumulated before it and the
    text that follows it, then the statements of [post]; these parts are
    the same for every body of the literal, with or without semicolons;
    (3) the two-line scenario of the specification gives exactly two
    statements, the first with its embedded semicolon. *)
Theorem quoted_semicolon_never_splits :
  (forall (q : rune) (body rest : text) (s : splitter),
      isQuote q = true -> literalBody q body -> inQuotes s = false ->
      scanLine (literal q body ++ rest) s =
      scanLine rest
        {| statements := statements s;
           currentStatement := currentStatement s ++ literal q body;
           inQuotes := false;
           quoteChar := q |}) /\
  (forall (pre post : text) (q : rune),
      isQuote q = true -> balanced pre ->
      exists (before : list text) (a b : text) (after : list text),
        forall (sqlContent body : text),
          literalBody q body ->
          scannedText sqlContent = pre ++ literal q body ++ post ->
          splitSQLStatements sqlContent =
          before ++ (a ++ literal q body ++ b) :: after) /\
  splitSQLStatements scenario =
    [str "INSERT INTO t VALUES ('a;b')"; str "INSERT INTO t VALUES ('c')"].
Proof.
  split; [|split].
  - intros q body rest s Hquote Hbody Hq.
    rewrite !scanLine_fold; [|by apply quoteInv_outside..].
    rewrite fold_left_app. f_equal.
    apply fold_literal; try done.
    intros s0 Hs0 _. by apply step_newline.
  - intros pre post q Hquote Hpre.
    set (s1 := fold_left flatStep pre initSplitter).
    assert (Hq1 : inQuotes s1 = false).
    { apply quoteState_None. unfold s1.
      rewrite fold_flatStep_quoteState by apply quoteInv_init. exact Hpre. }
    pose proof (isQuote_not_space q Hquote) as Hvis.
    assert (Hself : forall x, TrimSpace ([q] ++ x) = [q] ++ TrimRight x).
    { intros x. by apply TrimSpace_cons_visible. }
    assert (Hstart : follows [q] [q] q [] (afterMark q) (afterMark q)).
    { split; [done|]. split; [done|]. left. by exists []. }
    destruct (follows_lastStatement [q] [q] q [] Hvis
                ltac:(discriminate) ltac:(discriminate) Hself _ _
                (follows_fold [q] [q] q [] Hvis
                   ltac:(discriminate) ltac:(discriminate) Hself post _ _
                   Hstart))
      as (b & after & Href & _).
    exists (statements s1), (TrimLeft (currentStatement s1)), b, after.
    intros sqlContent body Hbody Htext.
    rewrite splitSQLStatements_flat, Htext, !fold_left_app. fold s1.
    rewrite (fold_literal flatStep flatStep_visible flatStep_newline) by done.
    set (P := currentStatement s1 ++ literal q body).
    set (A := TrimLeft (currentStatement s1) ++ literal q body).
    assert (HP : P <> []).
    { unfold P, literal. by destruct (currentStatement s1). }
    assert (HA : A <> []).
    { unfold A, literal. by destruct (TrimLeft (currentStatement s1)). }
    assert (Htrim : forall x, TrimSpace (P ++ x) = A ++ TrimRight x).
    { intros x. by apply TrimSpace_after_literal. }
    assert (Hgo : follows P A q (statements s1)
                    {| statements := statements s1; currentStatement := P;
                       inQuotes := false; quoteChar := q |}
                    (afterMark q)).
    { split; [done|]. split; [done|]. left. exists [].
      simpl. by rewrite app_nil_r. }
    destruct (follows_lastStatement P A q (statements s1) Hvis HP HA Htrim _ _
                (follows_fold P A q (statements s1) Hvis HP HA Htrim post _ _
                   Hgo))
      as (b' & after' & Href' & Hrun).
    rewrite Href in Href'. simplify_eq.
    rewrite Hrun. unfold A. by rewrite <- app_assoc.
  - vm_compute. reflexivity.
Qed.

Lemma quoted_semicolon_never_splits_witness :
  exists (before : list text) (a b : text) (after : list text),
    forall (sqlContent body : text),
      literalBody r_squote body ->
      scannedText sqlContent =
        str "INSERT INTO t VALUES (" ++ literal r_squote body ++ str ");
INSERT INTO t VALUES ('c');" ->
      splitSQLStatements sqlContent =
      before ++ (a ++ literal r_squote body ++ b) :: after.
Proof.
  exact (proj1 (proj2 quoted_semicolon_never_splits)
           (str "INSERT INTO t VALUES (") (str ");
INSERT INTO t VALUES ('c');") r_squote eq_refl
           ltac:(vm_compute; reflexivity)).
Defined.

(** ** Statements come out in order *)

(** C5, the statement as the specification words it, fails: a line that
    begins with a block comment is dropped with the semicolon it holds, so
    two statements of the source come out as one. *)
Lemma statements_in_order_counterexample :
  blockCommentText = terminated blockCommentStatements /\
  Forall sourceStatement blockCommentStatements /\
  splitSQLStatements blockCommentText = [str "SELECT 1
SELECT 3"] /\
  length (splitSQLStatements blockCommentText) <> length blockCommentStatements.
Proof.
  split; [vm_compute; reflexivity|]. split; [|split].
  - repeat constructor; try discriminate;
      intros H; vm_compute in H; discriminate H.
  - vm_compute. reflexivity.
  - vm_compute. discriminate.
Qed.

(** The statements of the scanned text come out in order.  When the
    scanned text (each line trimmed, the empty lines and the lines that
    begin with a comment marker dropped) is made of statements that each end with a semicolon, followed by text without a
    semicolon, the splitter returns these statements trimmed, in order, and
    then the trailing text trimmed when it is not blank; every statement
    returned is trimmed and not empty; without trailing text the count is
    the number of statements. *)
Theorem statements_in_order (sqlContent : text) (stmts : list text) (rest : text) :
  scannedText sqlContent = terminated stmts ++ rest ->
  Forall plainStatement stmts ->
  noRune r_semi rest ->
  splitSQLStatements sqlContent = map TrimSpace stmts ++ trailing rest /\
  Forall emitted (splitSQLStatements sqlContent) /\
  (TrimSpace rest = [] ->
   length (splitSQLStatements sqlContent) = length stmts).
Proof.
  intros Htext Hstmts Hrest.
  assert (Heq : splitSQLStatements sqlContent = map TrimSpace stmts ++ trailing rest).
  { rewrite splitSQLStatements_flat, Htext, fold_left_app.
    destruct (flat_statements stmts initSplitter) as (H1 & H2 & H3 & H4);
      [apply quoteInv_init|done|done|done|].
    rewrite lastStatement_trailing by done. by rewrite H1. }
  split; [done|]. split; [apply splitSQLStatements_emitted|].
  intros Hblank. rewrite Heq. unfold trailing. rewrite Hblank.
  by rewrite app_nil_r, length_map.
Qed.

Lemma statements_in_order_witness :
  splitSQLStatements orderedText =
    [str "CREATE TABLE t (id INT)"; str "INSERT INTO t
VALUES (1)"; str "SELECT id FROM t"].
Proof.
  apply (proj1 (statements_in_order orderedText orderedStatements (str "
SELECT id FROM t")
    ltac:(vm_compute; reflexivity)
    ltac:(repeat constructor; try discriminate; try (vm_compute; reflexivity);
          intros H; vm_compute in H; discriminate H)
    ltac:(repeat constructor; discriminate))).
Defined.

(** ** The ordering property on the input *)

Lemma squeezed_refl (x : text) : squeezed x x.
Proof. induction x; by constructor. Qed.

Lemma squeezed_blank (x : text) : blank x -> squeezed x [].
Proof. induction 1; by constructor. Qed.

Lemma squeezed_app (a a' b b' : text) :
  squeezed a a' -> squeezed b b' -> squeezed (a ++ b) (a' ++ b').
Proof. induction 1; intros Hb; simpl; [done|by constructor; auto..]. Qed.

Lemma squeezed_TrimSpace (x : text) : squeezed x (TrimSpace x).
Proof.
  destruct (TrimSpace_split x) as (l & r & Hl & Hr & Heq).
  rewrite Heq at 1.
  replace (TrimSpace x) with ([] ++ TrimSpace x ++ []) at 2
    by (simpl; by rewrite app_nil_r).
  apply squeezed_app; [by apply squeezed_blank|].
  apply squeezed_app; [apply squeezed_refl|by apply squeezed_blank].
Qed.

(** A character that is kept cuts the squeezed text where it cuts the
    text. *)
Lemma squeezed_cut (a : text) (c : rune) (b : text) :
  isSpace c = false ->
  forall y : text,
    squeezed (a ++ c :: b) y ->
    exists a' b', y = a' ++ c :: b' /\ squeezed a a' /\ squeezed b b'.
Proof.
  intros Hc. induction a as [|d a IH]; intros y H; simpl in H.
  - inversion H; subst; [|congruence]. exists [], y0.
    split; [done|]. split; [constructor|done].
  - inversion H; subst.
    + destruct (IH _ H3) as (a' & b' & -> & Ha & Hb).
      exists (d :: a'), b'. split; [done|]. split; [by constructor|done].
    + destruct (IH _ H4) as (a' & b' & -> & Ha & Hb).
      exists a', b'. split; [done|]. split; [by constructor|done].
Qed.

Lemma squeezed_terminated (stmts : list text) (rest : text) :
  forall y : text,
    squeezed (terminated stmts ++ rest) y ->
    exists stmts' rest',
      y = terminated stmts' ++ rest' /\
      Forall2 squeezed stmts stmts' /\ squeezed rest rest'.
Proof.
  induction stmts as [|x stmts IH]; intros y H.
  - exists [], y. split; [done|]. split; [constructor|done].
  - unfold terminated in H. simpl in H. rewrite <- !app_assoc in H. simpl in H.
    apply squeezed_cut in H as (x' & y' & -> & Hx & Hy); [|done].
    destruct (IH _ Hy) as (stmts' & rest' & -> & Hs & Hr).
    exists (x' :: stmts'), rest'. split; [|split; [by constructor|done]].
    unfold terminated. simpl. by rewrite <- !app_assoc.
Qed.

Lemma squeezed_noRune (c : rune) (x y : text) :
  squeezed x y -> noRune c x -> noRune c y.
Proof.
  induction 1 as [|d x y _ IH|d x y _ _ IH]; intros Hx; [done| |];
    inversion Hx; subst.
  - constructor; [done|by apply IH].
  - by apply IH.
Qed.

Lemma quoteStep_space (q : option rune) (c : rune) :
  (forall k, q = Some k -> isQuote k = true) ->
  isSpace c = true -> quoteStep q c = q.
Proof.
  intros Hq Hc. destruct q as [k|]; simpl.
  - destruct (c =? k) eqn:Hk; [|done].
    apply N.eqb_eq in Hk. subst k.
    specialize (Hq c eq_refl). apply isQuote_not_space in Hq. congruence.
  - destruct (isQuote c) eqn:Hk; [|done].
    apply isQuote_not_space in Hk. congruence.
Qed.

Lemma quoteStep_mark (q : option rune) (c : rune) :
  (forall k, q = Some k -> isQuote k = true) ->
  forall k, quoteStep q c = Some k -> isQuote k = true.
Proof.
  intros Hq k. destruct q as [k0|]; simpl.
  - destruct (c =? k0); [done|]. intros H. by apply Hq.
  - destruct (isQuote c) eqn:Hc; [|done]. intros H. by simplify_eq.
Qed.

Lemma squeezed_quoteAfter (x y : text) :
  squeezed x y ->
  forall q : option rune,
    (forall k, q = Some k -> isQuote k = true) ->
    quoteAfter q x = quoteAfter q y.
Proof.
  unfold quoteAfter. induction 1 as [|c x y _ IH|c x y Hc _ IH]; intros q Hq; simpl.
  - done.
  - apply IH. by apply quoteStep_mark.
  - rewrite quoteStep_space by done. by apply IH.
Qed.

Lemma squeezed_balanced (x y : text) : squeezed x y -> balanced x -> balanced y.
Proof.
  unfold balanced. intros H Hx.
  by rewrite <- (squeezed_quoteAfter x y H None).
Qed.

Lemma squeezed_of_blank (x y : text) : squeezed x y -> blank x -> blank y.
Proof.
  induction 1 as [|d x y _ IH|d x y _ _ IH]; intros Hx; [done| |];
    inversion Hx; subst.
  - constructor; [done|by apply IH].
  - by apply IH.
Qed.

Lemma squeezed_to_blank (x y : text) : squeezed x y -> blank y -> blank x.
Proof.
  induction 1 as [|d x y _ IH|d x y Hd _ IH]; intros Hy; [done| |].
  - inversion Hy; subst. constructor; [done|by apply IH].
  - constructor; [done|by apply IH].
Qed.

Lemma squeezed_visible (x y : text) :
  squeezed x y -> TrimSpace x <> [] -> TrimSpace y <> [].
Proof.
  intros H Hx Hy. apply Hx, TrimSpace_blank.
  eapply squeezed_to_blank; [done|]. by apply TrimSpace_nil_blank.
Qed.

Lemma squeezed_plainStatement (x y : text) :
  squeezed x y -> plainStatement x -> plainStatement y.
Proof.
  intros H (H1 & H2 & H3). split; [|split].
  - by eapply squeezed_noRune.
  - by eapply squeezed_balanced.
  - by eapply squeezed_visible.
Qed.

Lemma squeezed_plainStatements (l l' : list text) :
  Forall2 squeezed l l' -> Forall plainStatement l -> Forall plainStatement l'.
Proof.
  induction 1 as [|x x' l l' Hx _ IH]; intros Hl; [done|].
  inversion Hl; subst. constructor; [|by apply IH].
  by eapply squeezed_plainStatement.
Qed.

Lemma squeezed_trailing (x y : text) :
  squeezed x y -> length (trailing y) = length (trailing x).
Proof.
  intros H. unfold trailing.
  destruct (TrimSpace x) eqn:Hx.
  - rewrite TrimSpace_blank; [done|].
    eapply squeezed_of_blank; [done|]. by apply TrimSpace_nil_blank.
  - destruct (TrimSpace y) eqn:Hy; [|done].
    exfalso. eapply squeezed_visible; [done| |done]. by rewrite Hx.
Qed.

Lemma joinLines_cons (l : text) (ls : list text) :
  joinLines (l :: ls) =
  l ++ match ls with [] => [] | _ :: _ => r_newline :: joinLines ls end.
Proof. destruct ls; simpl; [by rewrite app_nil_r|done]. Qed.

(** [strings.Split] loses nothing: joining the lines gives the text. *)
Lemma joinLines_Split (s : text) : joinLines (Split r_newline s) = s.
Proof.
  induction s as [|c s IH]; [done|].
  simpl. destruct (c =? r_newline) eqn:Hc.
  - apply N.eqb_eq in Hc. subst c. rewrite joinLines_cons, IH.
    pose proof (Split_not_nil r_newline s). by destruct (Split r_newline s).
  - pose proof (Split_not_nil r_newline s) as Hne.
    destruct (Split r_newline s) as [|p ps]; [done|].
    rewrite joinLines_cons in *. simpl. by rewrite IH.
Qed.

(** Without comment lines, the scanner reads the lines with white space
    removed and nothing else. *)
Lemma squeezed_lines (ls : list text) :
  Forall (fun line => isCommentLine (TrimSpace line) = false) ls ->
  squeezed (joinLines ls)
           (joinLines (filter (fun l => keptLine l = true) (map TrimSpace ls))).
Proof.
  induction 1 as [|l ls Hl _ IH]; [constructor|].
  rewrite joinLines_cons. simpl map. rewrite filter_cons.
  set (kept := filter (fun l => keptLine l = true) (map TrimSpace ls)) in *.
  assert (Htail : squeezed
            match ls with [] => [] | _ :: _ => r_newline :: joinLines ls end
            match kept with [] => [] | _ :: _ => r_newline :: joinLines kept end).
  { destruct ls as [|l0 ls]; [by constructor|].
    destruct kept as [|k0 kept].
    - by apply squeezed_drop.
    - by apply squeezed_keep. }
  assert (Hk : keptLine (TrimSpace l) = visiblePart (TrimSpace l)).
  { unfold keptLine. by rewrite Hl. }
  destruct (decide (keptLine (TrimSpace l) = true)) as [H|H]; rewrite Hk in H.
  - rewrite joinLines_cons. apply squeezed_app; [|done].
    apply squeezed_TrimSpace.
  - replace (joinLines kept) with ([] ++ joinLines kept) by done.
    apply squeezed_app.
    + apply squeezed_blank, TrimSpace_nil_blank.
      by destruct (TrimSpace l).
    + destruct ls as [|l0 ls]; [constructor|].
      by apply squeezed_drop.
Qed.

Lemma squeezed_scannedText (sqlContent : text) :
  noCommentLine sqlContent -> squeezed sqlContent (scannedText sqlContent).
Proof.
  intros H. rewrite <- (joinLines_Split sqlContent) at 1.
  by apply squeezed_lines.
Qed.

(** C5, amended.  For a text no line of which begins, after trimming, with
    a comment marker, made of [N] statements that each end with a semicolon
    (each without a semicolon, with every literal closed, and not blank)
    followed by text without a semicolon: the splitter returns, in the order
    of the text, each of the [N] statements with some of its white space
    removed and trimmed, then the trailing text in the same way when it is
    not blank; every statement returned is trimmed and not empty; the count
    is [N], plus one for trailing text that is not blank. *)
Theorem statements_of_input_in_order (sqlContent : text) (stmts : list text)
    (rest : text) :
  sqlContent = terminated stmts ++ rest ->
  Forall plainStatement stmts ->
  noRune r_semi rest ->
  noCommentLine sqlContent ->
  exists (stmts' : list text) (rest' : text),
    Forall2 squeezed stmts stmts' /\ squeezed rest rest' /\
    splitSQLStatements sqlContent = map TrimSpace stmts' ++ trailing rest' /\
    Forall emitted (splitSQLStatements sqlContent) /\
    length (splitSQLStatements sqlContent) =
      (length stmts + length (trailing rest))%nat.
Proof.
  intros Htext Hstmts Hrest Hlines.
  pose proof (squeezed_scannedText sqlContent Hlines) as Hsq.
  rewrite Htext in Hsq at 1.
  apply squeezed_terminated in Hsq as (stmts' & rest' & Hscan & Hs & Hr).
  pose proof (squeezed_plainStatements stmts stmts' Hs Hstmts) as Hplain.
  assert (Heq : splitSQLStatements sqlContent =
                map TrimSpace stmts' ++ trailing rest').
  { rewrite splitSQLStatements_flat, Hscan, fold_left_app.
    destruct (flat_statements stmts' initSplitter) as (H1 & H2 & H3 & H4);
      [apply quoteInv_init|done|done|done|].
    rewrite lastStatement_trailing; [by rewrite H1|done|].
    by eapply squeezed_noRune. }
  exists stmts', rest'. split; [done|]. split; [done|]. split; [done|].
  split; [apply splitSQLStatements_emitted|].
  rewrite Heq, length_app, length_map.
  rewrite (squeezed_trailing rest rest') by done.
  by rewrite (Forall2_length _ _ _ Hs).
Qed.

Lemma statements_of_input_in_order_witness :
  exists (stmts' : list text) (rest' : text),
    Forall2 squeezed indentedStatements stmts' /\
    squeezed (str "
SELECT id FROM t") rest' /\
    splitSQLStatements indentedText = map TrimSpace stmts' ++ trailing rest' /\
    Forall emitted (splitSQLStatements indentedText) /\
    length (splitSQLStatements indentedText) =
      (length indentedStatements + length (trailing (str "
SELECT id FROM t")))%nat.
Proof.
  apply (statements_of_input_in_order indentedText indentedStatements (str "
SELECT id FROM t")).
  - vm_compute. reflexivity.
  - repeat constructor; try discriminate; try (vm_compute; reflexivity);
      intros H; vm_compute in H; discriminate H.
  - repeat constructor; discriminate.
  - unfold noCommentLine. vm_compute. repeat constructor.
Defined.

(** ** The two splitters *)

Lemma Split_noRune_id (sep : rune) (a : text) : noRune sep a -> Split sep a = [a].
Proof.
  induction 1 as [|c a Hc _ IH]; simpl; [done|].
  apply N.eqb_neq in Hc. by rewrite Hc, IH.
Qed.

Lemma Split_app_sep (sep : rune) (a b : text) :
  noRune sep a -> Split sep (a ++ sep :: b) = a :: Split sep b.
Proof.
  induction 1 as [|c a Hc _ IH]; simpl.
  - by rewrite N.eqb_refl.
  - apply N.eqb_neq in Hc. by rewrite Hc, IH.
Qed.

Lemma flatStep_plain (s : splitter) (c : rune) :
  inQuotes s = false -> isQuote c = false -> c <> r_newline ->
  flatStep s c = if c =? r_semi then endStatement s else WriteRune c s.
Proof.
  intros Hq Hc Hn. rewrite flatStep_visible by done.
  unfold step. rewrite Hq, Hc. done.
Qed.

(** Without quote marks and line ends, the automaton cuts at every
    semicolon. *)
Lemma flat_plain_text (x : text) :
  forall s : splitter,
    noRune r_newline x -> Forall (fun c => isQuote c = false) x ->
    inQuotes s = false -> noRune r_semi (currentStatement s) ->
    lastStatement (fold_left flatStep x s) =
    statements s ++
    filter (fun p => visiblePart p = true)
           (map TrimSpace (Split r_semi (currentStatement s ++ x))).
Proof.
  induction x as [|c x IH]; intros s Hnl Hquote Hq Hcur.
  - simpl. rewrite app_nil_r, Split_noRune_id by done. simpl.
    unfold lastStatement.
    destruct (currentStatement s) as [|e k]; [by rewrite app_nil_r|].
    destruct (TrimSpace (e :: k)); [by rewrite app_nil_r|done].
  - inversion Hnl as [|? ? Hc1 Hnl']; subst.
    inversion Hquote as [|? ? Hc2 Hquote']; subst.
    simpl. rewrite flatStep_plain by done.
    destruct (c =? r_semi) eqn:Hsemi.
    + apply N.eqb_eq in Hsemi. subst c.
      rewrite IH; [|done|done|done|constructor].
      rewrite Split_app_sep by done. simpl.
      rewrite filter_cons.
      destruct (TrimSpace (currentStatement s)) as [|e k]; simpl.
      * done.
      * by rewrite <- app_assoc.
    + apply N.eqb_neq in Hsemi.
      rewrite IH; [|done|done|done|].
      * simpl. by rewrite <- app_assoc.
      * simpl. apply Forall_app. split; [done|]. by repeat constructor.
Qed.

Lemma Split_cons_other (sep c : rune) (s : text) :
  c <> sep ->
  exists p ps, Split sep s = p :: ps /\ Split sep (c :: s) = (c :: p) :: ps.
Proof.
  intros Hc. simpl. apply N.eqb_neq in Hc. rewrite Hc.
  pose proof (Split_not_nil sep s) as Hne.
  destruct (Split sep s) as [|p ps]; [done|]. by exists p, ps.
Qed.

Lemma parts_TrimLeft (sep : rune) (t : text) :
  isSpace sep = false ->
  map TrimSpace (Split sep (TrimLeft t)) = map TrimSpace (Split sep t).
Proof.
  intros Hsep. induction t as [|c t IH]; [done|].
  simpl TrimLeft. destruct (isSpace c) eqn:Hc; [|done].
  assert (Hne : c <> sep) by (intros ->; congruence).
  destruct (Split_cons_other sep c t Hne) as (p & ps & H1 & H2).
  rewrite H2, IH, H1. simpl. f_equal.
  replace (c :: p) with ([c] ++ p ++ []) by (simpl; by rewrite app_nil_r).
  rewrite TrimSpace_margins; [done|by repeat constructor|constructor].
Qed.

(** Text after the last separator only extends the last piece. *)
Lemma Split_app_tail (sep : rune) (r : text) (m : text) :
  noRune sep r ->
  exists init last,
    Split sep m = init ++ [last] /\ Split sep (m ++ r) = init ++ [last ++ r].
Proof.
  intros Hr. induction m as [|c m (init & last & H1 & H2)].
  - exists [], []. simpl. by rewrite Split_noRune_id.
  - simpl. destruct (c =? sep).
    + exists ([] :: init), last. by rewrite H1, H2.
    + rewrite H1, H2. destruct init as [|i0 init]; simpl.
      * by exists [], (c :: last).
      * by exists ((c :: i0) :: init), last.
Qed.

Lemma blank_noRune (sep : rune) (r : text) :
  isSpace sep = false -> blank r -> noRune sep r.
Proof.
  intros Hsep Hr. unfold noRune, blank in *.
  eapply Forall_impl; [exact Hr|]. intros x Hx ->. congruence.
Qed.

Lemma parts_app_blank (sep : rune) (m r : text) :
  isSpace sep = false -> blank r ->
  map TrimSpace (Split sep (m ++ r)) = map TrimSpace (Split sep m).
Proof.
  intros Hsep Hr.
  destruct (Split_app_tail sep r m) as (init & last & H1 & H2);
    [by apply blank_noRune|].
  rewrite H1, H2, !map_app. simpl. f_equal. f_equal.
  rewrite <- (TrimSpace_margins [] last r); [done|constructor|done].
Qed.

Lemma parts_TrimSpace (sep : rune) (t : text) :
  isSpace sep = false ->
  map TrimSpace (Split sep (TrimSpace t)) = map TrimSpace (Split sep t).
Proof.
  intros Hsep. rewrite <- (parts_TrimLeft sep t) by done.
  destruct (TrimRight_split (TrimLeft t)) as (r & Hr & Heq).
  change (TrimSpace t) with (TrimRight (TrimLeft t)).
  set (m := TrimLeft t) in *. rewrite Heq at 2.
  symmetry. by apply parts_app_blank.
Qed.

Lemma scannedText_one_line (t : text) :
  noRune r_newline t -> isCommentLine (TrimSpace t) = false ->
  scannedText t = TrimSpace t.
Proof.
  intros Hnl Hcomment. unfold scannedText, scannedLines.
  rewrite Split_noRune_id by done. simpl.
  rewrite filter_cons.
  assert (Hk : keptLine (TrimSpace t) = visiblePart (TrimSpace t)).
  { unfold keptLine. by rewrite Hcomment. }
  destruct (decide (keptLine (TrimSpace t) = true)) as [H|H];
    rewrite Hk in H; destruct (TrimSpace t); done.
Qed.

Lemma noRune_quotes (x : text) :
  noRune r_squote x -> noRune r_dquote x -> Forall (fun c => isQuote c = false) x.
Proof.
  unfold noRune. rewrite !Forall_forall. intros H1 H2 c Hc.
  unfold isQuote. apply orb_false_intro; apply N.eqb_neq; auto.
Qed.

(** C9, the claim as stated, fails.  On the scenario of the specification
    the earlier splitter cuts inside the literal.  Without any literal the
    two still differ: on a comment line before a statement, which the
    earlier splitter takes as the start of the statement and drops with it;
    on an indented line, whose indentation the earlier splitter keeps; and
    on a comment after a semicolon, which only the earlier splitter
    drops. *)
Lemma splitters_agree_counterexample :
  splitSQLStatements scenario <> Legacy.splitSQLStatements scenario /\
  (splitSQLStatements (str "-- c
SELECT 1;") = [str "SELECT 1"] /\
   Legacy.splitSQLStatements (str "-- c
SELECT 1;") = []) /\
  (splitSQLStatements (str "SELECT 1,
  2;") = [str "SELECT 1,
2"] /\
   Legacy.splitSQLStatements (str "SELECT 1,
  2;") = [str "SELECT 1,
  2"]) /\
  (splitSQLStatements (str "SELECT 1; -- done") = [str "SELECT 1"; str "-- done"] /\
   Legacy.splitSQLStatements (str "SELECT 1; -- done") = [str "SELECT 1"]).
Proof.
  split; [vm_compute; discriminate|].
  repeat split; vm_compute; reflexivity.
Qed.

(** The two splitters on one line.  They return the same statements for a
    text of one line that holds no quote mark, that does not begin with a comment
    marker, and in which no piece between semicolons begins with [--] or
    [#]. *)
Theorem splitters_agree_on_plain_line (sqlContent : text) :
  noRune r_newline sqlContent ->
  noRune r_squote sqlContent -> noRune r_dquote sqlContent ->
  isCommentLine (TrimSpace sqlContent) = false ->
  Forall (fun part => isLineComment part = false) (parts sqlContent) ->
  splitSQLStatements sqlContent = Legacy.splitSQLStatements sqlContent.
Proof.
  intros Hnl Hsq Hdq Hcomment Hparts.
  rewrite splitSQLStatements_flat, scannedText_one_line by done.
  rewrite flat_plain_text;
    [|by apply TrimSpace_noRune
     |by apply noRune_quotes; apply TrimSpace_noRune
     |done|constructor].
  simpl. rewrite parts_TrimSpace by done.
  unfold Legacy.splitSQLStatements. fold (parts sqlContent).
  induction Hparts as [|p ps Hp _ IH]; [done|].
  rewrite !filter_cons, IH.
  assert (Hk : Legacy.keepPart p = visiblePart p).
  { unfold Legacy.keepPart, visiblePart. destruct p; [done|].
    unfold isLineComment in Hp. by rewrite Hp. }
  rewrite Hk. done.
Qed.

Lemma splitters_agree_on_plain_line_witness :
  splitSQLStatements plainLine = Legacy.splitSQLStatements plainLine.
Proof.
  apply splitters_agree_on_plain_line.
  - repeat constructor; discriminate.
  - repeat constructor; discriminate.
  - repeat constructor; discriminate.
  - vm_compute. reflexivity.
  - vm_compute. repeat constructor.
Defined.

(** ** The two splitters on texts of several lines *)

Lemma Split_cases (sep : rune) (s : text) :
  (noRune sep s /\ Split sep s = [s]) \/
  (exists a b, s = a ++ sep :: b /\ noRune sep a /\
               Split sep s = a :: Split sep b).
Proof.
  induction s as [|c s IH]; [left; by split; [constructor|]|].
  simpl. destruct (c =? sep) eqn:Hc.
  - apply N.eqb_eq in Hc. subst c. right. exists [], s.
    split; [done|]. split; [constructor|done].
  - apply N.eqb_neq in Hc.
    destruct IH as [[Hs ->]|(a & b & -> & Ha & ->)].
    + left. split; [by constructor|done].
    + right. exists (c :: a), b. split; [done|]. split; [by constructor|done].
Qed.

Lemma balanced_TrimSpace (x : text) : balanced (TrimSpace x) -> balanced x.
Proof.
  unfold balanced.
  by rewrite (squeezed_quoteAfter x (TrimSpace x) (squeezed_TrimSpace x) None).
Qed.

(** When every piece between semicolons closes the literals it opens, the
    automaton cuts at every semicolon. *)
Lemma flat_pieces (n : nat) :
  forall (x : text) (s : splitter),
    (length x <= n)%nat ->
    quoteInv s -> inQuotes s = false -> currentStatement s = [] ->
    Forall balanced (Split r_semi x) ->
    lastStatement (fold_left flatStep x s) =
    statements s ++
    filter (fun p => visiblePart p = true) (map TrimSpace (Split r_semi x)).
Proof.
  induction n as [|n IH]; intros x s Hn Hs Hq Hcur Hbal.
  - destruct x; [|simpl in Hn; lia]. simpl.
    unfold lastStatement. rewrite Hcur. by rewrite app_nil_r.
  - destruct (Split_cases r_semi x) as [[Hx Heq]|(a & b & -> & Ha & Heq)].
    + rewrite lastStatement_trailing, Heq by done. simpl.
      unfold trailing. rewrite filter_cons. by destruct (TrimSpace x).
    + rewrite Heq in *. inversion Hbal as [|? ? Hba Hbb]; subst.
      rewrite fold_left_app. simpl fold_left.
      set (s1 := fold_left flatStep a s).
      assert (Hs1 : quoteInv s1) by (by apply quoteInv_fold_flatStep).
      assert (Hq1 : inQuotes s1 = false).
      { apply quoteState_None. unfold s1.
        rewrite fold_flatStep_quoteState by done.
        by rewrite quoteState_outside. }
      destruct (flat_segment a s Ha) as [Hst Hcu]. fold s1 in Hst, Hcu.
      rewrite flatStep_semi_outside by done.
      rewrite IH; [| |done|done|done|done].
      * simpl. rewrite Hcu, Hcur, TrimSpace_accumulate, Hst, filter_cons.
        destruct (TrimSpace a); simpl; [done|by rewrite <- app_assoc].
      * rewrite length_app in Hn. simpl in Hn. lia.
Qed.

(** C9, amended.  The two splitters return the same statements for a text
    (a) that the line-oriented version scans as it is: apart from the white
    space at the two ends of the text, no line is empty, begins or ends
    with white space, or begins with a comment marker; (b) in which no
    semicolon stands inside a literal: every piece between semicolons
    closes the literals it opens; and (c) in which no piece between
    semicolons begins with [--] or [#]. *)
Theorem splitters_agree (sqlContent : text) :
  scannedText sqlContent = TrimSpace sqlContent ->
  Forall balanced (parts sqlContent) ->
  Forall (fun part => isLineComment part = false) (parts sqlContent) ->
  splitSQLStatements sqlContent = Legacy.splitSQLStatements sqlContent.
Proof.
  intros Hscan Hbal Hparts.
  rewrite splitSQLStatements_flat, Hscan.
  rewrite (flat_pieces (length (TrimSpace sqlContent)));
    [|done|apply quoteInv_init|done|done|].
  - simpl. rewrite parts_TrimSpace by done.
    unfold Legacy.splitSQLStatements. fold (parts sqlContent).
    clear Hbal. induction Hparts as [|p ps Hp _ IH]; [done|].
    rewrite !filter_cons, IH.
    assert (Hk : Legacy.keepPart p = visiblePart p).
    { unfold Legacy.keepPart, visiblePart. destruct p; [done|].
      unfold isLineComment in Hp. by rewrite Hp. }
    by rewrite Hk.
  - unfold parts in Hbal. rewrite <- (parts_TrimSpace r_semi) in Hbal by done.
    apply (proj1 (Forall_map TrimSpace balanced _)) in Hbal.
    eapply Forall_impl; [exact Hbal|]. intros p. apply balanced_TrimSpace.
Qed.

Lemma splitters_agree_witness :
  splitSQLStatements agreedText = Legacy.splitSQLStatements agreedText.
Proof.
  apply splitters_agree.
  - vm_compute. reflexivity.
  - vm_compute. repeat constructor.
  - vm_compute. repeat constructor.
Defined.

(** * The connection manager *)

(** [GetConnection] as one case analysis of the manager. *)
Lemma GetConnection_eq (name : text) (m : ConnectionManager) (tr : list event) :
  GetConnection name m tr =
  match connConfigs m !! name with
  | None =>
      (Returns (Err (Errorf "database connection config not found for %s"
                            [AStr name])), m, tr)
  | Some config =>
      match connectionFns m !! DriverName config with
      | None =>
          (Returns (Err (Errorf "database connection function not found for driver %s"
                                [AStr (DriverName config)])), m, tr)
      | Some connFn =>
          match connections m !! name with
          | Some conn => (Returns (Ok conn), m, tr)
          | None =>
              match connFn (Dsn config) tr with
              | Ok conn =>
                  (Returns (Ok conn), cached name conn m,
                   tr ++ [EvOpen (DriverName config) (Dsn config)])
              | Err err =>
                  (Returns (Err err), m,
                   tr ++ [EvOpen (DriverName config) (Dsn config)])
              end
          end
      end
  end.
Proof.
  unfold GetConnection, bind, getManager, ret, liftIO, call, setConnections, cached.
  unfold connectionFn.
  repeat case_match; by simplify_eq.
Qed.

(** C3.  [GetConnection]: no configuration, no factory, a cached client
    (returned with no call to the factory: the events are unchanged), a
    factory that fails (nothing cached, its error returned as it is), a
    factory that succeeds (the client stored and returned). *)
Theorem GetConnection_cases (name : text) (m : ConnectionManager) (tr : list event) :
  (connConfigs m !! name = None ->
   GetConnection name m tr =
   (Returns (Err (Errorf "database connection config not found for %s" [AStr name])),
    m, tr)) /\
  (forall config,
      connConfigs m !! name = Some config ->
      connectionFns m !! DriverName config = None ->
      GetConnection name m tr =
      (Returns (Err (Errorf "database connection function not found for driver %s"
                            [AStr (DriverName config)])),
       m, tr)) /\
  (forall config connFn conn,
      connConfigs m !! name = Some config ->
      connectionFns m !! DriverName config = Some connFn ->
      connections m !! name = Some conn ->
      GetConnection name m tr = (Returns (Ok conn), m, tr)) /\
  (forall config connFn err,
      connConfigs m !! name = Some config ->
      connectionFns m !! DriverName config = Some connFn ->
      connections m !! name = None ->
      connFn (Dsn config) tr = Err err ->
      GetConnection name m tr =
      (Returns (Err err), m, tr ++ [EvOpen (DriverName config) (Dsn config)])) /\
  (forall config connFn conn,
      connConfigs m !! name = Some config ->
      connectionFns m !! DriverName config = Some connFn ->
      connections m !! name = None ->
      connFn (Dsn config) tr = Ok conn ->
      GetConnection name m tr =
      (Returns (Ok conn), cached name conn m,
       tr ++ [EvOpen (DriverName config) (Dsn config)])).
Proof.
  unfold GetConnection, bind, getManager, ret, liftIO, call, setConnections, cached.
  unfold connectionFn.
  repeat split.
  - intros H. by rewrite H.
  - intros config H1 H2. rewrite H1. cbn beta iota. by rewrite H2.
  - intros config connFn conn H1 H2 H3.
    rewrite H1. cbn beta iota. rewrite H2. cbn beta iota. by rewrite H3.
  - intros config connFn err H1 H2 H3 H4.
    rewrite H1. cbn beta iota. rewrite H2. cbn beta iota.
    rewrite H3. cbn beta iota. rewrite H3. cbn beta iota. by rewrite H4.
  - intros config connFn conn H1 H2 H3 H4.
    rewrite H1. cbn beta iota. rewrite H2. cbn beta iota.
    rewrite H3. cbn beta iota. rewrite H3. cbn beta iota. by rewrite H4.
Qed.

Lemma GetConnection_cases_witness :
  GetConnection (str "primary") sampleManager [] =
  (Returns (Ok (Some 7)), cached (str "primary") (Some 7) sampleManager,
   [EvOpen DbMySQL (str "dsn")]).
Proof.
  apply (proj2 (proj2 (proj2 (proj2
           (GetConnection_cases (str "primary") sampleManager []))))
           {| DriverName := DbMySQL; Dsn := str "dsn" |} (opens 7) (Some 7)).
  - vm_compute. reflexivity.
  - vm_compute. reflexivity.
  - vm_compute. reflexivity.
  - reflexivity.
Defined.

(** ** Migrations *)

Lemma GetConnection_marks (name : text) (m m' : ConnectionManager)
    (tr tr' : list event) (r : outcome (result (option handle))) :
  GetConnection name m tr = (r, m', tr') ->
  executedMigrations m' = executedMigrations m.
Proof.
  unfold GetConnection, bind, getManager, ret, liftIO, call, setConnections.
  intros H. repeat case_match; simplify_eq; done.
Qed.

Lemma RunMigration_marks (env : environment) (name filePath : text)
    (m m' : ConnectionManager) (tr tr' : list event) (r : outcome (option error)) :
  RunMigration env name filePath m tr = (r, m', tr') ->
  executedMigrations m' = executedMigrations m.
Proof.
  unfold RunMigration, bind at 1. intros H.
  destruct (GetConnection name m tr) as [[o m1] tr1] eqn:HG.
  apply GetConnection_marks in HG. rewrite <- HG.
  unfold bind, ret, liftIO, call, onClient, panic in H.
  repeat case_match; simplify_eq; done.
Qed.

(** [RunMigrationOnce] in terms of [RunMigration]. *)
Lemma RunMigrationOnce_eq (env : environment) (name filePath : text)
    (m : ConnectionManager) (tr : list event) :
  RunMigrationOnce env name filePath m tr =
  if decide (migrationKey name filePath ∈ executedMigrations m)
  then (Returns None, m, tr)
  else match RunMigration env name filePath m tr with
       | (Returns None, m1, tr1) => (Returns None, marked name filePath m1, tr1)
       | other => other
       end.
Proof.
  unfold RunMigrationOnce, bind, getManager.
  destruct (decide (migrationKey name filePath ∈ executedMigrations m)) as [Hin|Hout];
    [done|].
  rewrite !decide_False by done.
  destruct (RunMigration env name filePath m tr) as [[[[err|]|] m1] tr1]; done.
Qed.

(** C2.  [RunMigrationOnce]: a marked key returns at once, with the manager
    and the events as they were; the mark is added when [RunMigration]
    returns nil, and only then; when [RunMigration] fails its error is
    returned, the key stays unmarked and the next call with the same
    arguments runs [RunMigration] again. *)
Theorem RunMigrationOnce_cases (env : environment) (name filePath : text)
    (m : ConnectionManager) (tr : list event) :
  (migrationKey name filePath ∈ executedMigrations m ->
   RunMigrationOnce env name filePath m tr = (Returns None, m, tr)) /\
  (forall m' tr',
      migrationKey name filePath ∉ executedMigrations m ->
      RunMigration env name filePath m tr = (Returns None, m', tr') ->
      RunMigrationOnce env name filePath m tr =
        (Returns None, marked name filePath m', tr') /\
      executedMigrations (marked name filePath m') =
        {[migrationKey name filePath]} ∪ executedMigrations m) /\
  (forall err m' tr',
      migrationKey name filePath ∉ executedMigrations m ->
      RunMigration env name filePath m tr = (Returns (Some err), m', tr') ->
      RunMigrationOnce env name filePath m tr = (Returns (Some err), m', tr') /\
      migrationKey name filePath ∉ executedMigrations m' /\
      forall r m'' tr'',
        RunMigration env name filePath m' tr' = (r, m'', tr'') ->
        exists m3, RunMigrationOnce env name filePath m' tr' = (r, m3, tr'')) /\
  (forall m' tr',
      migrationKey name filePath ∉ executedMigrations m ->
      RunMigration env name filePath m tr = (Panics, m', tr') ->
      RunMigrationOnce env name filePath m tr = (Panics, m', tr') /\
      migrationKey name filePath ∉ executedMigrations m').
Proof.
  assert (Hrun : forall m0 tr0 r m1 tr1,
    migrationKey name filePath ∉ executedMigrations m0 ->
    RunMigration env name filePath m0 tr0 = (r, m1, tr1) ->
    RunMigrationOnce env name filePath m0 tr0 =
      match r with
      | Returns None => (Returns None, marked name filePath m1, tr1)
      | _ => (r, m1, tr1)
      end).
  { intros m0 tr0 r m1 tr1 Hkey Hr.
    unfold RunMigrationOnce, bind, getManager.
    rewrite !decide_False by done. rewrite Hr.
    destruct r as [[err|]|]; done. }
  repeat split.
  - intros Hkey. unfold RunMigrationOnce, bind, getManager.
    by rewrite decide_True.
  - by rewrite (Hrun _ _ _ _ _ H H0).
  - simpl. by rewrite (RunMigration_marks _ _ _ _ _ _ _ _ H0).
  - by rewrite (Hrun _ _ _ _ _ H H0).
  - by rewrite (RunMigration_marks _ _ _ _ _ _ _ _ H0).
  - intros r m'' tr'' Hr.
    assert (Hkey : migrationKey name filePath ∉ executedMigrations m')
      by (by rewrite (RunMigration_marks _ _ _ _ _ _ _ _ H0)).
    rewrite (Hrun _ _ _ _ _ Hkey Hr).
    destruct r as [[e|]|]; eauto.
  - by rewrite (Hrun _ _ _ _ _ H H0).
  - by rewrite (RunMigration_marks _ _ _ _ _ _ _ _ H0).
Qed.

Lemma RunMigrationOnce_cases_witness :
  RunMigrationOnce secondFails (str "primary") (str "m.sql") sampleManager [] =
    (Returns (Some secondFailsError),
     cached (str "primary") (Some 7) sampleManager, secondFailsEvents) /\
  migrationKey (str "primary") (str "m.sql")
    ∉ executedMigrations (cached (str "primary") (Some 7) sampleManager).
Proof.
  pose proof (proj1 (proj2 (proj2
    (RunMigrationOnce_cases secondFails (str "primary") (str "m.sql")
       sampleManager []))) secondFailsError
    (cached (str "primary") (Some 7) sampleManager) secondFailsEvents
    ltac:(vm_compute; set_solver)
    ltac:(vm_compute; reflexivity)) as H.
  split; [exact (proj1 H)|exact (proj1 (proj2 H))].
Defined.

Lemma execStatements_accepted (env : environment) (h : handle) (filePath : text)
    (stmts : list text) :
  forall (i : nat) (tr : list event),
    Forall emitted stmts -> accepted env h tr stmts ->
    execStatements env h filePath i stmts tr =
    (None, tr ++ map (EvTxExec h) stmts).
Proof.
  induction stmts as [|x stmts IH]; intros i tr Hall Hacc; simpl.
  - by rewrite app_nil_r.
  - inversion Hall as [|? ? [Hne Hx] Hrest]; subst.
    destruct Hacc as [Hx1 Hacc]. rewrite Hx.
    destruct x as [|c k]; [done|].
    unfold iobind, call. rewrite Hx1.
    rewrite IH by done. by rewrite <- app_assoc.
Qed.

Lemma execStatements_refused (env : environment) (h : handle) (filePath : text)
    (pre : list text) (stmt : text) (post : list text) (err : error) :
  forall (i : nat) (tr : list event),
    Forall emitted pre -> emitted stmt -> accepted env h tr pre ->
    env_TxExec env (tr ++ map (EvTxExec h) pre) h stmt = Some err ->
    execStatements env h filePath i (pre ++ stmt :: post) tr =
    (Some (Errorf statementFormat
             [AInt (i + length pre + 1); AStr filePath; AErr err; AStr stmt]),
     tr ++ map (EvTxExec h) pre ++ [EvTxExec h stmt]).
Proof.
  induction pre as [|x pre IH]; intros i tr Hall [Hne Hs] Hacc Herr; simpl.
  - rewrite Hs. destruct stmt as [|c k]; [done|].
    unfold iobind, call, ioret. simpl in Herr. rewrite app_nil_r in Herr.
    rewrite Herr. repeat f_equal. lia.
  - inversion Hall as [|? ? [Hnx Hx] Hrest]; subst.
    destruct Hacc as [Hx1 Hacc]. rewrite Hx.
    destruct x as [|c k]; [done|].
    unfold iobind, call. rewrite Hx1.
    rewrite (IH (S i) _ Hrest (conj Hne Hs) Hacc).
    + rewrite <- app_assoc. simpl. repeat f_equal. lia.
    + simpl in Herr. by rewrite <- app_assoc.
Qed.

Lemma splitSQLStatements_nil : splitSQLStatements [] = [].
Proof. reflexivity. Qed.

(** C4.  [RunMigration] once the connection is resolved: an unreadable
    file, a blank file and a file without statements give their errors with
    nothing sent to the database; otherwise one transaction is begun and the
    statements are executed in order; if all are accepted the transaction is
    committed; if one is refused the transaction is rolled back with no
    later statement sent, and the error carries its index counted from one,
    the path, the error of the driver and the statement. *)
Theorem RunMigration_cases (env : environment) (name filePath : text)
    (m m1 : ConnectionManager) (tr tr1 : list event) (db : option handle) :
  GetConnection name m tr = (Returns (Ok db), m1, tr1) ->
  (forall err,
      env_ReadFile env tr1 filePath = Err err ->
      RunMigration env name filePath m tr =
      (Returns (Some (Errorf "failed to read SQL file %s: %w"
                             [AStr filePath; AErr err])),
       m1, tr1 ++ [EvReadFile filePath])) /\
  (forall content,
      env_ReadFile env tr1 filePath = Ok content ->
      TrimSpace content = [] ->
      RunMigration env name filePath m tr =
      (Returns (Some (Errorf "SQL file %s is empty" [AStr filePath])),
       m1, tr1 ++ [EvReadFile filePath])) /\
  (forall content,
      env_ReadFile env tr1 filePath = Ok content ->
      TrimSpace content <> [] ->
      splitSQLStatements (TrimSpace content) = [] ->
      RunMigration env name filePath m tr =
      (Returns (Some (Errorf "no valid SQL statements found in file %s"
                             [AStr filePath])),
       m1, tr1 ++ [EvReadFile filePath])) /\
  (forall content h,
      env_ReadFile env tr1 filePath = Ok content ->
      db = Some h ->
      env_Begin env (tr1 ++ [EvReadFile filePath]) h = None ->
      let begun := tr1 ++ [EvReadFile filePath; EvBegin h] in
      let stmts := splitSQLStatements (TrimSpace content) in
      (stmts <> [] -> accepted env h begun stmts ->
       RunMigration env name filePath m tr =
       (Returns (env_Commit env (begun ++ map (EvTxExec h) stmts) h),
        m1, begun ++ map (EvTxExec h) stmts ++ [EvCommit h])) /\
      (forall pre stmt post err,
          stmts = pre ++ stmt :: post ->
          accepted env h begun pre ->
          env_TxExec env (begun ++ map (EvTxExec h) pre) h stmt = Some err ->
          RunMigration env name filePath m tr =
          (Returns (Some (Errorf statementFormat
                            [AInt (length pre + 1); AStr filePath; AErr err;
                             AStr stmt])),
           m1, begun ++ map (EvTxExec h) pre ++ [EvTxExec h stmt; EvRollback h]))).
Proof.
  intros HG.
  assert (Hshape : forall content,
    env_ReadFile env tr1 filePath = Ok content ->
    RunMigration env name filePath m tr =
    match TrimSpace content with
    | [] => (Returns (Some (Errorf "SQL file %s is empty" [AStr filePath])),
             m1, tr1 ++ [EvReadFile filePath])
    | _ :: _ =>
        match splitSQLStatements (TrimSpace content) with
        | [] => (Returns (Some (Errorf "no valid SQL statements found in file %s"
                                       [AStr filePath])),
                 m1, tr1 ++ [EvReadFile filePath])
        | _ :: _ =>
            onClient db (fun h =>
              liftIO (Transaction env h (fun tx =>
                execStatements env tx filePath 0
                  (splitSQLStatements (TrimSpace content)))))
              m1 (tr1 ++ [EvReadFile filePath])
        end
    end).
  { intros content Hread. unfold RunMigration, bind at 1. rewrite HG.
    unfold bind, liftIO, call, ret. rewrite Hread.
    destruct (TrimSpace content) as [|c k]; [done|].
    destruct (splitSQLStatements (c :: k)); done. }
  split; [|split; [|split]].
  - intros err Hread. unfold RunMigration, bind at 1. rewrite HG.
    unfold bind, liftIO, call, ret. by rewrite Hread.
  - intros content Hread Hblank. by rewrite (Hshape _ Hread), Hblank.
  - intros content Hread Hvis Hnone. rewrite (Hshape _ Hread), Hnone.
    by destruct (TrimSpace content).
  - intros content h Hread -> Hbegin begun stmts.
    assert (Hem : Forall emitted stmts) by apply splitSQLStatements_emitted.
    assert (Hrun : stmts <> [] ->
      RunMigration env name filePath m tr =
      liftIO (Transaction env h (fun tx => execStatements env tx filePath 0 stmts))
        m1 (tr1 ++ [EvReadFile filePath])).
    { intros Hne. rewrite (Hshape _ Hread). unfold stmts in *.
      destruct (TrimSpace content) as [|c k] eqn:Hk.
      - exfalso. by apply Hne.
      - by destruct (splitSQLStatements (c :: k)). }
    assert (Hbegun : begun = (tr1 ++ [EvReadFile filePath]) ++ [EvBegin h])
      by (unfold begun; by rewrite <- app_assoc).
    split.
    + intros Hne Hacc. rewrite (Hrun Hne).
      unfold liftIO, Transaction, iobind, call. rewrite Hbegin, <- Hbegun.
      rewrite execStatements_accepted by done.
      by rewrite <- app_assoc.
    + intros pre stmt post err Hsplit Hacc Herr.
      rewrite Hrun by (rewrite Hsplit; by destruct pre).
      unfold liftIO, Transaction, iobind, call. rewrite Hbegin, <- Hbegun, Hsplit.
      rewrite Hsplit in Hem. apply Forall_app in Hem as [Hpre Hpost].
      inversion Hpost; subst.
      rewrite (execStatements_refused env h filePath pre stmt post err) by done.
      unfold ioret. simpl. f_equal. by rewrite <- !app_assoc.
Qed.

Lemma RunMigration_cases_witness :
  RunMigration secondFails (str "primary") (str "m.sql") sampleManager [] =
  (Returns (Some secondFailsError),
   cached (str "primary") (Some 7) sampleManager, secondFailsEvents).
Proof.
  destruct (RunMigration_cases secondFails (str "primary") (str "m.sql")
       sampleManager (cached (str "primary") (Some 7) sampleManager)
       [] [EvOpen DbMySQL (str "dsn")] (Some 7)
       ltac:(vm_compute; reflexivity)) as (_ & _ & _ & H).
  destruct (H threeStatements 7 eq_refl eq_refl eq_refl) as [_ Hfail].
  apply (Hfail [str "CREATE TABLE t (v TEXT)"]
               (str "INSERT INTO t VALUES ('a;b')")
               [str "INSERT INTO t VALUES ('c')"]
               (ExternalError 1)).
  - vm_compute. reflexivity.
  - vm_compute. done.
  - vm_compute. reflexivity.
Defined.

Lemma RunMigrationOnce_success_marked (env : environment) (name filePath : text)
    (m m' : ConnectionManager) (tr tr' : list event) :
  RunMigrationOnce env name filePath m tr = (Returns None, m', tr') ->
  migrationKey name filePath ∈ executedMigrations m'.
Proof.
  rewrite RunMigrationOnce_eq.
  destruct (decide (migrationKey name filePath ∈ executedMigrations m)) as [Hin|Hout].
  - intros H. by simplify_eq.
  - destruct (RunMigration env name filePath m tr) as [[[[err|]|] m1] tr1] eqn:Hr;
      intros H; simplify_eq.
    simpl. by apply elem_of_union_l, elem_of_singleton.
Qed.

(** C10.  The key of a migration is [name + ":" + filePath]; two different
    pairs can have one key, and then a migration that has run for one pair
    makes [RunMigrationOnce] return nil for the other pair with no event:
    the file of the other pair is never read and never executed. *)
Theorem migrationKey_not_injective :
  (str "a:b", str "c") <> (str "a", str "b:c") /\
  migrationKey (str "a:b") (str "c") = migrationKey (str "a") (str "b:c") /\
  (forall name filePath, migrationKey name filePath = name ++ str ":" ++ filePath) /\
  (forall (env : environment) (name1 path1 name2 path2 : text)
          (m m' : ConnectionManager) (tr tr' : list event),
      migrationKey name1 path1 = migrationKey name2 path2 ->
      RunMigrationOnce env name1 path1 m tr = (Returns None, m', tr') ->
      RunMigrationOnce env name2 path2 m' tr' = (Returns None, m', tr')).
Proof.
  split; [discriminate|]. split; [reflexivity|]. split; [reflexivity|].
  intros env name1 path1 name2 path2 m m' tr tr' Hkey Hrun.
  apply RunMigrationOnce_success_marked in Hrun. rewrite Hkey in Hrun.
  rewrite RunMigrationOnce_eq. by rewrite decide_True.
Qed.

Lemma migrationKey_not_injective_witness :
  RunMigrationOnce quietEnv (str "a") (str "b:c")
    afterFirstMigration firstMigrationEvents =
  (Returns None, afterFirstMigration, firstMigrationEvents).
Proof.
  apply (proj2 (proj2 (proj2 migrationKey_not_injective))
           quietEnv (str "a:b") (str "c") (str "a") (str "b:c")
           sampleManager afterFirstMigration [] firstMigrationEvents).
  - reflexivity.
  - vm_compute. reflexivity.
Defined.

(** * Dialect table operations *)

Lemma runTableOp_dialect (env : environment) (op : tableOp) :
  runTableOp env op = tableOperation env (dialectOf op).
Proof. by destruct op. Qed.

Lemma eachTable_accepted (env : environment) (d : dialect) (db : handle)
    (tables : list text) :
  forall tr : list event,
    tablesAccepted env d db tr tables ->
    eachTable env d db tables tr = (None, tr ++ tableEvents d db tables).
Proof.
  induction tables as [|table tables IH]; intros tr Hacc; simpl.
  - by rewrite app_nil_r.
  - destruct Hacc as [H1 Hacc]. unfold iobind, call. rewrite H1.
    rewrite IH by done. by rewrite <- app_assoc.
Qed.

Lemma eachTable_refused (env : environment) (d : dialect) (db : handle)
    (pre : list text) (table : text) (post : list text) (err : error) :
  forall tr : list event,
    tablesAccepted env d db tr pre ->
    env_Exec env (tr ++ tableEvents d db pre) db (tableSQL d table) = Some err ->
    eachTable env d db (pre ++ table :: post) tr =
    (Some (Errorf (tableMsg d) [AStr table; AErr err]),
     tr ++ tableEvents d db pre ++ [EvExec db (tableSQL d table)]).
Proof.
  induction pre as [|x pre IH]; intros tr Hacc Herr; simpl.
  - unfold iobind, call, ioret. simpl in Herr. rewrite app_nil_r in Herr.
    by rewrite Herr.
  - destruct Hacc as [H1 Hacc]. unfold iobind, call. rewrite H1.
    rewrite IH; [by rewrite <- app_assoc|done|].
    simpl in Herr. by rewrite <- app_assoc.
Qed.

Lemma enable_not_disable (op : tableOp) :
  enableSQL (dialectOf op) <> disableSQL (dialectOf op).
Proof. destruct op; discriminate. Qed.

Lemma enable_not_table (op : tableOp) (table : text) :
  enableSQL (dialectOf op) <> tableSQL (dialectOf op) table.
Proof. destruct op; discriminate. Qed.

Lemma enable_not_sent (op : tableOp) (db : handle) (tables : list text) :
  EvExec db (enableSQL (dialectOf op)) ∉
  [EvExec db (disableSQL (dialectOf op)); EvQuery db (listSQL (dialectOf op))]
  ++ tableEvents (dialectOf op) db tables.
Proof.
  intros H. apply elem_of_app in H as [H|H].
  - apply elem_of_cons in H as [H|H].
    + injection H as H. by apply enable_not_disable in H.
    + apply elem_of_cons in H as [H|H]; [discriminate H|].
      by apply not_elem_of_nil in H.
  - unfold tableEvents in H. apply list_elem_of_In, in_map_iff in H as (t & Ht & _).
    injection Ht as Ht. symmetry in Ht. by apply enable_not_table in Ht.
Qed.

(** C7.  Every flush and every drop operation, once integrity enforcement
    is disabled and the tables are listed: when the statement of a table is
    refused, the events end with that statement (no later table, no
    re-enable statement) and the error names the table; when every
    statement is accepted, the events are the disable statement, the table
    query, one statement per table in the order of the query, and the
    re-enable statement. *)
Theorem table_operation_sequence (env : environment) (op : tableOp)
    (db : handle) (tr : list event) (tables : list text) :
  let d := dialectOf op in
  let listed := tr ++ [EvExec db (disableSQL d); EvQuery db (listSQL d)] in
  env_Exec env tr db (disableSQL d) = None ->
  env_Query env (tr ++ [EvExec db (disableSQL d)]) db (listSQL d) = Ok tables ->
  (forall pre table post err,
      tables = pre ++ table :: post ->
      tablesAccepted env d db listed pre ->
      env_Exec env (listed ++ tableEvents d db pre) db (tableSQL d table) = Some err ->
      runTableOp env op db tr =
      (Some (Errorf (tableMsg d) [AStr table; AErr err]),
       tr ++ ([EvExec db (disableSQL d); EvQuery db (listSQL d)]
              ++ tableEvents d db (pre ++ [table]))) /\
      EvExec db (enableSQL d) ∉
        [EvExec db (disableSQL d); EvQuery db (listSQL d)]
        ++ tableEvents d db (pre ++ [table])) /\
  (tablesAccepted env d db listed tables ->
   env_Exec env (listed ++ tableEvents d db tables) db (enableSQL d) = None ->
   runTableOp env op db tr =
   (None,
    tr ++ [EvExec db (disableSQL d); EvQuery db (listSQL d)]
       ++ tableEvents d db tables ++ [EvExec db (enableSQL d)])).
Proof.
  intros d listed Hdis Hlist.
  assert (Hlisted : listed = (tr ++ [EvExec db (disableSQL d)]) ++ [EvQuery db (listSQL d)])
    by (unfold listed; by rewrite <- app_assoc).
  rewrite runTableOp_dialect. fold d.
  split.
  - intros pre table post err Htables Hacc Herr. split; [|apply enable_not_sent].
    unfold tableOperation, iobind, call. rewrite Hdis, Hlist, <- Hlisted, Htables.
    rewrite (eachTable_refused env d db pre table post err) by done.
    unfold ioret, listed, tableEvents. rewrite map_app. simpl.
    f_equal. by rewrite <- !app_assoc.
  - intros Hacc Hen.
    unfold tableOperation, iobind, call. rewrite Hdis, Hlist, <- Hlisted.
    rewrite eachTable_accepted by done. rewrite Hen.
    unfold ioret, listed. f_equal. by rewrite <- !app_assoc.
Qed.

Lemma table_operation_sequence_witness :
  FlushMySQLTables quietEnv 7 [] =
  (None,
   [EvExec 7 (str "SET FOREIGN_KEY_CHECKS = 0"); EvQuery 7 (str "SHOW TABLES");
    EvExec 7 (str "TRUNCATE TABLE users"); EvExec 7 (str "TRUNCATE TABLE orders");
    EvExec 7 (str "SET FOREIGN_KEY_CHECKS = 1")]).
Proof.
  apply (proj2 (table_operation_sequence quietEnv OpFlushMySQL 7 []
                  [str "users"; str "orders"] eq_refl eq_refl)).
  - vm_compute. done.
  - reflexivity.
Defined.

(** * Closing the clients *)

Lemma closeEach_accepted (env : environment) (conns : list (option handle)) :
  forall tr : list event,
    closesAccepted env tr conns ->
    closeEach env conns tr = (None, tr ++ closeEvents conns).
Proof.
  induction conns as [|[conn|] conns IH]; intros tr Hacc; simpl.
  - by rewrite app_nil_r.
  - destruct Hacc as (H1 & H2 & Hacc). unfold iobind, call.
    rewrite H1, H2. rewrite IH by (by rewrite <- app_assoc).
    by rewrite <- !app_assoc.
  - by apply IH.
Qed.

(** When every close succeeds, every client that is not nil is closed once,
    in the order of the run, and the cache is empty. *)
Lemma CloseAll_all_closed (env : environment) (order : list (text * option handle))
    (m : ConnectionManager) (tr : list event) :
  closesAccepted env tr (map snd order) ->
  CloseAll env order m tr =
  (Returns None, withConnections ∅ m, tr ++ closeEvents (map snd order)).
Proof.
  intros Hacc. unfold CloseAll, bind, liftIO.
  by rewrite closeEach_accepted.
Qed.

(** When a close fails, [CloseAll] returns before it resets the cache: the
    clients closed so far stay in it. *)
Lemma CloseAll_failure_keeps_cache (env : environment)
    (order : list (text * option handle)) (m m' : ConnectionManager)
    (tr tr' : list event) (err : error) :
  CloseAll env order m tr = (Returns (Some err), m', tr') -> m' = m.
Proof.
  unfold CloseAll, bind, liftIO, ret, setConnections.
  destruct (closeEach env (map snd order) tr) as [[e|] tr1]; intros H;
    by simplify_eq.
Qed.

(** C6, on the code.  With the clients 1 and 2 cached and the close of
    client 2 failing, a run of [CloseAll] that visits client 1 first closes
    it, fails on client 2 and returns with the cache as it was; [Close] of
    the first name then closes client 1 a second time. *)
Theorem CloseAll_failure_closes_twice :
  closeOrder ≡ₚ map_to_list (connections twoClients) /\
  CloseAll closeFails closeOrder twoClients [] =
    (Returns (Some (ExternalError 1)), twoClients, failedCloseAllEvents) /\
  connections twoClients !! str "a" = Some (Some 1) /\
  Close closeFails (str "a") twoClients failedCloseAllEvents =
    (Returns None,
     withConnections (delete (str "a") (connections twoClients)) twoClients,
     failedCloseAllEvents ++ [EvDB 1; EvClose 1]).
Proof.
  split; [|split; [|split]].
  - vm_compute. first [reflexivity | apply perm_swap].
  - vm_compute. reflexivity.
  - vm_compute. reflexivity.
  - vm_compute. reflexivity.
Qed.


(* ================================================================= *)
(** * Part III: further properties of the package *)

(** ** [Close] *)

(** [Close]: an unknown name and a nil client are refused with nothing
    called; an error of [DB()] or of the close is returned as it is and the
    entry stays in the cache; on success the entry is removed. *)
Theorem Close_cases (env : environment) (name : text) (m : ConnectionManager)
    (tr : list event) :
  (connections m !! name = None ->
   Close env name m tr =
   (Returns (Some (Errorf "connection %s not found" [AStr name])), m, tr)) /\
  (connections m !! name = Some None ->
   Close env name m tr =
   (Returns (Some (Errorf "connection was not established" [])), m, tr)) /\
  (forall conn err,
      connections m !! name = Some (Some conn) ->
      env_DB env tr conn = Some err ->
      Close env name m tr = (Returns (Some err), m, tr ++ [EvDB conn])) /\
  (forall conn err,
      connections m !! name = Some (Some conn) ->
      env_DB env tr conn = None ->
      env_Close env (tr ++ [EvDB conn]) conn = Some err ->
      Close env name m tr =
      (Returns (Some err), m, tr ++ [EvDB conn; EvClose conn])) /\
  (forall conn,
      connections m !! name = Some (Some conn) ->
      env_DB env tr conn = None ->
      env_Close env (tr ++ [EvDB conn]) conn = None ->
      Close env name m tr =
      (Returns None, withConnections (delete name (connections m)) m,
       tr ++ [EvDB conn; EvClose conn])).
Proof.
  unfold Close, bind, getManager, ret, liftIO, call, setConnections.
  repeat split.
  - intros H. by rewrite H.
  - intros H. by rewrite H.
  - intros conn err H1 H2. rewrite H1. cbn beta iota. by rewrite H2.
  - intros conn err H1 H2 H3. rewrite H1. cbn beta iota. rewrite H2.
    cbn beta iota. rewrite H3. by rewrite <- app_assoc.
  - intros conn H1 H2 H3. rewrite H1. cbn beta iota. rewrite H2.
    cbn beta iota. rewrite H3. by rewrite <- app_assoc.
Qed.

Lemma Close_cases_witness :
  Close quietEnv (str "primary") connectedManager [] =
  (Returns None, closedManager, [EvDB 7; EvClose 7]).
Proof.
  apply (proj2 (proj2 (proj2 (proj2
           (Close_cases quietEnv (str "primary") connectedManager []))))
           7).
  - vm_compute. reflexivity.
  - reflexivity.
  - reflexivity.
Defined.

Lemma Close_success (env : environment) (name : text)
    (m m' : ConnectionManager) (tr tr' : list event) :
  Close env name m tr = (Returns None, m', tr') ->
  m' = withConnections (delete name (connections m)) m.
Proof.
  unfold Close, bind, getManager, ret, liftIO, call, setConnections.
  intros H. repeat case_match; by simplify_eq.
Qed.

(** After [Close] has succeeded, [GetConnection] of the same name calls
    the factory again with the DSN of the configuration. *)
Theorem Close_then_GetConnection (env : environment) (name : text)
    (m m' : ConnectionManager) (tr tr' : list event)
    (config : connDsn) (connFn : connectionFn) :
  Close env name m tr = (Returns None, m', tr') ->
  connConfigs m !! name = Some config ->
  connectionFns m !! DriverName config = Some connFn ->
  GetConnection name m' tr' =
  match connFn (Dsn config) tr' with
  | Ok conn =>
      (Returns (Ok conn), cached name conn m',
       tr' ++ [EvOpen (DriverName config) (Dsn config)])
  | Err err =>
      (Returns (Err err), m', tr' ++ [EvOpen (DriverName config) (Dsn config)])
  end.
Proof.
  intros HC H1 H2. apply Close_success in HC. subst m'.
  rewrite GetConnection_eq. unfold connectionFn in *. simpl. rewrite H1. cbn beta iota.
  rewrite H2. cbn beta iota. rewrite lookup_delete_eq.
  by destruct (connFn (Dsn config) tr').
Qed.

Lemma Close_then_GetConnection_witness :
  GetConnection (str "primary") closedManager [EvDB 7; EvClose 7] =
  (Returns (Ok (Some 7)), cached (str "primary") (Some 7) closedManager,
   [EvDB 7; EvClose 7; EvOpen DbMySQL (str "dsn")]).
Proof.
  exact (Close_then_GetConnection quietEnv (str "primary") connectedManager
           closedManager [] [EvDB 7; EvClose 7]
           {| DriverName := DbMySQL; Dsn := str "dsn" |} (opens 7)
           ltac:(vm_compute; reflexivity) ltac:(vm_compute; reflexivity)
           ltac:(vm_compute; reflexivity)).
Defined.

(** ** [GetConnection], [SetDsn] and [AddConnectionFunc] *)

Lemma GetConnection_success (name : text) (m m' : ConnectionManager)
    (tr tr' : list event) (conn : option handle) :
  GetConnection name m tr = (Returns (Ok conn), m', tr') ->
  exists config connFn,
    connConfigs m !! name = Some config /\
    connectionFns m !! DriverName config = Some connFn /\
    ((connections m !! name = Some conn /\ m' = m /\ tr' = tr) \/
     (connections m !! name = None /\ m' = cached name conn m /\
      tr' = tr ++ [EvOpen (DriverName config) (Dsn config)])).
Proof.
  rewrite GetConnection_eq. unfold connectionFn. intros H.
  repeat case_match; simplify_eq; eauto 10.
Qed.


(** A client that [GetConnection] has returned is returned again by the
    next call, with no call to the factory. *)
Theorem GetConnection_cached (name : text) (m m' : ConnectionManager)
    (tr tr' : list event) (conn : option handle) :
  GetConnection name m tr = (Returns (Ok conn), m', tr') ->
  GetConnection name m' tr' = (Returns (Ok conn), m', tr').
Proof.
  intros H. apply GetConnection_success in H as (config & connFn & H1 & H2 & H).
  rewrite GetConnection_eq. unfold connectionFn in *.
  destruct H as [(H3 & -> & ->)|(H3 & -> & ->)].
  - rewrite H1. cbn beta iota. rewrite H2. cbn beta iota. by rewrite H3.
  - simpl. rewrite H1. cbn beta iota. rewrite H2. cbn beta iota.
    by rewrite lookup_insert_eq.
Qed.

Lemma GetConnection_cached_witness :
  GetConnection (str "primary") connectedManager [EvOpen DbMySQL (str "dsn")] =
  (Returns (Ok (Some 7)), connectedManager, [EvOpen DbMySQL (str "dsn")]).
Proof.
  exact (GetConnection_cached (str "primary") sampleManager connectedManager
           [] [EvOpen DbMySQL (str "dsn")] (Some 7)
           ltac:(vm_compute; reflexivity)).
Defined.

(** [GetConnection] leaves the configurations, the factories, the marks of
    the migrations and the clients of the other names as they were, and it
    only adds events. *)
Theorem GetConnection_frame (name : text) (m m' : ConnectionManager)
    (tr tr' : list event) (r : outcome (result (option handle))) :
  GetConnection name m tr = (r, m', tr') ->
  connConfigs m' = connConfigs m /\
  connectionFns m' = connectionFns m /\
  executedMigrations m' = executedMigrations m /\
  (forall other, other <> name -> connections m' !! other = connections m !! other) /\
  (tr' = tr \/ exists driverName dsn, tr' = tr ++ [EvOpen driverName dsn]).
Proof.
  unfold GetConnection, bind, getManager, ret, liftIO, call, setConnections.
  unfold connectionFn. intros H.
  repeat case_match; simplify_eq; simpl;
    repeat split; eauto; intros other Hother; by rewrite ?lookup_insert_ne.
Qed.

Lemma GetConnection_frame_witness :
  connConfigs connectedManager = connConfigs sampleManager /\
  connectionFns connectedManager = connectionFns sampleManager /\
  executedMigrations connectedManager = executedMigrations sampleManager /\
  (forall other, other <> str "primary" ->
     connections connectedManager !! other = connections sampleManager !! other) /\
  ([EvOpen DbMySQL (str "dsn")] = [] \/
   exists driverName dsn, [EvOpen DbMySQL (str "dsn")] = [] ++ [EvOpen driverName dsn]).
Proof.
  exact (GetConnection_frame (str "primary") sampleManager connectedManager
           [] [EvOpen DbMySQL (str "dsn")] (Returns (Ok (Some 7)))
           ltac:(vm_compute; reflexivity)).
Defined.

(** [SetDsn] does not touch the cache: once a client is cached for a name,
    a new configuration for that name (with a driver that has a factory) is
    never used; [GetConnection] keeps returning the client of the old
    configuration and calls no factory. *)
Theorem SetDsn_keeps_cached_client (name driverName dsn : text)
    (m m' : ConnectionManager) (tr tr' : list event)
    (conn : option handle) (connFn : connectionFn) :
  connections m !! name = Some conn ->
  connectionFns m !! driverName = Some connFn ->
  SetDsn name driverName dsn m tr = (Returns tt, m', tr') ->
  tr' = tr /\
  connConfigs m' !! name = Some {| DriverName := driverName; Dsn := dsn |} /\
  GetConnection name m' tr' = (Returns (Ok conn), m', tr').
Proof.
  intros H1 H2 H. unfold SetDsn in H. simplify_eq.
  split; [done|]. split; [apply lookup_insert_eq|].
  rewrite GetConnection_eq. unfold connectionFn in *. simpl.
  rewrite lookup_insert_eq. simpl.
  rewrite H2. cbn beta iota. by rewrite H1.
Qed.

Lemma SetDsn_keeps_cached_client_witness :
  GetConnection (str "primary")
    (snd (fst (SetDsn (str "primary") DbMySQL (str "other") connectedManager [])))
    [] =
  (Returns (Ok (Some 7)),
   snd (fst (SetDsn (str "primary") DbMySQL (str "other") connectedManager [])),
   []).
Proof.
  exact (proj2 (proj2 (SetDsn_keeps_cached_client (str "primary") DbMySQL
           (str "other") connectedManager _ [] [] (Some 7) (opens 7)
           ltac:(vm_compute; reflexivity) ltac:(vm_compute; reflexivity)
           eq_refl))).
Defined.

(** A factory registered with [AddConnectionFunc] is the one that
    [GetConnection] calls for a name of that driver that has no client yet;
    the last registration wins. *)
Theorem AddConnectionFunc_used (name driverName dsn : text) (f : connectionFn)
    (m m1 m2 : ConnectionManager) (tr : list event) :
  connections m !! name = None ->
  AddConnectionFunc driverName f m tr = (Returns tt, m1, tr) ->
  SetDsn name driverName dsn m1 tr = (Returns tt, m2, tr) ->
  GetConnection name m2 tr =
  match f dsn tr with
  | Ok conn => (Returns (Ok conn), cached name conn m2, tr ++ [EvOpen driverName dsn])
  | Err err => (Returns (Err err), m2, tr ++ [EvOpen driverName dsn])
  end.
Proof.
  intros Hnone H1 H2. unfold AddConnectionFunc in H1. unfold SetDsn in H2.
  simplify_eq. rewrite GetConnection_eq. unfold connectionFn in *. simpl.
  rewrite lookup_insert_eq. simpl. rewrite lookup_insert_eq. cbn beta iota.
  rewrite Hnone. by destruct (f dsn tr).
Qed.

Lemma AddConnectionFunc_used_witness :
  GetConnection (str "db")
    (snd (fst (SetDsn (str "db") DbSqlite (str "file.db")
       (snd (fst (AddConnectionFunc DbSqlite (refuses 4) NewConnectionManager [])))
       []))) [] =
  (Returns (Err (ExternalError 4)),
   snd (fst (SetDsn (str "db") DbSqlite (str "file.db")
       (snd (fst (AddConnectionFunc DbSqlite (refuses 4) NewConnectionManager [])))
       [])),
   [EvOpen DbSqlite (str "file.db")]).
Proof.
  exact (AddConnectionFunc_used (str "db") DbSqlite (str "file.db") (refuses 4)
           NewConnectionManager _ _ [] ltac:(vm_compute; reflexivity)
           eq_refl eq_refl).
Defined.

(** ** [FlushAllTables] and [DropAllTables] *)

Lemma GetConnection_configs (name : text) (m m' : ConnectionManager)
    (tr tr' : list event) (r : outcome (result (option handle))) :
  GetConnection name m tr = (r, m', tr') -> connConfigs m' = connConfigs m.
Proof.
  rewrite GetConnection_eq. unfold connectionFn. intros H.
  repeat case_match; by simplify_eq.
Qed.

Lemma AllTables_eq (env : environment) (name : text) (m : ConnectionManager)
    (tr : list event) :
  let run sqlite mysql postgres :=
    match GetConnection name m tr with
    | (Returns (Err err), m1, tr1) =>
        (Returns (Some (Errorf "failed to get connection: %w" [AErr err])), m1, tr1)
    | (Returns (Ok db), m1, tr1) =>
        match connConfigs m1 !! name with
        | None =>
            (Returns (Some (Errorf "database connection config not found for %s"
                                   [AStr name])), m1, tr1)
        | Some config =>
            dispatch (DriverName config) sqlite mysql postgres db m1 tr1
        end
    | (Panics, m1, tr1) => (Panics, m1, tr1)
    end in
  FlushAllTables env name m tr =
    run (FlushSQLiteTables env) (FlushMySQLTables env) (FlushPostgresTables env) /\
  DropAllTables env name m tr =
    run (DropSQLiteTables env) (DropMySQLTables env) (DropPostgresTables env).
Proof.
  unfold FlushAllTables, DropAllTables, bind, getManager, ret.
  destruct (GetConnection name m tr) as [[[[db|err]|] m1] tr1]; simpl;
    (split; [|]); by destruct (connConfigs m1 !! name).
Qed.

(** [FlushAllTables] and [DropAllTables] resolve the connection first and
    then choose the dialect by the driver of the configuration: an error of
    [GetConnection] is wrapped; a driver other than the four known ones is
    refused after the connection has been resolved, with no statement sent;
    [sqlite] and [libsql] run the SQLite operation, [mysql] the MySQL one
    and [postgres] the PostgreSQL one on the client; a nil client on a known
    driver panics. *)
Theorem AllTables_dispatch (env : environment) (name : text)
    (m : ConnectionManager) (tr : list event) :
  (forall err m1 tr1,
      GetConnection name m tr = (Returns (Err err), m1, tr1) ->
      FlushAllTables env name m tr =
        (Returns (Some (Errorf "failed to get connection: %w" [AErr err])), m1, tr1) /\
      DropAllTables env name m tr =
        (Returns (Some (Errorf "failed to get connection: %w" [AErr err])), m1, tr1)) /\
  (forall db m1 tr1 config,
      GetConnection name m tr = (Returns (Ok db), m1, tr1) ->
      connConfigs m !! name = Some config ->
      let d := DriverName config in
      (d <> DbSqlite -> d <> DbLibSQL -> d <> DbMySQL -> d <> DbPostgres ->
       FlushAllTables env name m tr =
         (Returns (Some (Errorf "unsupported database driver: %s" [AStr d])), m1, tr1) /\
       DropAllTables env name m tr =
         (Returns (Some (Errorf "unsupported database driver: %s" [AStr d])), m1, tr1)) /\
      (d = DbSqlite \/ d = DbLibSQL \/ d = DbMySQL \/ d = DbPostgres ->
       db = None ->
       FlushAllTables env name m tr = (Panics, m1, tr1) /\
       DropAllTables env name m tr = (Panics, m1, tr1)) /\
      (forall h,
          db = Some h ->
          (d = DbSqlite \/ d = DbLibSQL ->
           FlushAllTables env name m tr = liftIO (FlushSQLiteTables env h) m1 tr1 /\
           DropAllTables env name m tr = liftIO (DropSQLiteTables env h) m1 tr1) /\
          (d = DbMySQL ->
           FlushAllTables env name m tr = liftIO (FlushMySQLTables env h) m1 tr1 /\
           DropAllTables env name m tr = liftIO (DropMySQLTables env h) m1 tr1) /\
          (d = DbPostgres ->
           FlushAllTables env name m tr = liftIO (FlushPostgresTables env h) m1 tr1 /\
           DropAllTables env name m tr = liftIO (DropPostgresTables env h) m1 tr1))).
Proof.
  destruct (AllTables_eq env name m tr) as [HF HD]. rewrite HF, HD. clear HF HD.
  split.
  - intros err m1 tr1 ->. done.
  - intros db m1 tr1 config HG Hc d.
    pose proof (GetConnection_configs _ _ _ _ _ _ HG) as Hsame.
    rewrite HG, Hsame, Hc. fold d. clearbody d.
    unfold dispatch, onClient, panic, ret.
    split; [|split].
    + intros H1 H2 H3 H4.
      repeat match goal with |- context [decide ?P] => destruct (decide P) end;
        try done; exfalso; tauto.
    + intros Hd ->.
      repeat match goal with |- context [decide ?P] => destruct (decide P) end;
        try done; exfalso; tauto.
    + intros h ->. split; [|split]; intros Hd;
        repeat match goal with |- context [decide ?P] => destruct (decide P) end;
        try done; exfalso; subst;
        repeat match goal with H : _ \/ _ |- _ => destruct H end;
        try tauto; try discriminate.
Qed.

Lemma AllTables_dispatch_witness :
  FlushAllTables quietEnv (str "primary") sampleManager [] =
    liftIO (FlushMySQLTables quietEnv 7) connectedManager
           [EvOpen DbMySQL (str "dsn")] /\
  DropAllTables quietEnv (str "primary") sampleManager [] =
    liftIO (DropMySQLTables quietEnv 7) connectedManager
           [EvOpen DbMySQL (str "dsn")].
Proof.
  exact (proj1 (proj2 (proj2 (proj2 (proj2
    (AllTables_dispatch quietEnv (str "primary") sampleManager [])
    (Some 7) connectedManager [EvOpen DbMySQL (str "dsn")]
    {| DriverName := DbMySQL; Dsn := str "dsn" |}
    ltac:(vm_compute; reflexivity) ltac:(vm_compute; reflexivity)))
    7 eq_refl)) eq_refl).
Defined.

(** ** The early failures of the dialect operations *)

(** Every flush and every drop operation: when the disable statement is
    refused nothing else is sent; when the table query fails the operation
    returns with integrity enforcement disabled and no re-enable statement
    sent; when the re-enable statement is refused its error is returned
    after every table has been processed. *)
Theorem table_operation_failures (env : environment) (op : tableOp)
    (db : handle) (tr : list event) :
  let d := dialectOf op in
  (forall err,
      env_Exec env tr db (disableSQL d) = Some err ->
      runTableOp env op db tr =
      (Some (Errorf (disableMsg d) [AErr err]), tr ++ [EvExec db (disableSQL d)])) /\
  (forall err,
      env_Exec env tr db (disableSQL d) = None ->
      env_Query env (tr ++ [EvExec db (disableSQL d)]) db (listSQL d) = Err err ->
      runTableOp env op db tr =
      (Some (Errorf "failed to get table names: %w" [AErr err]),
       tr ++ [EvExec db (disableSQL d); EvQuery db (listSQL d)])) /\
  (forall tables err,
      env_Exec env tr db (disableSQL d) = None ->
      env_Query env (tr ++ [EvExec db (disableSQL d)]) db (listSQL d) = Ok tables ->
      let listed := tr ++ [EvExec db (disableSQL d); EvQuery db (listSQL d)] in
      tablesAccepted env d db listed tables ->
      env_Exec env (listed ++ tableEvents d db tables) db (enableSQL d) = Some err ->
      runTableOp env op db tr =
      (Some (Errorf (enableMsg d) [AErr err]),
       listed ++ tableEvents d db tables ++ [EvExec db (enableSQL d)])).
Proof.
  intros d. rewrite runTableOp_dialect. fold d. split; [|split].
  - intros err H. unfold tableOperation, iobind, call, ioret. by rewrite H.
  - intros err H1 H2. unfold tableOperation, iobind, call, ioret.
    rewrite H1, H2. by rewrite <- app_assoc.
  - intros tables err H1 H2 listed Hacc Hen.
    assert (Hl : listed = (tr ++ [EvExec db (disableSQL d)]) ++ [EvQuery db (listSQL d)])
      by (unfold listed; by rewrite <- app_assoc).
    unfold tableOperation, iobind, call, ioret.
    rewrite H1, H2, <- Hl. rewrite eachTable_accepted by done.
    rewrite Hen. by rewrite <- app_assoc.
Qed.

Lemma table_operation_failures_witness :
  DropPostgresTables queryFails 3 [] =
  (Some (Errorf "failed to get table names: %w" [AErr (ExternalError 9)]),
   [EvExec 3 (str "SET session_replication_role = 'replica'");
    EvQuery 3 (str "SELECT tablename FROM pg_tables WHERE schemaname = 'public'")]).
Proof.
  exact (proj1 (proj2 (table_operation_failures queryFails OpDropPostgres 3 []))
           (ExternalError 9) eq_refl eq_refl).
Defined.

(** ** The early exits of [RunMigration] *)

Lemma RunMigration_eq (env : environment) (name filePath : text)
    (m : ConnectionManager) (tr : list event) :
  RunMigration env name filePath m tr =
  match GetConnection name m tr with
  | (Returns (Err err), m1, tr1) =>
      (Returns (Some (Errorf "failed to get connection: %w" [AErr err])), m1, tr1)
  | (Returns (Ok db), m1, tr1) =>
      match env_ReadFile env tr1 filePath with
      | Err err =>
          (Returns (Some (Errorf "failed to read SQL file %s: %w"
                                 [AStr filePath; AErr err])),
           m1, tr1 ++ [EvReadFile filePath])
      | Ok content =>
          match TrimSpace content with
          | [] => (Returns (Some (Errorf "SQL file %s is empty" [AStr filePath])),
                   m1, tr1 ++ [EvReadFile filePath])
          | _ :: _ =>
              match splitSQLStatements (TrimSpace content) with
              | [] =>
                  (Returns (Some (Errorf "no valid SQL statements found in file %s"
                                         [AStr filePath])),
                   m1, tr1 ++ [EvReadFile filePath])
              | _ :: _ =>
                  onClient db (fun h =>
                    liftIO (Transaction env h (fun tx =>
                      execStatements env tx filePath 0
                        (splitSQLStatements (TrimSpace content)))))
                    m1 (tr1 ++ [EvReadFile filePath])
              end
          end
      end
  | (Panics, m1, tr1) => (Panics, m1, tr1)
  end.
Proof.
  unfold RunMigration, bind at 1.
  destruct (GetConnection name m tr) as [[[[db|err]|] m1] tr1]; [|done|done].
  unfold bind, liftIO, call, ret.
  destruct (env_ReadFile env tr1 filePath) as [content|err]; [|done].
  destruct (TrimSpace content) as [|c k]; [done|].
  by destruct (splitSQLStatements (c :: k)).
Qed.

(** [RunMigration] resolves the connection before it looks at the file: an
    error of [GetConnection] is wrapped and the file is never read.  With
    statements to execute, a nil client panics once the file has been read,
    and a transaction that cannot be begun returns its error with no
    statement sent and nothing rolled back. *)
Theorem RunMigration_early_exits (env : environment) (name filePath : text)
    (m : ConnectionManager) (tr : list event) :
  (forall err m1 tr1,
      GetConnection name m tr = (Returns (Err err), m1, tr1) ->
      RunMigration env name filePath m tr =
      (Returns (Some (Errorf "failed to get connection: %w" [AErr err])), m1, tr1)) /\
  (forall db m1 tr1 content,
      GetConnection name m tr = (Returns (Ok db), m1, tr1) ->
      env_ReadFile env tr1 filePath = Ok content ->
      splitSQLStatements (TrimSpace content) <> [] ->
      (db = None ->
       RunMigration env name filePath m tr =
       (Panics, m1, tr1 ++ [EvReadFile filePath])) /\
      (forall h err,
          db = Some h ->
          env_Begin env (tr1 ++ [EvReadFile filePath]) h = Some err ->
          RunMigration env name filePath m tr =
          (Returns (Some err), m1, tr1 ++ [EvReadFile filePath; EvBegin h]))).
Proof.
  rewrite RunMigration_eq. split.
  - intros err m1 tr1 ->. done.
  - intros db m1 tr1 content -> -> Hne.
    destruct (TrimSpace content) as [|c k] eqn:Hk; [by destruct Hne|].
    destruct (splitSQLStatements (c :: k)) as [|x xs]; [done|].
    split.
    + intros ->. done.
    + intros h err -> Hb. unfold onClient, liftIO, Transaction, iobind, call, ioret.
      rewrite Hb. by rewrite <- app_assoc.
Qed.

Lemma RunMigration_early_exits_witness :
  RunMigration queryFails (str "primary") (str "m.sql") sampleManager [] =
  (Returns (Some (ExternalError 8)), connectedManager,
   [EvOpen DbMySQL (str "dsn"); EvReadFile (str "m.sql"); EvBegin 7]).
Proof.
  exact (proj2 (proj2 (RunMigration_early_exits queryFails (str "primary")
           (str "m.sql") sampleManager [])
           (Some 7) connectedManager [EvOpen DbMySQL (str "dsn")] scenario
           ltac:(vm_compute; reflexivity) eq_refl
           ltac:(vm_compute; discriminate))
           7 (ExternalError 8) eq_refl eq_refl).
Defined.

(** ** [CloseAll] in general *)

Lemma closeEach_refused (env : environment) (pre : list (option handle))
    (h : handle) (post : list (option handle)) :
  forall tr : list event,
    closesAccepted env tr pre ->
    closeEach env (pre ++ Some h :: post) tr =
    let tr1 := tr ++ closeEvents pre in
    match env_DB env tr1 h with
    | Some err => (Some err, tr1 ++ [EvDB h])
    | None =>
        match env_Close env (tr1 ++ [EvDB h]) h with
        | Some err => (Some err, tr1 ++ [EvDB h; EvClose h])
        | None => closeEach env post (tr1 ++ [EvDB h; EvClose h])
        end
    end.
Proof.
  induction pre as [|[conn|] pre IH]; intros tr Hacc; simpl.
  - rewrite app_nil_r. unfold iobind, call, ioret.
    destruct (env_DB env tr h); [done|].
    destruct (env_Close env (tr ++ [EvDB h]) h);
      by rewrite <- app_assoc.
  - destruct Hacc as (H1 & H2 & Hacc). unfold iobind, call.
    rewrite H1, H2.
    rewrite IH by (by rewrite <- app_assoc). cbv zeta.
    replace (((tr ++ [EvDB conn]) ++ [EvClose conn]) ++ closeEvents pre)
      with (tr ++ EvDB conn :: EvClose conn :: closeEvents pre) by reassoc.
    done.
  - by apply IH.
Qed.

(** [CloseAll] stops at the first client that cannot be closed: the clients
    visited before it have been closed, the error is returned as it is, no
    later client is touched and the cache is left as it was, the closed
    clients included. *)
Theorem CloseAll_stops_at_first_failure (env : environment)
    (pre : list (text * option handle)) (name : text) (h : handle)
    (post : list (text * option handle)) (m : ConnectionManager)
    (tr : list event) (err : error) :
  closesAccepted env tr (map snd pre) ->
  let tr1 := tr ++ closeEvents (map snd pre) in
  (env_DB env tr1 h = Some err ->
   CloseAll env (pre ++ (name, Some h) :: post) m tr =
   (Returns (Some err), m, tr1 ++ [EvDB h])) /\
  (env_DB env tr1 h = None ->
   env_Close env (tr1 ++ [EvDB h]) h = Some err ->
   CloseAll env (pre ++ (name, Some h) :: post) m tr =
   (Returns (Some err), m, tr1 ++ [EvDB h; EvClose h])).
Proof.
  intros Hacc tr1.
  assert (Hrun : CloseAll env (pre ++ (name, Some h) :: post) m tr =
    match closeEach env (map snd pre ++ Some h :: map snd post) tr with
    | (Some e, tr') => (Returns (Some e), m, tr')
    | (None, tr') => (Returns None, withConnections ∅ m, tr')
    end).
  { unfold CloseAll, bind, liftIO, ret, setConnections.
    rewrite map_app. simpl.
    by destruct (closeEach env (map snd pre ++ Some h :: map snd post) tr)
      as [[e|] tr']. }
  rewrite Hrun, closeEach_refused by done. cbv zeta. fold tr1. split.
  - intros H1. by rewrite H1.
  - intros H1 H2. by rewrite H1, H2.
Qed.

Lemma CloseAll_stops_at_first_failure_witness :
  CloseAll closeFails closeOrder twoClients [] =
  (Returns (Some (ExternalError 1)), twoClients, failedCloseAllEvents).
Proof.
  exact (proj2 (CloseAll_stops_at_first_failure closeFails
           [(str "a", Some 1)] (str "b") 2 [] twoClients [] (ExternalError 1)
           ltac:(vm_compute; done))
           eq_refl eq_refl).
Defined.

(** When every close succeeds [CloseAll] closes every client that is not
    nil once, in the order of the run, and leaves an empty cache, so that
    the next [GetConnection] of a configured name calls its factory. *)
Theorem CloseAll_closes_everything (env : environment)
    (order : list (text * option handle)) (m : ConnectionManager)
    (tr : list event) :
  closesAccepted env tr (map snd order) ->
  CloseAll env order m tr =
    (Returns None, withConnections ∅ m, tr ++ closeEvents (map snd order)) /\
  (forall name, connections (withConnections ∅ m) !! name = None) /\
  (forall name config connFn conn tr',
      connConfigs m !! name = Some config ->
      connectionFns m !! DriverName config = Some connFn ->
      connFn (Dsn config) tr' = Ok conn ->
      GetConnection name (withConnections ∅ m) tr' =
      (Returns (Ok conn), cached name conn (withConnections ∅ m),
       tr' ++ [EvOpen (DriverName config) (Dsn config)])).
Proof.
  intros Hacc. split; [|split].
  - unfold CloseAll, bind, liftIO. by rewrite closeEach_accepted.
  - intros name. apply lookup_empty.
  - intros name config connFn conn tr' H1 H2 H3.
    rewrite GetConnection_eq. unfold connectionFn in *. simpl.
    rewrite H1. cbn beta iota. rewrite H2. cbn beta iota.
    rewrite lookup_empty. by rewrite H3.
Qed.

Lemma CloseAll_closes_everything_witness :
  CloseAll quietEnv closeOrder twoClients [] =
  (Returns None, withConnections ∅ twoClients,
   [EvDB 1; EvClose 1; EvDB 2; EvClose 2]).
Proof.
  exact (proj1 (CloseAll_closes_everything quietEnv closeOrder twoClients []
                  ltac:(vm_compute; done))).
Defined.

(** ** Keys of migrations *)

Lemma migrationKey_cons (name filePath : text) :
  migrationKey name filePath = name ++ r_colon :: filePath.
Proof. reflexivity. Qed.

Lemma colon_split (name1 name2 path1 path2 : text) :
  noRune r_colon name1 -> noRune r_colon name2 ->
  name1 ++ r_colon :: path1 = name2 ++ r_colon :: path2 ->
  name1 = name2 /\ path1 = path2.
Proof.
  intros H1. revert name2. induction H1 as [|c name1 Hc _ IH];
    intros name2 H2 Heq.
  - destruct name2 as [|d name2]; simpl in Heq.
    + by simplify_eq.
    + inversion H2; subst. simplify_eq.
  - destruct name2 as [|d name2]; simpl in Heq.
    + simplify_eq.
    + inversion H2; subst. simplify_eq.
      destruct (IH name2) as [-> ->]; done.
Qed.

(** For connection names without a colon the key determines the name and
    the path, so that the mark of one migration is never taken for the mark
    of another: marking a pair adds no other pair to the marks. *)
Theorem migrationKey_injective_without_colon (name1 path1 name2 path2 : text)
    (m : ConnectionManager) :
  noRune r_colon name1 -> noRune r_colon name2 ->
  (migrationKey name1 path1 = migrationKey name2 path2 ->
   name1 = name2 /\ path1 = path2) /\
  (migrationKey name2 path2 ∈ executedMigrations (marked name1 path1 m) ->
   (name1 = name2 /\ path1 = path2) \/
   migrationKey name2 path2 ∈ executedMigrations m).
Proof.
  intros H1 H2.
  assert (Hinj : migrationKey name1 path1 = migrationKey name2 path2 ->
                 name1 = name2 /\ path1 = path2).
  { rewrite !migrationKey_cons. by apply colon_split. }
  split; [done|].
  unfold marked. simpl. intros Hin.
  apply elem_of_union in Hin as [Hin|Hin]; [|by right].
  apply elem_of_singleton in Hin. left. by apply Hinj.
Qed.

Lemma migrationKey_injective_without_colon_witness :
  str "primary" = str "primary" /\ str "m.sql" = str "m.sql".
Proof.
  exact (proj1 (migrationKey_injective_without_colon (str "primary") (str "m.sql")
           (str "primary") (str "m.sql") sampleManager
           ltac:(repeat constructor; discriminate)
           ltac:(repeat constructor; discriminate)) eq_refl).
Defined.

(** ** What a migration leaves untouched *)

Lemma GetConnection_fns (name : text) (m m' : ConnectionManager)
    (tr tr' : list event) (r : outcome (result (option handle))) :
  GetConnection name m tr = (r, m', tr') -> connectionFns m' = connectionFns m.
Proof.
  rewrite GetConnection_eq. unfold connectionFn. intros H.
  repeat case_match; by simplify_eq.
Qed.

Lemma GetConnection_others (name : text) (m m' : ConnectionManager)
    (tr tr' : list event) (r : outcome (result (option handle))) :
  GetConnection name m tr = (r, m', tr') ->
  forall other, other <> name -> connections m' !! other = connections m !! other.
Proof.
  rewrite GetConnection_eq. unfold connectionFn. intros H other Hother.
  repeat case_match; simplify_eq; try done.
  simpl. by rewrite lookup_insert_ne.
Qed.

Lemma IO_liftIO_manager {A : Type} (c : IO A) (m m' : ConnectionManager)
    (tr tr' : list event) (r : outcome A) :
  liftIO c m tr = (r, m', tr') -> m' = m.
Proof. unfold liftIO. destruct (c tr). intros H. by simplify_eq. Qed.

(** [RunMigration] changes nothing of the manager but the cache entry of
    its own connection: the configurations, the factories, the marks and
    the clients of the other names are as before. *)
Theorem RunMigration_frame (env : environment) (name filePath : text)
    (m m' : ConnectionManager) (tr tr' : list event) (r : outcome (option error)) :
  RunMigration env name filePath m tr = (r, m', tr') ->
  connConfigs m' = connConfigs m /\
  connectionFns m' = connectionFns m /\
  executedMigrations m' = executedMigrations m /\
  (forall other, other <> name -> connections m' !! other = connections m !! other).
Proof.
  rewrite RunMigration_eq.
  destruct (GetConnection name m tr) as [[o m1] tr1] eqn:HG.
  pose proof (GetConnection_configs _ _ _ _ _ _ HG) as H1.
  pose proof (GetConnection_fns _ _ _ _ _ _ HG) as H2.
  pose proof (GetConnection_marks _ _ _ _ _ _ HG) as H3.
  pose proof (GetConnection_others _ _ _ _ _ _ HG) as H4.
  intros H.
  assert (Hm : m' = m1).
  { destruct o as [[db|err]|]; [|by simplify_eq|by simplify_eq].
    destruct (env_ReadFile env tr1 filePath) as [content|err]; [|by simplify_eq].
    destruct (TrimSpace content) as [|c k]; [by simplify_eq|].
    destruct (splitSQLStatements (c :: k)) as [|x xs]; [by simplify_eq|].
    destruct db as [h|]; simpl in H.
    - by apply IO_liftIO_manager in H.
    - unfold panic in H. by simplify_eq. }
  by subst m'.
Qed.

Lemma RunMigration_frame_witness :
  connConfigs connectedManager = connConfigs sampleManager /\
  connectionFns connectedManager = connectionFns sampleManager /\
  executedMigrations connectedManager = executedMigrations sampleManager /\
  (forall other, other <> str "primary" ->
     connections connectedManager !! other = connections sampleManager !! other).
Proof.
  exact (RunMigration_frame secondFails (str "primary") (str "m.sql")
           sampleManager connectedManager [] secondFailsEvents
           (Returns (Some secondFailsError)) ltac:(vm_compute; reflexivity)).
Defined.

(** * Further properties of the splitters *)

(** Every statement that [splitSQLStatements] returns has a visible
    character at both ends: it is not empty and [TrimSpace] leaves it as it
    is, so that the loop of [RunMigration] skips none of them. *)
Theorem returned_statements_are_trimmed (sqlContent : text) :
  Forall (fun x => x <> [] /\ tight x /\ TrimSpace x = x)
         (splitSQLStatements sqlContent).
Proof.
  pose proof (splitSQLStatements_emitted sqlContent) as H.
  eapply Forall_impl; [exact H|].
  intros x [Hne Hx]. split; [done|]. split; [|done].
  rewrite <- Hx. apply TrimSpace_tight.
Qed.

Lemma Split_app (sep : rune) (a b : text) :
  Split sep (a ++ sep :: b) = Split sep a ++ Split sep b.
Proof.
  induction a as [|c a IH]; simpl.
  - by rewrite N.eqb_refl.
  - destruct (c =? sep); [by rewrite IH|].
    rewrite IH. pose proof (Split_not_nil sep a) as Hne.
    by destruct (Split sep a).
Qed.

Lemma processLine_ignored (s : splitter) (line : text) :
  keptLine (TrimSpace line) = false -> processLine s line = s.
Proof. intros H. by rewrite processLine_kept, H. Qed.

Lemma processLine_TrimSpace (s : splitter) (line : text) :
  processLine s (TrimSpace line) = processLine s line.
Proof. by rewrite !processLine_kept, TrimSpace_idem. Qed.

Lemma fold_processLine_TrimSpace (ls : list text) (s : splitter) :
  fold_left processLine (map TrimSpace ls) s = fold_left processLine ls s.
Proof.
  revert s. induction ls as [|l ls IH]; intros s; [done|].
  simpl. by rewrite processLine_TrimSpace, IH.
Qed.

(** A line that is blank or that begins, after its indentation, with [--],
    [#] or [/*] contributes nothing, wherever it stands in the text; and the
    indentation and the trailing spaces of a line do not matter. *)
Theorem ignored_lines_and_indentation (before line after : text) :
  noRune r_newline line ->
  (keptLine (TrimSpace line) = false ->
   splitSQLStatements (before ++ r_newline :: line ++ r_newline :: after) =
     splitSQLStatements (before ++ r_newline :: after) /\
   splitSQLStatements (line ++ r_newline :: after) = splitSQLStatements after /\
   splitSQLStatements (before ++ r_newline :: line) = splitSQLStatements before) /\
  splitSQLStatements (before ++ r_newline :: line ++ r_newline :: after) =
    splitSQLStatements (before ++ r_newline :: TrimSpace line ++ r_newline :: after).
Proof.
  intros Hline.
  pose proof (Split_noRune_id r_newline line Hline) as Hone.
  pose proof (Split_noRune_id r_newline (TrimSpace line)
                (TrimSpace_noRune _ _ Hline)) as Htrim.
  unfold splitSQLStatements. split.
  - intros Hignored. repeat split.
    + rewrite !Split_app, !fold_left_app, Hone. simpl.
      by rewrite processLine_ignored.
    + rewrite Split_app, fold_left_app, Hone. simpl.
      by rewrite processLine_ignored.
    + rewrite Split_app, fold_left_app, Hone. simpl.
      by rewrite processLine_ignored.
  - rewrite !Split_app, !fold_left_app, Hone, Htrim.
    simpl. by rewrite processLine_TrimSpace.
Qed.

Lemma ignored_lines_and_indentation_witness :
  splitSQLStatements commentedText =
  splitSQLStatements (str "CREATE TABLE t (id INT);
INSERT INTO t VALUES (1);").
Proof.
  exact (proj1 (proj1 (ignored_lines_and_indentation
           (str "CREATE TABLE t (id INT);") (str "-- seed the table")
           (str "INSERT INTO t VALUES (1);")
           ltac:(vm_compute; repeat constructor; discriminate))
           eq_refl)).
Defined.

(** ** No returned statement holds a semicolon outside a literal *)

Lemma openSemi_app (a b : text) :
  forall q, openSemi q (a ++ b) = openSemi q a || openSemi (quoteAfter q a) b.
Proof.
  induction a as [|c a IH]; intros q; [done|].
  simpl. destruct q as [k|].
  - by rewrite IH.
  - rewrite IH. by rewrite orb_assoc.
Qed.

Lemma quoteAfter_app (a b : text) (q : option rune) :
  quoteAfter q (a ++ b) = quoteAfter (quoteAfter q a) b.
Proof. unfold quoteAfter. by rewrite fold_left_app. Qed.

Lemma isSpace_not_quote (c : rune) : isSpace c = true -> isQuote c = false.
Proof.
  intros H. destruct (isQuote c) eqn:Hq; [|done].
  apply isQuote_not_space in Hq. congruence.
Qed.

Lemma quoteAfter_blank (l : text) : blank l -> quoteAfter None l = None.
Proof.
  induction 1 as [|c l Hc _ IH]; [done|].
  unfold quoteAfter in *. simpl. by rewrite (isSpace_not_quote c Hc).
Qed.

Lemma openSemi_TrimSpace (x : text) :
  openSemi None x = false -> openSemi None (TrimSpace x) = false.
Proof.
  destruct (TrimSpace_split x) as (l & r & Hl & Hr & Hx).
  intros H. rewrite Hx in H. rewrite openSemi_app in H.
  apply orb_false_elim in H as [_ H].
  rewrite quoteAfter_blank in H by done.
  rewrite openSemi_app in H. by apply orb_false_elim in H as [H _].
Qed.

Lemma cutAtSemis_init : cutAtSemis initSplitter.
Proof. split; [apply quoteInv_init|]. repeat split; constructor. Qed.

Lemma cutAtSemis_flatStep (s : splitter) (c : rune) :
  cutAtSemis s -> cutAtSemis (flatStep s c).
Proof.
  intros (Hinv & Hq & Hcur & Hst).
  pose proof (flatStep_quoteState s c Hinv) as Hqs.
  split; [by apply quoteInv_flatStep|].
  destruct (decide (c = r_semi /\ inQuotes s = false)) as [[-> Hout]|Hkeep].
  - rewrite flatStep_semi_outside in * by done.
    unfold endStatement. simpl. split; [|split; [done|]].
    + unfold quoteState. simpl. by rewrite Hout.
    + destruct (TrimSpace (currentStatement s)) as [|e k] eqn:Hk; [done|].
      apply Forall_app. split; [done|]. constructor; [|constructor].
      rewrite <- Hk. by apply openSemi_TrimSpace.
  - assert (Hc : c <> r_semi \/ inQuotes s = true).
    { destruct (decide (c = r_semi)) as [->|]; [|by left].
      right. destruct (inQuotes s); [done|]. exfalso. by apply Hkeep. }
    destruct (flatStep_keeps s c Hc) as [H1 H2].
    rewrite H1, H2, Hqs. split; [|split; [|done]].
    + unfold keepRune. destruct (c =? r_newline) eqn:Hn.
      * apply N.eqb_eq in Hn. subst c.
        destruct (currentStatement s) as [|e k] eqn:Hk.
        -- rewrite <- Hq. done.
        -- rewrite quoteAfter_app, Hq. done.
      * by rewrite quoteAfter_app, Hq.
    + assert (Hone : openSemi (quoteState s) [c] = false).
      { unfold quoteState. destruct (inQuotes s) eqn:Hi; simpl.
        - done.
        - destruct Hc as [Hc|Hc]; [|done].
          apply N.eqb_neq in Hc. by rewrite Hc. }
      unfold keepRune. destruct (c =? r_newline).
      * destruct (currentStatement s) as [|e k] eqn:Hk; [done|].
        rewrite openSemi_app, Hcur, Hq. done.
      * rewrite openSemi_app, Hcur, Hq. done.
Qed.

Lemma cutAtSemis_fold (l : text) (s : splitter) :
  cutAtSemis s -> cutAtSemis (fold_left flatStep l s).
Proof.
  revert s. induction l as [|c l IH]; intros s H; [done|].
  simpl. by apply IH, cutAtSemis_flatStep.
Qed.

(** The splitter cuts at every semicolon that is outside a quoted literal:
    no statement it returns holds such a semicolon. *)
Theorem returned_statements_hold_no_open_semicolon (sqlContent : text) :
  Forall (fun x => openSemi None x = false) (splitSQLStatements sqlContent).
Proof.
  rewrite splitSQLStatements_flat.
  destruct (cutAtSemis_fold (scannedText sqlContent) initSplitter cutAtSemis_init)
    as (_ & _ & Hcur & Hst).
  unfold lastStatement.
  destruct (currentStatement (fold_left flatStep (scannedText sqlContent) initSplitter))
    as [|c k] eqn:Hk; [done|].
  destruct (TrimSpace (c :: k)) as [|e j] eqn:Ht; [done|].
  apply Forall_app. split; [done|]. constructor; [|constructor].
  rewrite <- Ht. by apply openSemi_TrimSpace.
Qed.

(** ** The earlier splitter *)

Lemma HasPrefix_isLineComment (part : text) :
  Legacy.keepPart part = true -> part <> [] /\ isLineComment part = false.
Proof.
  unfold Legacy.keepPart, isLineComment. destruct part as [|c k]; [done|].
  intros H. split; [done|]. by apply negb_true_iff in H.
Qed.

(** The earlier splitter returns the pieces between the semicolons, trimmed
    and in order, without the empty ones and without those that begin with
    [--] or [#]: every statement it returns is trimmed, not empty, without
    any semicolon and not a line comment. *)
Theorem Legacy_statements (sqlContent : text) :
  Legacy.splitSQLStatements sqlContent =
    filter (fun part => Legacy.keepPart part = true) (parts sqlContent) /\
  Forall (fun x => x <> [] /\ TrimSpace x = x /\ noRune r_semi x /\
                   isLineComment x = false)
         (Legacy.splitSQLStatements sqlContent).
Proof.
  split; [done|].
  unfold Legacy.splitSQLStatements. apply Forall_forall. intros x Hx.
  apply list_elem_of_filter in Hx as [Hkeep Hx].
  apply HasPrefix_isLineComment in Hkeep as [Hne Hcomment].
  apply list_elem_of_In, in_map_iff in Hx as (p & <- & Hp).
  split; [done|]. split; [apply TrimSpace_idem|]. split; [|done].
  apply TrimSpace_noRune.
  pose proof (Split_noRune r_semi sqlContent) as H.
  rewrite Forall_forall in H. apply H. by apply list_elem_of_In.
Qed.

(** ** A new manager *)

(** A manager made by [NewConnectionManager] knows no name: every lookup,
    close, table operation and migration fails with the configuration or
    the connection not found, calls nothing outside the package and leaves
    the manager as it is; [CloseAll] has nothing to close. *)
Theorem NewConnectionManager_knows_nothing (env : environment)
    (name filePath : text) (tr : list event) :
  let notFound := Errorf "database connection config not found for %s" [AStr name] in
  let wrapped := Errorf "failed to get connection: %w" [AErr notFound] in
  GetConnection name NewConnectionManager tr =
    (Returns (Err notFound), NewConnectionManager, tr) /\
  Close env name NewConnectionManager tr =
    (Returns (Some (Errorf "connection %s not found" [AStr name])),
     NewConnectionManager, tr) /\
  CloseAll env (map_to_list (connections NewConnectionManager))
    NewConnectionManager tr = (Returns None, NewConnectionManager, tr) /\
  FlushAllTables env name NewConnectionManager tr =
    (Returns (Some wrapped), NewConnectionManager, tr) /\
  DropAllTables env name NewConnectionManager tr =
    (Returns (Some wrapped), NewConnectionManager, tr) /\
  RunMigration env name filePath NewConnectionManager tr =
    (Returns (Some wrapped), NewConnectionManager, tr) /\
  RunMigrationOnce env name filePath NewConnectionManager tr =
    (Returns (Some wrapped), NewConnectionManager, tr).
Proof.
  intros notFound wrapped.
  assert (HG : GetConnection name NewConnectionManager tr =
               (Returns (Err notFound), NewConnectionManager, tr)).
  { rewrite GetConnection_eq. simpl. by rewrite lookup_empty. }
  assert (HR : RunMigration env name filePath NewConnectionManager tr =
               (Returns (Some wrapped), NewConnectionManager, tr)).
  { by rewrite RunMigration_eq, HG. }
  destruct (AllTables_eq env name NewConnectionManager tr) as [HF HD].
  split; [exact HG|]. split.
  { unfold Close, bind, getManager, ret. simpl. by rewrite lookup_empty. }
  split.
  { simpl connections. rewrite map_to_list_empty. reflexivity. }
  split; [by rewrite HF, HG|]. split; [by rewrite HD, HG|].
  split; [exact HR|].
  rewrite RunMigrationOnce_eq, HR. simpl.
  by rewrite decide_False by apply not_elem_of_empty.
Qed.

(* ================================================================= *)
(** * Part IV: concurrent callers *)

(** ** A goroutine alone is the sequential method *)

Lemma removeOne_head (i : nat) (l : list nat) : removeOne i (i :: l) = l.
Proof. unfold removeOne. simpl. by rewrite decide_True. Qed.

Lemma exec_pbind {A B : Type} (i : nat) (p : prog A) (f : A -> prog B) :
  forall w : world,
    exec i (pbind p f) w =
    match exec i p w with
    | Some (Returns a, w') => exec i (f a) w'
    | Some (Panics, w') => Some (Panics, w')
    | None => None
    end.
Proof.
  induction p as [[a|]|l k IH|l k IH|l k IH|l k IH|k IH|g k IH|C answer ev k IH];
    intros w; simpl; try done; try apply IH.
  - destruct (writer (lockOf l w)); [done|apply IH].
  - destruct (writer (lockOf l w)); [done|].
    destruct (readers (lockOf l w)); [apply IH|done].
Qed.

Lemma exec_deferUnlock {A : Type} (i : nat) (l : mutex) (p : prog A) :
  forall w : world,
    exec i (deferUnlock l p) w =
    match exec i p w with
    | Some (r, w') =>
        Some (r, withLock l {| writer := None; readers := readers (lockOf l w') |} w')
    | None => None
    end.
Proof.
  induction p as [r|l' k IH|l' k IH|l' k IH|l' k IH|k IH|g k IH|C answer ev k IH];
    intros w; simpl; try done; try apply IH.
  - destruct (writer (lockOf l' w)); [done|apply IH].
  - destruct (writer (lockOf l' w)); [done|].
    destruct (readers (lockOf l' w)); [apply IH|done].
Qed.

Lemma exec_GetConnectionC (i : nat) (name : text) (w : world) :
  muLock w = unlocked ->
  exec i (GetConnectionC name) w =
  Some (returned w (GetConnection name (manager w) (events w))).
Proof.
  destruct w as [l1 l2 m tr]. simpl. intros ->.
  rewrite GetConnection_eq. unfold GetConnectionC, returned, cached.
  unfold connectionFn. cbn -[removeOne].
  destruct (connConfigs m !! name) as [config|]; cbn -[removeOne];
    [|by rewrite removeOne_head].
  match goal with
  | |- context [match ?x with Some _ => _ | None => _ end] =>
      destruct x as [connFn|]
  end; cbn -[removeOne]; [|by rewrite removeOne_head].
  rewrite removeOne_head.
  destruct (connections m !! name) as [conn|] eqn:Hconn; cbn -[removeOne]; [done|].
  rewrite Hconn.
  destruct (connFn (Dsn config) tr) as [conn|err] eqn:Hf; cbn; by rewrite Hf.
Qed.

Lemma exec_execStatementsC (env : environment) (i : nat) (tx : handle)
    (filePath : text) (stmts : list text) :
  forall (n : nat) (w : world),
    exec i (execStatementsC env tx filePath n stmts) w =
    Some (Returns (execStatements env tx filePath n stmts (events w)).1,
          withEvents (execStatements env tx filePath n stmts (events w)).2 w).
Proof.
  induction stmts as [|x stmts IH]; intros n w; simpl.
  - by destruct w.
  - destruct (TrimSpace x) as [|c t]; [apply IH|].
    simpl. unfold iobind, call.
    destruct (env_TxExec env (events w) tx (c :: t)) as [err|]; simpl; [done|].
    rewrite IH. simpl. done.
Qed.

Lemma exec_TransactionC (env : environment) (i : nat) (db : handle)
    (filePath : text) (stmts : list text) (w : world) :
  exec i (TransactionC env db (fun tx => execStatementsC env tx filePath 0 stmts)) w =
  Some (Returns (Transaction env db (fun tx => execStatements env tx filePath 0 stmts)
                   (events w)).1,
        withEvents (Transaction env db (fun tx => execStatements env tx filePath 0 stmts)
                      (events w)).2 w).
Proof.
  unfold TransactionC, Transaction, iobind, call. simpl.
  destruct (env_Begin env (events w) db) as [err|]; simpl; [done|].
  rewrite exec_pbind, exec_execStatementsC. simpl.
  destruct (execStatements env db filePath 0 stmts (events w ++ [EvBegin db]))
    as [[err|] tr1]; simpl; done.
Qed.

Lemma exec_RunMigrationC (env : environment) (i : nat) (name filePath : text)
    (w : world) :
  muLock w = unlocked ->
  exec i (RunMigrationC env name filePath) w =
  Some (returned w (RunMigration env name filePath (manager w) (events w))).
Proof.
  intros Hw. unfold RunMigrationC.
  rewrite exec_pbind, exec_GetConnectionC, RunMigration_eq by done.
  destruct (GetConnection name (manager w) (events w)) as [[[[db|err]|] m1] tr1];
    unfold returned; cbn -[TransactionC Transaction execStatementsC execStatements]; [|done|done].
  destruct (env_ReadFile env tr1 filePath) as [content|err];
    cbn -[TransactionC Transaction execStatementsC execStatements]; [|done].
  destruct (TrimSpace content) as [|c t]; cbn -[TransactionC Transaction execStatementsC execStatements]; [done|].
  destruct (splitSQLStatements (c :: t)) as [|x stmts];
    cbn -[TransactionC Transaction execStatementsC execStatements]; [done|].
  destruct db as [h|]; cbn -[TransactionC Transaction execStatementsC execStatements]; [|done].
  rewrite exec_TransactionC. unfold liftIO. cbn -[TransactionC Transaction execStatementsC execStatements].
  by destruct (Transaction env h _ _).
Qed.

(** A goroutine that runs alone, with the two mutexes free, does what the
    sequential method does and leaves the mutexes free. *)
Lemma exec_RunMigrationOnceC (env : environment) (i : nat) (name filePath : text)
    (m : ConnectionManager) (tr : list event) :
  exec i (RunMigrationOnceC env name filePath) (quiet m tr) =
  Some (returned (quiet m tr) (RunMigrationOnce env name filePath m tr)).
Proof.
  rewrite RunMigrationOnce_eq. unfold RunMigrationOnceC, quiet.
  cbn -[removeOne RunMigrationC]. rewrite removeOne_head.
  destruct (decide (migrationKey name filePath ∈ executedMigrations m)) as [Hin|Hout];
    [done|].
  cbn -[removeOne RunMigrationC]. rewrite exec_deferUnlock. unfold runUnmarked.
  cbn -[removeOne RunMigrationC]. rewrite decide_False by done.
  rewrite exec_pbind, exec_RunMigrationC by done. simpl.
  destruct (RunMigration env name filePath m tr) as [[[[err|]|] m1] tr1];
    unfold returned; simpl; done.
Qed.

(** ** Concurrent calls of [GetConnection] *)

Section GetConnectionRuns.

Variables (name : text) (config : connDsn) (connFn : connectionFn).
Variables (conn : option handle) (tr : list event).
Hypothesis factory_answer : connFn (Dsn config) tr = Ok conn.








End GetConnectionRuns.

(** ** Concurrent calls of [RunMigrationOnce] *)





Section RunMigrationOnceRuns.

Variable env : environment.
Variables name filePath : text.









End RunMigrationOnceRuns.

(** ** The claim on concurrent callers *)



